(** * ip-check: a shallow embedding of the aggregation engine

    The definitions below follow the TypeScript sources of the worker
    (core/ipType.ts, core/batchCheck.ts, api/keyManager.ts, api/client.ts,
    middleware/cache.ts, routes/ai.ts, routes/exits.ts,
    routes/manualCheck.ts).  Names are those of the source.

    Conventions of the embedding:
    - a JS string is a [string] of bytes; the case maps and [trim] act on
      ASCII letters and ASCII white space and leave every other byte alone
      (they agree with the JS built-ins on ASCII text, which is what the
      pattern tables of the source contain);
    - a JS object used as a dictionary is a [gmap string _]; a missing
      property reads as [JUndefined];
    - an object whose iteration order is observed (the vote table) is an
      association list in insertion order;
    - [Date.now()], the network and the KV namespace are explicit inputs. *)

From Stdlib Require Import ZArith String Ascii List Bool Lia DecimalString Sorted.
From stdpp Require Import gmap strings list.

Local Open Scope string_scope.
Local Open Scope Z_scope.

(** ** JS strings *)

Module JsString.

(** [s.startsWith(p)] *)
Fixpoint startsWith (s p : string) {struct p} : bool :=
  match p with
  | EmptyString => true
  | String c p' =>
      match s with
      | EmptyString => false
      | String d s' => if Ascii.eqb d c then startsWith s' p' else false
      end
  end.

(** [s.includes(p)] *)
Fixpoint includes (s p : string) : bool :=
  if startsWith s p then true
  else match s with
       | EmptyString => false
       | String _ s' => includes s' p
       end.

(** The relational reading of "contains [p] as a substring". *)
Definition Contains (s p : string) : Prop :=
  exists pre suf : string, s = String.append pre (String.append p suf).

Definition isUpper (c : ascii) : bool :=
  let n := nat_of_ascii c in (Nat.leb 65 n && Nat.leb n 90)%bool.

Definition isLower (c : ascii) : bool :=
  let n := nat_of_ascii c in (Nat.leb 97 n && Nat.leb n 122)%bool.

Definition upperChar (c : ascii) : ascii :=
  if isLower c then ascii_of_nat (nat_of_ascii c - 32) else c.

Definition lowerChar (c : ascii) : ascii :=
  if isUpper c then ascii_of_nat (nat_of_ascii c + 32) else c.

Fixpoint mapChars (f : ascii -> ascii) (s : string) : string :=
  match s with
  | EmptyString => EmptyString
  | String c s' => String (f c) (mapChars f s')
  end.

Definition toUpperCase : string -> string := mapChars upperChar.
Definition toLowerCase : string -> string := mapChars lowerChar.

(** ASCII white space: TAB, LF, VT, FF, CR, SPACE. *)
Definition isSpace (c : ascii) : bool :=
  let n := nat_of_ascii c in
  ((Nat.leb 9 n && Nat.leb n 13) || Nat.eqb n 32)%bool.

Fixpoint trimStart (s : string) : string :=
  match s with
  | EmptyString => EmptyString
  | String c s' => if isSpace c then trimStart s' else s
  end.

(** Drops the trailing white space: a character survives when it is not
    white space or when something after it survives. *)
Fixpoint trimEnd (s : string) : string :=
  match s with
  | EmptyString => EmptyString
  | String c s' =>
      match trimEnd s' with
      | EmptyString => if isSpace c then EmptyString else String c EmptyString
      | rest => String c rest
      end
  end.

Definition trim (s : string) : string := trimEnd (trimStart s).

(** JS truthiness of a string: non-empty. *)
Definition nonEmpty (s : string) : bool :=
  match s with EmptyString => false | _ => true end.

End JsString.

(** ** JS values found in provider payloads *)

Inductive JsValue : Type :=
| JUndefined
| JNull
| JBool (b : bool)
| JNum (n : Z)
| JStr (s : string)
| JObject.

(** JS truthiness.  A number is falsy when it is zero; objects and arrays
    are always truthy. *)
Definition truthy (v : JsValue) : bool :=
  match v with
  | JUndefined | JNull => false
  | JBool b => b
  | JNum n => negb (n =? 0)
  | JStr s => JsString.nonEmpty s
  | JObject => true
  end.

(** [a || b] *)
Definition jsOr (a b : JsValue) : JsValue := if truthy a then a else b.

(** [merged.k]: reading a property of a [Record<string, unknown>]. *)
Definition prop (merged : gmap string JsValue) (k : string) : JsValue :=
  default JUndefined (merged !! k).

(** ** core/ipType.ts *)

Module IpType.

Record TypeSourceDetail : Type := mkDetail {
  source : string;
  rawType : string;
  normalizedType : string
}.

Record Patterns : Type := mkPatterns {
  pat_includes : list string;
  pat_exact : list string
}.

(** [IP_TYPE_PATTERNS], in the order of [Object.entries]. *)
Definition IP_TYPE_PATTERNS : list (string * Patterns) :=
  [ ("residential",
      mkPatterns ["RESIDENTIAL"; "FIXED LINE"; "FIXED LINE ISP"; "CONSUMER"] ["ISP"]);
    ("mobile",
      mkPatterns ["MOBILE"; "CELLULAR"; "WIRELESS"] ["MOB"]);
    ("datacenter",
      mkPatterns ["DATA CENTER"; "HOSTING"; "TRANSIT"; "DATACENTER"; "SERVER";
                  "WEB HOSTING"; "CONTENT"] ["DCH"]);
    ("commercial",
      mkPatterns ["CORPORATE"; "COMMERCIAL"; "BUSINESS"; "ENTERPRISE"; "ORGANIZATION"]
                 ["COM"]);
    ("education",
      mkPatterns ["EDUCATION"; "UNIVERSITY"; "SCHOOL"; "ACADEMIC"; "LIBRARY"] ["EDU"]);
    ("government",
      mkPatterns ["GOVERNMENT"; "MILITARY"] ["GOV"; "MIL"]);
    ("library",
      mkPatterns ["LIBRARY"] ["LIB"]) ].

Definition DISPLAY_unknown : string := "未知 (Unknown)".

(** [IP_TYPE_DISPLAY] *)
Definition IP_TYPE_DISPLAY : gmap string string :=
  list_to_map
    [ ("residential", "住宅 IP (Residential)");
      ("mobile", "移动 IP (Mobile)");
      ("datacenter", "数据中心 IP (Data Center)");
      ("commercial", "商业 IP (Commercial)");
      ("education", "教育 IP (Education)");
      ("government", "政府/军事 IP (Government)");
      ("library", "图书馆 IP (Library)");
      ("unknown", DISPLAY_unknown) ].

Definition matchesTypePattern (typeUpper : string) (patterns : Patterns) : bool :=
  if existsb (String.eqb typeUpper) (pat_exact patterns) then true
  else existsb (fun p => JsString.includes typeUpper p) (pat_includes patterns).

(** The [for ... of Object.entries(IP_TYPE_PATTERNS)] loop of
    [normalizeIpType]: the first matching entry decides. *)
Fixpoint normalizeLoop (typeUpper : string) (entries : list (string * Patterns)) : string :=
  match entries with
  | [] => "unknown"
  | (type, patterns) :: rest =>
      if matchesTypePattern typeUpper patterns
      then (if String.eqb type "library" then "education" else type)
      else normalizeLoop typeUpper rest
  end.

Definition normalizeIpType (rawType : JsValue) : string :=
  match rawType with
  | JStr s =>
      if JsString.nonEmpty s
      then normalizeLoop (JsString.trim (JsString.toUpperCase s)) IP_TYPE_PATTERNS
      else "unknown"
  | _ => "unknown"
  end.

Fixpoint displayLoop (typeUpper : string) (entries : list (string * Patterns))
  : option string :=
  match entries with
  | [] => None
  | (type, patterns) :: rest =>
      if matchesTypePattern typeUpper patterns
      then Some (default DISPLAY_unknown (IP_TYPE_DISPLAY !! type))
      else displayLoop typeUpper rest
  end.

Definition getDisplayType (ipType : string) : string :=
  if negb (JsString.nonEmpty ipType) then DISPLAY_unknown
  else
    let typeLower := JsString.toLowerCase ipType in
    let typeUpper := JsString.trim (JsString.toUpperCase ipType) in
    match IP_TYPE_DISPLAY !! typeLower with
    | Some d => d
    | None =>
        match displayLoop typeUpper IP_TYPE_PATTERNS with
        | Some d => d
        | None =>
            if String.eqb typeUpper "UNKNOWN" then DISPLAY_unknown
            else String.append ipType " (其他)"
        end
    end.

(** One [if (...) typeSourceDetails.push(...)] block for a string-valued
    key of the merged record. *)
Definition stringSource (src : string) (v : JsValue) (extra : string -> bool)
  : list TypeSourceDetail :=
  match v with
  | JStr s =>
      if (JsString.nonEmpty s && extra s)%bool
      then [mkDetail src s (normalizeIpType (JStr s))]
      else []
  | _ => []
  end.

Definition hostingSource (v : JsValue) : list TypeSourceDetail :=
  match v with
  | JBool true => [mkDetail "IPInfo Hosting" "Hosting/Data Center" "datacenter"]
  | _ => []
  end.

Definition extractTypeSourceDetails (merged : gmap string JsValue)
  : list TypeSourceDetail :=
  stringSource "IPQS" (prop merged "connection_type")
               (fun s => negb (JsString.includes s "Premium"))
  ++ stringSource "AbuseIPDB" (prop merged "usageType") (fun _ => true)
  ++ stringSource "IP2Location" (prop merged "ip2location_usage") (fun _ => true)
  ++ hostingSource (prop merged "ipinfo_hosting").

(** [typeVotes[t] = (typeVotes[t] || 0) + 1] on an object whose keys are
    enumerated in insertion order. *)
Fixpoint bump (t : string) (votes : list (string * nat)) : list (string * nat) :=
  match votes with
  | [] => [(t, 1%nat)]
  | (k, v) :: rest =>
      if String.eqb k t then (k, S v) :: rest else (k, v) :: bump t rest
  end.

Definition countVote (votes : list (string * nat)) (item : TypeSourceDetail)
  : list (string * nat) :=
  let t := normalizedType item in
  if (JsString.nonEmpty t && negb (String.eqb t "unknown"))%bool
  then bump t votes else votes.

Definition pickStep (acc : string * nat) (entry : string * nat) : string * nat :=
  if Nat.ltb (snd acc) (snd entry) then (fst entry, snd entry) else acc.

Definition voteIpType (typeSourceDetails : list TypeSourceDetail) : string :=
  let typeVotes := fold_left countVote typeSourceDetails [] in
  let ipTypeNormalized := fst (fold_left pickStep typeVotes ("unknown", 0%nat)) in
  if (String.eqb ipTypeNormalized "unknown"
      && Nat.eqb (List.length typeSourceDetails) 0)%bool
  then "unknown"
  else ipTypeNormalized.

Definition isHostingIp (merged : gmap string JsValue) (ipTypeNormalized : string) : bool :=
  (String.eqb ipTypeNormalized "datacenter"
   || match prop merged "ipinfo_hosting" with JBool true => true | _ => false end
   || String.eqb (normalizeIpType (prop merged "connection_type")) "datacenter"
   || String.eqb (normalizeIpType (prop merged "usageType")) "datacenter"
   || String.eqb (normalizeIpType (prop merged "ip2location_usage")) "datacenter")%bool.

(** [summary.ipType] of [buildDetailResult]. *)
Record IpTypeSummary : Type := mkIpTypeSummary {
  value : string;
  raw : string;
  sources : list TypeSourceDetail
}.

End IpType.

(** ** Exceptions *)

(** A JS [Error]: its [message] and the [status] property some throw sites
    attach to it. *)
Record JsError : Type := mkError {
  message : string;
  err_status : option Z
}.

(** The outcome of evaluating an expression that may throw. *)
Inductive Completion (A : Type) : Type :=
| Normal (a : A)
| Throw (e : JsError).
Arguments Normal {A} a.
Arguments Throw {A} e.

Definition bindC {A B : Type} (c : Completion A) (k : A -> Completion B) : Completion B :=
  match c with
  | Normal a => k a
  | Throw e => Throw e
  end.

Notation "'run' x <- c ; k" := (bindC c (fun x => k))
  (at level 10, x name, c at level 100, k at level 200).

(** Reading a property of [undefined]. *)
Definition typeError (what : string) : JsError :=
  mkError (String.append "Cannot read properties of undefined: " what) None.

(** Decimal rendering of an integer inside a template literal. *)
Definition showZ (n : Z) : string :=
  DecimalString.NilZero.string_of_int (Z.to_int n).

(** ** api/keyManager.ts *)

Module KeyManager.

Definition DEFAULT_COOLDOWN_MS : Z := 5 * 60 * 1000.
Definition FAILURE_DECAY_MS : Z := 2 * 60 * 1000.

Record KeyState : Type := mkKeyState {
  index : nat;
  isHealthy : bool;
  lastFailure : option Z;
  failureCount : Z;
  successCount : Z
}.

Record t : Type := mkManager {
  serviceName : string;
  keys : list string;
  cooldownMs : Z;
  currentIndex : nat;
  keyStates : gmap string KeyState
}.

Definition setIndex (m : t) (i : nat) : t :=
  mkManager (serviceName m) (keys m) (cooldownMs m) i (keyStates m).

Definition setStates (m : t) (st : gmap string KeyState) : t :=
  mkManager (serviceName m) (keys m) (cooldownMs m) (currentIndex m) st.

(** The constructor argument [keys: string | string[] | undefined]. *)
Inductive KeysInput : Type :=
| KeysUndefined
| KeysString (s : string)
| KeysArray (l : list string).

(** [s.split(',')] *)
Fixpoint splitComma (s : string) : list string :=
  match s with
  | EmptyString => [EmptyString]
  | String c s' =>
      if Ascii.eqb c ","%char then EmptyString :: splitComma s'
      else match splitComma s' with
           | [] => [String c EmptyString]
           | w :: ws => String c w :: ws
           end
  end.

Definition _parseKeys (input : KeysInput) : list string :=
  match input with
  | KeysUndefined => []
  | KeysString s =>
      if JsString.nonEmpty s
      then List.filter JsString.nonEmpty (List.map JsString.trim (splitComma s))
      else []
  | KeysArray l =>
      List.filter (fun k => (JsString.nonEmpty k && JsString.nonEmpty (JsString.trim k))%bool) l
  end.

Definition freshState (i : nat) : KeyState := mkKeyState i true None 0 0.

(** [this.keys.forEach((key, index) => this.keyStates.set(key, ...))] *)
Fixpoint initStates (ks : list string) (i : nat) (st : gmap string KeyState)
  : gmap string KeyState :=
  match ks with
  | [] => st
  | k :: rest => initStates rest (S i) (<[k := freshState i]> st)
  end.

(** [new KeyManager(serviceName, keys, { cooldownMs })] *)
Definition create (service : string) (input : KeysInput) (cooldown : option Z) : t :=
  let ks := _parseKeys input in
  let cd := match cooldown with
            | Some c => if c =? 0 then DEFAULT_COOLDOWN_MS else c
            | None => DEFAULT_COOLDOWN_MS
            end in
  mkManager service ks cd 0%nat (initStates ks 0%nat ∅).

(** [state.lastFailure && (now - state.lastFailure) >= cooldown] *)
Definition cooledDown (now cooldown : Z) (st : KeyState) : bool :=
  match lastFailure st with
  | Some lf => (negb (lf =? 0) && (cooldown <=? now - lf))%bool
  | None => false
  end.

Definition restore (st : KeyState) : KeyState :=
  mkKeyState (index st) true (lastFailure st) 0 (successCount st).

(** The body of the loop of [_cleanupExpiredCooldowns] for one state. *)
Definition cleanupState (now cooldown : Z) (st : KeyState) : KeyState :=
  match lastFailure st with
  | Some lf =>
      if (negb (isHealthy st) && negb (lf =? 0))%bool then
        if cooldown <=? now - lf then restore st
        else if ((FAILURE_DECAY_MS <? now - lf) && (failureCount st <? 2))%bool
             then mkKeyState (index st) (isHealthy st) (lastFailure st) 0 (successCount st)
             else st
      else st
  | None => st
  end.

Definition _cleanupExpiredCooldowns (now : Z) (m : t) : t :=
  setStates m (cleanupState now (cooldownMs m) <$> keyStates m).

(** The [while (attempts < this.keys.length)] loop of [getNextKey];
    [remaining] is [keys.length - attempts]. *)
Fixpoint probe (now : Z) (remaining : nat) (m : t) : Completion (option string * t) :=
  match remaining with
  | O => Normal (None, m)
  | S r =>
      match keys m !! currentIndex m with
      | None => Throw (typeError "isHealthy")
      | Some key =>
          match keyStates m !! key with
          | None => Throw (typeError "isHealthy")
          | Some state =>
              let m1 := setIndex m ((currentIndex m + 1) mod List.length (keys m))%nat in
              if isHealthy state then Normal (Some key, m1)
              else if cooledDown now (cooldownMs m) state
                   then Normal (Some key, setStates m1 (<[key := restore state]> (keyStates m1)))
                   else probe now r m1
          end
      end
  end.

Definition getNextKey (now : Z) (m : t) : Completion (option string * t) :=
  match keys m with
  | [] => Normal (None, m)
  | [k] => Normal (Some k, m)
  | _ => probe now (List.length (keys m)) (_cleanupExpiredCooldowns now m)
  end.

Definition markSuccess (key : string) (m : t) : t :=
  match keyStates m !! key with
  | Some st =>
      let st1 := mkKeyState (index st) (isHealthy st) (lastFailure st)
                            (failureCount st) (successCount st + 1) in
      let st2 := if 0 <? failureCount st1
                 then mkKeyState (index st1) true (lastFailure st1) 0 (successCount st1)
                 else st1 in
      setStates m (<[key := st2]> (keyStates m))
  | None => m
  end.

Definition markFailure (now : Z) (key : string) (m : t) : t :=
  match keyStates m !! key with
  | Some st =>
      let decayed :=
        match lastFailure st with
        | Some lf => (negb (lf =? 0) && (FAILURE_DECAY_MS <? now - lf))%bool
        | None => false
        end in
      let fc := (if decayed then 0 else failureCount st) + 1 in
      let healthy := if 2 <=? fc then false else isHealthy st in
      setStates m (<[key := mkKeyState (index st) healthy (Some now) fc (successCount st)]>
                     (keyStates m))
  | None => m
  end.

(** The second argument of [isKeyRelatedError]: an [Error] (its message
    is inspected) or any other value, represented by the text
    [JSON.stringify] gives for it.  The default argument [{}] is
    [OfValue "{}"]. *)
Inductive ResponseArg : Type :=
| OfError (e : JsError)
| OfValue (json : string).


Definition keyStatuses : list Z := [401; 403; 429].

Definition errorMessages : list string :=
  [ "rate limit"; "quota exceeded"; "limit exceeded";
    "request quota";
    "invalid key"; "invalid api key"; "unauthorized";
    "too many requests"; "daily limit"; "monthly limit";
    "exceeded"; "throttl" ].

Definition responseStr (response : ResponseArg) : string :=
  match response with
  | OfError e => JsString.toLowerCase (message e)
  | OfValue json => JsString.toLowerCase json
  end.

Definition isKeyRelatedError (status : Z) (response : ResponseArg) : bool :=
  if existsb (Z.eqb status) keyStatuses then true
  else existsb (fun msg => JsString.includes (responseStr response) msg) errorMessages.

(** What the constructor establishes and every method keeps: the cursor
    points into the pool and every key has a state. *)
Definition wf (m : t) : Prop :=
  (keys m <> [] -> (currentIndex m < List.length (keys m))%nat)
  /\ (forall k, In k (keys m) -> is_Some (keyStates m !! k)).

End KeyManager.

(** ** api/client.ts *)

Module ApiClient.

(** A parsed response body.  The client only hands it to the provider's
    callbacks and to [JSON.stringify], so it is identified with the text
    [JSON.stringify] gives for it. *)
Definition Payload : Type := string.

Inductive ResultStatus : Type := success | error.

Record ApiResult : Type := mkApiResult {
  source : string;
  data : option (gmap string JsValue);
  rawData : option Payload;
  error_msg : option string;
  status : ResultStatus
}.

Definition errorResult (src msg : string) : ApiResult :=
  mkApiResult src None None (Some msg) error.















(** [mergeResults]: later results overlay earlier ones. *)
Definition mergeResults (results : list ApiResult) : gmap string JsValue :=
  fold_left (fun merged result =>
               match data result with
               | Some d => d ∪ merged
               | None => merged
               end) results ∅.

(** [getRegisteredCountryFromMerged] *)
Definition getRegisteredCountryFromMerged (merged : gmap string JsValue) : option string :=
  match prop merged "ipguide_asn_country" with
  | JStr s => if JsString.nonEmpty s then Some (JsString.toUpperCase s) else None
  | _ => None
  end.

End ApiClient.

(** ** middleware/cache.ts *)

Module Cache.

(** The KV namespace: each entry is stored with the [expirationTtl] it
    was written with.  Values go through [JSON.stringify] on [put] and
    come back parsed on [get]; the store keeps the value itself. *)
Definition KV (V : Type) : Type := gmap string (V * Z).

(** Whether [kv.get] / [kv.put] throw in this call. *)
Record KvFaults : Type := mkFaults {
  getThrows : bool;
  putThrows : bool
}.

Definition noFaults : KvFaults := mkFaults false false.

Definition isDigit (c : ascii) : bool :=
  let n := nat_of_ascii c in (Nat.leb 48 n && Nat.leb n 57)%bool.

Fixpoint digitsPrefix (s : string) (acc : option Z) : option Z :=
  match s with
  | EmptyString => acc
  | String c s' =>
      if isDigit c
      then digitsPrefix s' (Some (10 * default 0 acc + Z.of_nat (nat_of_ascii c - 48)))
      else acc
  end.

(** [parseInt(s, 10)]; [None] is [NaN]. *)
Definition parseInt10 (s : string) : option Z :=
  match JsString.trimStart s with
  | String "-" rest => Z.opp <$> digitsPrefix rest None
  | String "+" rest => digitsPrefix rest None
  | s1 => digitsPrefix s1 None
  end.

(** [getCacheTTL(env)], reading [env.CACHE_TTL_SECONDS]. *)
Definition getCacheTTL (CACHE_TTL_SECONDS : option string) : Z :=
  match parseInt10 (default "" CACHE_TTL_SECONDS) with
  | None => 900
  | Some ttl => if ttl <? 60 then 900 else ttl
  end.

(** [getOrSetCache]: [fetcher] is the completion of the fetcher thunk,
    [truthyT] the truthiness of a cached value. *)
Definition getOrSetCache {T : Type} (truthyT : T -> bool) (key : string)
           (fetcher : Completion T) (kv : option (KV T)) (ttlSeconds : Z)
           (shouldCache : option (T -> bool)) (faults : KvFaults)
  : Completion T * option (KV T) :=
  match kv with
  | None => (fetcher, None)
  | Some store =>
      let cached := if getThrows faults then None else fst <$> store !! key in
      let hit := match cached with
                 | Some c => if truthyT c then Some c else None
                 | None => None
                 end in
      match hit with
      | Some c => (Normal c, Some store)
      | None =>
          match fetcher with
          | Throw e => (Throw e, Some store)
          | Normal result =>
              if negb (match shouldCache with Some f => f result | None => true end)
              then (Normal result, Some store)
              else if putThrows faults then (Normal result, Some store)
                   else (Normal result, Some (<[key := (result, ttlSeconds)]> store))
          end
      end
  end.

End Cache.

(** ** routes/ai.ts and the tail of ai/llm.ts *)

Module Ai.

(** [LlmResult]: only [reasoning] is inspected. *)
Record LlmResult : Type := mkLlmResult {
  reasoning : JsValue
}.

Definition UNAVAILABLE : string := "AI 分析暂时不可用".

(** The [catch] of [analyzeWithLLM]. *)
Definition llmFailure (msg : string) : LlmResult :=
  mkLlmResult (JStr (String.append "AI Analysis Failed: " msg)).

(** The [shouldCache] option of the route; the fetcher gives
    [LlmResult | null]. *)
Definition shouldCache (value : option LlmResult) : bool :=
  match value with
  | None => false
  | Some v =>
      match reasoning v with
      | JStr r =>
          if String.eqb r UNAVAILABLE then false
          else if JsString.startsWith r "AI Analysis Failed" then false
          else true
      | _ => false
      end
  end.

Definition CACHE_VERSION : string := "v1".

Definition aiCacheKey (cacheVersion ip : string) : string :=
  String.append cacheVersion (String.append ":ai:analysis:" ip).

Inductive HttpReply : Type :=
| ApiError (code : Z) (msg : string)
| Json (body : option LlmResult).

(** The handler of [POST /api/ai-analysis] from the point where the body
    has been parsed and destructured into [ip] and [data]; [llm] is what
    [analyzeWithLLM(data, ip, env)] completes with. *)
Definition aiAnalysis (ip : string) (hasData : bool)
           (LLM_API_KEY LLM_BASE_URL CACHE_TTL_SECONDS : option string)
           (llm : Completion (option LlmResult))
           (kv : option (Cache.KV (option LlmResult))) (faults : Cache.KvFaults)
  : HttpReply * option (Cache.KV (option LlmResult)) :=
  if (negb (JsString.nonEmpty ip) || negb hasData)%bool
  then (ApiError 400 "Missing required fields: ip and data", kv)
  else if (negb (JsString.nonEmpty (default "" LLM_API_KEY))
           || negb (JsString.nonEmpty (default "" LLM_BASE_URL)))%bool
  then (ApiError 503 "AI analysis not configured", kv)
  else
    let cacheTTL := Cache.getCacheTTL CACHE_TTL_SECONDS in
    let cacheKey := aiCacheKey CACHE_VERSION ip in
    match Cache.getOrSetCache (fun v : option LlmResult => bool_decide (is_Some v))
                              cacheKey llm kv cacheTTL (Some shouldCache) faults with
    | (Normal result, kv') => (Json result, kv')
    | (Throw _, kv') => (ApiError 500 "AI analysis failed", kv')
    end.

(** What [await c.req.json()] resolves to: [null], or a value whose [ip]
    and [data] members the destructuring reads ([ip] a string as the
    request type declares, absent when the member is missing or the value
    is not an object; [hasData] the truthiness of [data]). *)
Inductive RequestBody : Type :=
| BodyNull
| BodyValue (ip : option string) (hasData : bool).

(** The whole handler of [POST /api/ai-analysis]: [body] is the
    completion of [c.req.json()].  A body that does not parse, and the
    destructuring of [null], throw inside the [try] and are answered by
    its [catch]. *)
Definition postAiAnalysis (body : Completion RequestBody)
           (LLM_API_KEY LLM_BASE_URL CACHE_TTL_SECONDS : option string)
           (llm : Completion (option LlmResult))
           (kv : option (Cache.KV (option LlmResult))) (faults : Cache.KvFaults)
  : HttpReply * option (Cache.KV (option LlmResult)) :=
  match body with
  | Throw _ => (ApiError 500 "AI analysis failed", kv)
  | Normal BodyNull => (ApiError 500 "AI analysis failed", kv)
  | Normal (BodyValue ip hasData) =>
      aiAnalysis (default "" ip) hasData LLM_API_KEY LLM_BASE_URL CACHE_TTL_SECONDS
                 llm kv faults
  end.

End Ai.

(** ** core/batchCheck.ts *)

Module BatchCheck.

Import ApiClient.

Definition CACHE_VERSION : string := "v1".
Definition NEGATIVE_CACHE_TTL_SECONDS : Z := 60.

Definition getMergedIpCacheKey (ip : string) : string :=
  String.append CACHE_VERSION (String.append ":merged:" ip).

Record CachedMergedIpData : Type := mkCached {
  c_merged : gmap string JsValue;
  c_successful : list ApiResult;
  c_errors : list ApiResult;
  c_asn : JsValue;
  cachedAt : Z;
  isNegativeCache : option bool
}.

Definition getCachedMergedIpData (kv : option (Cache.KV CachedMergedIpData))
           (ip : string) (faults : Cache.KvFaults) : option CachedMergedIpData :=
  match kv with
  | None => None
  | Some store =>
      if Cache.getThrows faults then None
      else fst <$> store !! getMergedIpCacheKey ip
  end.

Definition setCachedMergedIpData (kv : option (Cache.KV CachedMergedIpData))
           (ip : string) (data : CachedMergedIpData) (ttlSeconds : Z)
           (faults : Cache.KvFaults) : option (Cache.KV CachedMergedIpData) :=
  match kv with
  | None => None
  | Some store =>
      if Cache.putThrows faults then Some store
      else Some (<[getMergedIpCacheKey ip := (data, ttlSeconds)]> store)
  end.

Record IpApiCheckResult : Type := mkCheck {
  r_ip : string;
  r_asn : JsValue;
  successful : list ApiResult;
  errors : list ApiResult;
  merged : gmap string JsValue;
  partiallyFromCache : bool;
  cachedApiCount : nat;
  totalApiCount : nat
}.

(** An element of what [Promise.allSettled] resolves to. *)
Inductive Settled : Type :=
| Fulfilled (v : ApiResult)
| Rejected (reason : string).

(** The providers as one aggregation sees them: the settled results of
    the first wave, the number of enabled ASN-dependent providers, and
    the settled results of the second wave for a given ASN string. *)
Record Providers : Type := mkProviders {
  phase1Results : list Settled;
  asnDependentApis : nat;
  asnResults : string -> list Settled
}.

(** The body of [for (const r of ...Results)]. *)
Definition collect (acc : list ApiResult * list ApiResult) (r : Settled)
  : list ApiResult * list ApiResult :=
  match r with
  | Fulfilled v =>
      match status v with
      | success => ((fst acc ++ [v])%list, snd acc)
      | error => (fst acc, (snd acc ++ [v])%list)
      end
  | Rejected _ => acc
  end.

(** [typeof m.k === 'string' || typeof m.k === 'number' ? m.k : undefined] *)
Definition stringOrNumber (m : gmap string JsValue) (k : string) : JsValue :=
  match prop m k with
  | JStr s => JStr s
  | JNum n => JNum n
  | _ => JUndefined
  end.

(** [String(detectedAsn)] for a string or a number. *)
Definition asnToString (v : JsValue) : string :=
  match v with
  | JStr s => s
  | JNum n => showZ n
  | _ => ""
  end.

(** [checkSingleIpWithCache]; [now] is the clock at the cache write. *)
Definition checkSingleIpWithCache (ip : string) (asn : JsValue)
           (CACHE_TTL_SECONDS : option string)
           (kv : option (Cache.KV CachedMergedIpData))
           (providers : Providers) (faults : Cache.KvFaults) (now : Z)
  : IpApiCheckResult * option (Cache.KV CachedMergedIpData) :=
  match getCachedMergedIpData kv ip faults with
  | Some cachedData =>
      (mkCheck ip (c_asn cachedData) (c_successful cachedData) (c_errors cachedData)
               (c_merged cachedData) true
               (List.length (c_successful cachedData))
               (List.length (c_successful cachedData) + List.length (c_errors cachedData)),
       kv)
  | None =>
      let phase1 := fold_left collect (phase1Results providers) ([], []) in
      let mergedPhase1 := mergeResults (fst phase1) in
      let detectedAsn :=
        jsOr (jsOr (jsOr asn (stringOrNumber mergedPhase1 "asn"))
                   (stringOrNumber mergedPhase1 "ASN"))
             (stringOrNumber mergedPhase1 "as") in
      let phase2 :=
        if (truthy detectedAsn && Nat.ltb 0 (asnDependentApis providers))%bool
        then fold_left collect (asnResults providers (asnToString detectedAsn)) phase1
        else phase1 in
      let successful := fst phase2 in
      let errors := snd phase2 in
      let merged := mergeResults successful in
      let totalApiCount := (List.length successful + List.length errors)%nat in
      let kv' :=
        if Nat.ltb 0 (List.length successful) then
          setCachedMergedIpData kv ip
            (mkCached merged successful errors detectedAsn now None)
            (Cache.getCacheTTL CACHE_TTL_SECONDS) faults
        else if Nat.ltb 0 (List.length errors) then
          setCachedMergedIpData kv ip
            (mkCached ∅ [] errors detectedAsn now (Some true))
            NEGATIVE_CACHE_TTL_SECONDS faults
        else kv in
      (mkCheck ip detectedAsn successful errors merged false 0%nat totalApiCount, kv')
  end.

Record IpSourceInfo : Type := mkSource {
  geoCountry : option string;
  registryCountry : option string;
  isNative : option bool;
  reason : string
}.

Definition insufficient : IpSourceInfo := mkSource None None None "数据不足".

(** [buildIpSourceInfo].  The first truthy country value is cast to a
    string without a check, so [.toUpperCase()] throws on anything else. *)
Definition buildIpSourceInfo (merged : gmap string JsValue) : Completion IpSourceInfo :=
  let v := jsOr (jsOr (jsOr (jsOr (prop merged "ip2location_country_code")
                                  (prop merged "countryCode"))
                            (prop merged "country_code"))
                      (prop merged "ipinfo_country"))
                (JStr "") in
  match v with
  | JStr s =>
      let geoCountry := JsString.toUpperCase s in
      let registryCountry := getRegisteredCountryFromMerged merged in
      let registryTruthy := match registryCountry with
                            | Some r => JsString.nonEmpty r
                            | None => false
                            end in
      Normal
        (if (JsString.nonEmpty geoCountry && registryTruthy)%bool then
           let r := default "" registryCountry in
           if String.eqb geoCountry r then
             mkSource (Some geoCountry) registryCountry (Some true)
               (String.append "注册国家与地理位置一致 (" (String.append geoCountry ")"))
           else
             mkSource (Some geoCountry) registryCountry (Some false)
               (String.append "注册国家 "
                  (String.append r (String.append "，地理位置 " geoCountry)))
         else if JsString.nonEmpty geoCountry then
           mkSource (Some geoCountry) None None
             (String.append "仅有地理位置 ("
                (String.append geoCountry ")，无法确定注册国家"))
         else if registryTruthy then
           mkSource None registryCountry None
             (String.append "仅有注册国家 ("
                (String.append (default "" registryCountry) ")，无地理位置数据"))
         else insufficient)
  | _ => Throw (mkError "toUpperCase is not a function" None)
  end.

(** [CfNativeData]: the address, [network.asn], and the remaining
    members, which the functions below only copy. *)
Record CfNativeData : Type := mkCf {
  cf_ip : string;
  cf_asn : option Z;
  cf_other : string
}.

Record ExitItem : Type := mkExit {
  exitType : string;
  cfData : CfNativeData
}.

(** [EXIT_TYPE_ORDER] of types/api.ts *)
Definition EXIT_TYPE_ORDER : gmap string Z :=
  list_to_map [ ("ipv4", 1); ("ipv6", 2); ("warp_v4", 3); ("warp_v6", 4); ("he_v6", 5) ].

(** [EXIT_TYPE_ORDER] is a plain object: besides its own five keys it
    answers for the members it inherits from [Object.prototype]. *)
Definition OBJECT_PROTOTYPE_KEYS : list string :=
  [ "constructor"; "toString"; "toLocaleString"; "valueOf"; "hasOwnProperty";
    "isPrototypeOf"; "propertyIsEnumerable"; "__proto__"; "__defineGetter__";
    "__defineSetter__"; "__lookupGetter__"; "__lookupSetter__" ].

Definition inheritedKey (t : string) : bool :=
  existsb (String.eqb t) OBJECT_PROTOTYPE_KEYS.

(** What [EXIT_TYPE_ORDER[t] || 999] evaluates to: a number, or the
    function or object that [Object.prototype] holds under [t], which is
    truthy. *)
Inductive OrderValue : Type :=
| OrderNum (n : Z)
| OrderInherited (key : string).

(** [EXIT_TYPE_ORDER[t] || 999] *)
Definition exitOrder (t : string) : OrderValue :=
  match EXIT_TYPE_ORDER !! t with
  | Some n => if n =? 0 then OrderNum 999 else OrderNum n
  | None => if inheritedKey t then OrderInherited t else OrderNum 999
  end.

(** [orderA !== orderB]: the inherited members are distinct objects. *)
Definition orderDiffers (a b : OrderValue) : bool :=
  match a, b with
  | OrderNum n, OrderNum m => negb (n =? m)
  | OrderInherited k, OrderInherited k' => negb (String.eqb k k')
  | _, _ => true
  end.

(** [orderA - orderB]; [None] is [NaN], the difference as soon as one
    operand is a function or an object. *)
Definition orderMinus (a b : OrderValue) : option Z :=
  match a, b with
  | OrderNum n, OrderNum m => Some (n - m)
  | _, _ => None
  end.




Section Prepare.

(** [a.localeCompare(b)]: the collation of the runtime. *)
Variable localeCompare : string -> string -> Z.

(** The comparator handed to [sort]; [None] is [NaN]. *)
Definition compareExits (a b : ExitItem) : option Z :=
  let orderA := exitOrder (exitType a) in
  let orderB := exitOrder (exitType b) in
  if orderDiffers orderA orderB then orderMinus orderA orderB
  else Some (localeCompare (exitType a) (exitType b)).

(** How [sort] reads the comparator: a [NaN] result counts as [+0]. *)
Definition sortCompare (a b : ExitItem) : Z := default 0 (compareExits a b).

(** [Array.prototype.sort] is stable: an element is placed before the
    first element it does not compare greater than.  With exit types that
    name members of [Object.prototype] the comparator is not a consistent
    ordering and the order [sort] produces is left to the engine; the
    insertion below is then one of the permitted results. *)
Fixpoint insertExit (x : ExitItem) (l : list ExitItem) : list ExitItem :=
  match l with
  | [] => [x]
  | y :: rest =>
      if sortCompare x y <=? 0 then x :: y :: rest
      else y :: insertExit x rest
  end.

Fixpoint sortExits (l : list ExitItem) : list ExitItem :=
  match l with
  | [] => []
  | x :: rest => insertExit x (sortExits rest)
  end.




End Prepare.

(** [meta] of [buildDetailResult] (without the timestamp). *)
Record DetailMeta : Type := mkMeta {
  meta_sources : list string;
  apiErrors : option (list (string * string));
  cached : bool;
  meta_cachedApiCount : nat;
  meta_totalApiCount : nat
}.

(** [DetailResult], restricted to the members derived from the vote, the
    source judgment and the provider outcomes: [ip], [summary.ipType],
    [summary.ipSource], [summary.risk.isHosting] and [meta]. *)
Record DetailResult : Type := mkDetailResult {
  d_ip : string;
  d_ipType : IpType.IpTypeSummary;
  d_ipSource : IpSourceInfo;
  d_isHosting : bool;
  d_meta : DetailMeta
}.

Definition apiErrorsOf (errors : list ApiResult) : option (list (string * string)) :=
  if Nat.ltb 0 (List.length errors)
  then Some (List.map (fun e => (source e,
                                 match error_msg e with
                                 | Some msg => if JsString.nonEmpty msg then msg
                                               else "Unknown error"
                                 | None => "Unknown error"
                                 end)) errors)
  else None.

Definition buildDetailResult (ip : string) (merged : gmap string JsValue)
           (successful errors : list ApiResult) (ipSourceInfo : IpSourceInfo)
           (typeSourceDetails : list IpType.TypeSourceDetail)
           (ipTypeNormalized displayType : string) (cfData : option CfNativeData)
           (cached : bool) (cachedApiCount totalApiCount : nat) : DetailResult :=
  let sources := List.map source successful in
  mkDetailResult ip
    (IpType.mkIpTypeSummary displayType ipTypeNormalized typeSourceDetails)
    ipSourceInfo
    (IpType.isHostingIp merged ipTypeNormalized)
    (mkMeta (match cfData with
             | Some _ => "cloudflare_native" :: sources
             | None => sources
             end)
            (apiErrorsOf errors) cached cachedApiCount totalApiCount).

(** [buildIpCheckResult] *)
Definition buildIpCheckResult (ip : string) (apiResult : IpApiCheckResult)
           (ipSourceInfo : IpSourceInfo) : DetailResult :=
  let typeSourceDetails := IpType.extractTypeSourceDetails (merged apiResult) in
  let ipTypeNormalized := IpType.voteIpType typeSourceDetails in
  let displayType := IpType.getDisplayType ipTypeNormalized in
  buildDetailResult ip (merged apiResult) (successful apiResult) (errors apiResult)
    ipSourceInfo typeSourceDetails ipTypeNormalized displayType None
    (partiallyFromCache apiResult) (cachedApiCount apiResult) (totalApiCount apiResult).

Record ExitResultItem : Type := mkExitResult {
  er_exitType : string;
  er_detail : DetailResult
}.

(** [mergeExitData] *)
Definition mergeExitData (exitType : string) (cfData : CfNativeData)
           (apiResult : IpApiCheckResult) (ipSourceInfo : IpSourceInfo) : ExitResultItem :=
  let typeSourceDetails := IpType.extractTypeSourceDetails (merged apiResult) in
  let ipTypeNormalized := IpType.voteIpType typeSourceDetails in
  let displayType := IpType.getDisplayType ipTypeNormalized in
  mkExitResult exitType
    (buildDetailResult (cf_ip cfData) (merged apiResult) (successful apiResult)
       (errors apiResult) ipSourceInfo typeSourceDetails ipTypeNormalized displayType
       (Some cfData) (partiallyFromCache apiResult) (cachedApiCount apiResult)
       (totalApiCount apiResult)).

(** *** processExitsStream *)

(** The [uniqueExits] map: first occurrence per address, in insertion
    order. *)
Fixpoint uniqueLoop (seen : gset string) (exits : list ExitItem) : list ExitItem :=
  match exits with
  | [] => []
  | exit :: rest =>
      let ip := cf_ip (cfData exit) in
      if bool_decide (ip ∈ seen) then uniqueLoop seen rest
      else exit :: uniqueLoop ({[ip]} ∪ seen) rest
  end.

Definition uniqueExits (exits : list ExitItem) : list ExitItem := uniqueLoop ∅ exits.

(** What the wrapped promise of a pending item resolves to. *)
Inductive ItemOutcome : Type :=
| ItemResult (result : ExitResultItem)
| ItemError (e : JsError).

Record PendingItem : Type := mkPending {
  pi_exit : ExitItem;
  pi_promise : ItemOutcome;
  resolved : bool
}.

Record Yielded : Type := mkYield {
  y_exit : ExitItem;
  y_result : ExitResultItem
}.

(** The async body of one pending item; [check] stands for
    [checkSingleIpWithCache] run for that address. *)
Definition runItem (check : string -> Completion IpApiCheckResult) (exit : ExitItem)
  : ItemOutcome :=
  let attempt :=
    run apiResult <- check (cf_ip (cfData exit));
    run ipSourceInfo <- buildIpSourceInfo (merged apiResult);
    Normal (mergeExitData (exitType exit) (cfData exit) apiResult ipSourceInfo) in
  match attempt with
  | Normal result => ItemResult result
  | Throw e => ItemError e
  end.

Definition fallbackResult (exit : ExitItem) (errorMessage : string) : ExitResultItem :=
  let m := mergeExitData (exitType exit) (cfData exit)
             (mkCheck (cf_ip (cfData exit)) JUndefined [] [] ∅ false 0%nat 0%nat)
             insufficient in
  let d := er_detail m in
  mkExitResult (er_exitType m)
    (mkDetailResult (d_ip d) (d_ipType d) (d_ipSource d) (d_isHosting d)
       (mkMeta (meta_sources (d_meta d)) (Some [("batch_stream", errorMessage)])
               (cached (d_meta d)) (meta_cachedApiCount (d_meta d))
               (meta_totalApiCount (d_meta d)))).

Definition yieldOf (item : PendingItem) : Yielded :=
  match pi_promise item with
  | ItemResult result => mkYield (pi_exit item) result
  | ItemError e =>
      mkYield (pi_exit item)
              (fallbackResult (pi_exit item)
                 (if JsString.nonEmpty (message e) then message e else "Error"))
  end.

Fixpoint unresolvedFrom (i : nat) (pending : list PendingItem) : list nat :=
  match pending with
  | [] => []
  | item :: rest =>
      if resolved item then unresolvedFrom (S i) rest
      else i :: unresolvedFrom (S i) rest
  end.

Definition markResolved (item : PendingItem) : PendingItem :=
  mkPending (pi_exit item) (pi_promise item) true.

(** The [while (pendingItems.some(item => !item.resolved))] loop.
    [Promise.race] is won by some unresolved item: [race round] picks
    which one.  [fuel] bounds the number of rounds. *)
Fixpoint raceLoop (race : nat -> nat) (fuel round : nat) (pending : list PendingItem)
  : list Yielded :=
  match fuel with
  | O => []
  | S f =>
      match unresolvedFrom 0 pending with
      | [] => []
      | u :: us =>
          let index := nth (race round mod List.length (u :: us)) (u :: us) u in
          match pending !! index with
          | None => []
          | Some item =>
              yieldOf item
                :: raceLoop race f (S round) (<[index := markResolved item]> pending)
          end
      end
  end.

Definition processExitsStream (race : nat -> nat)
           (check : string -> Completion IpApiCheckResult) (exits : list ExitItem)
  : list Yielded :=
  let pendingItems :=
    List.map (fun exit => mkPending exit (runItem check exit) false) (uniqueExits exits) in
  raceLoop race (List.length pendingItems) 0%nat pendingItems.

End BatchCheck.

(** ** routes/exits.ts and routes/manualCheck.ts: the batch-stream endpoints *)

Module Routes.

Import BatchCheck.

(** The SSE events.  [stream.writeSSE] is taken not to throw, so the
    [STREAM_ERROR] event of the outer [catch] does not occur. *)
Inductive StreamEvent : Type :=
| ResultEvent (ip : string) (exitType : option string) (result : DetailResult)
              (completed total : nat)
| ItemFailedEvent (ip : string) (error : string) (completed total : nat)
| DoneEvent (completed total : nat).

Inductive Reply : Type :=
| BadRequest (error : string)
| EventStream (events : list StreamEvent).

Record BatchIpItem : Type := mkIpItem {
  b_ip : string;
  b_type : option string
}.

Definition isResult (e : StreamEvent) : bool :=
  match e with ResultEvent _ _ _ _ _ => true | _ => false end.

Definition showNat (n : nat) : string := showZ (Z.of_nat n).

Section Endpoints.

(** utils/ipValidation.ts and utils/ip.ts *)
Variable isValidIp : string -> bool.
Variable isLocalOrInternalIP : string -> bool.

Fixpoint validateExitItems (i : nat) (exits : list ExitItem) : option string :=
  match exits with
  | [] => None
  | exit :: rest =>
      let ip := cf_ip (cfData exit) in
      if (negb (JsString.nonEmpty (exitType exit)) || negb (JsString.nonEmpty ip))%bool
      then Some (String.append "Invalid exit item at index "
                   (String.append (showNat i)
                      ": exitType and cfData.ip are required"))
      else if negb (isValidIp ip)
      then Some (String.append "Invalid exit item at index "
                   (String.append (showNat i)
                      (String.append ": invalid IP format ("
                         (String.append ip ")"))))
      else validateExitItems (S i) rest
  end.

(** [validateExitsArray(exits, maxLength)]: [None] when valid. *)
Definition validateExitsArray (exits : list ExitItem) (maxLength : nat) : option string :=
  match exits with
  | [] => Some "Missing required field: exits (non-empty array)"
  | _ =>
      if Nat.ltb maxLength (List.length exits)
      then Some (String.append "Too many exits. Maximum "
                   (String.append (showNat maxLength) " exits per request."))
      else validateExitItems 0 exits
  end.

Fixpoint validateIpItems (i : nat) (ips : list BatchIpItem) : option string :=
  match ips with
  | [] => None
  | item :: rest =>
      let ip := JsString.trim (b_ip item) in
      if negb (JsString.nonEmpty ip)
      then Some (String.append "Invalid IP item at index "
                   (String.append (showNat i) ": ip is required"))
      else if negb (isValidIp ip)
      then Some (String.append "Invalid IP item at index "
                   (String.append (showNat i)
                      (String.append ": invalid IP format ("
                         (String.append (b_ip item) ")"))))
      else if isLocalOrInternalIP ip
      then Some (String.append "Cannot check local or internal IP at index "
                   (String.append (showNat i) (String.append ": " ip)))
      else validateIpItems (S i) rest
  end.

(** [validateIpsArray(ips, maxLength, isLocalOrInternalIP)] *)
Definition validateIpsArray (ips : list BatchIpItem) (maxLength : nat) : option string :=
  match ips with
  | [] => Some "Missing required field: ips (non-empty array)"
  | _ =>
      if Nat.ltb maxLength (List.length ips)
      then Some (String.append "Too many IPs. Maximum "
                   (String.append (showNat maxLength) " IPs per request."))
      else validateIpItems 0 ips
  end.

(** The [for await] loop of [/api/check-exits/batch-stream] followed by
    the [done] event. *)
Fixpoint emitExits (total completed : nat) (ys : list Yielded) : list StreamEvent :=
  match ys with
  | [] => [DoneEvent total total]
  | y :: rest =>
      ResultEvent (d_ip (er_detail (y_result y))) (Some (exitType (y_exit y)))
                  (er_detail (y_result y)) (S completed) total
        :: emitExits total (S completed) rest
  end.

(** [POST /api/check-exits/batch-stream] *)
Definition checkExitsBatchStream (race : nat -> nat)
           (check : string -> Completion IpApiCheckResult) (exits : list ExitItem)
  : Reply :=
  match validateExitsArray exits 10 with
  | Some err => BadRequest err
  | None =>
      let total := List.length exits in
      EventStream (emitExits total 0 (processExitsStream race check exits))
  end.

(** The [for (const item of normalizedIps)] loop of
    [/api/check-ip/batch-stream] followed by the [done] event; [check i]
    stands for the [i]-th call of [checkSingleIpWithCache]. *)
Fixpoint emitIps (check : nat -> string -> Completion IpApiCheckResult)
         (total completed : nat) (items : list BatchIpItem) : list StreamEvent :=
  match items with
  | [] => [DoneEvent total total]
  | item :: rest =>
      let ip := b_ip item in
      let attempt :=
        run apiResult <- check completed ip;
        run ipSourceInfo <- buildIpSourceInfo (merged apiResult);
        Normal (buildIpCheckResult ip apiResult ipSourceInfo) in
      match attempt with
      | Normal result =>
          ResultEvent ip None result (S completed) total
            :: emitIps check total (S completed) rest
      | Throw err =>
          ItemFailedEvent ip (message err) (S completed) total
            :: emitIps check total (S completed) rest
      end
  end.

(** [POST /api/check-ip/batch-stream] *)
Definition checkIpBatchStream (check : nat -> string -> Completion IpApiCheckResult)
           (ips : list BatchIpItem) : Reply :=
  match validateIpsArray ips 20 with
  | Some err => BadRequest err
  | None =>
      let normalizedIps :=
        List.map (fun item => mkIpItem (JsString.trim (b_ip item)) (b_type item)) ips in
      let total := List.length normalizedIps in
      EventStream (emitIps check total 0 normalizedIps)
  end.

End Endpoints.

End Routes.

(** ** Predicates used in the statements *)

Module Spec.

(** The key under cursor position [i] is not usable at time [now]: it is
    marked unhealthy and its cooldown has not expired. *)
Definition unavailable (now : Z) (m : KeyManager.t) (i : nat) : Prop :=
  exists k st,
    KeyManager.keys m !! i = Some k
    /\ KeyManager.keyStates m !! k = Some st
    /\ KeyManager.isHealthy st = false
    /\ KeyManager.cooledDown now (KeyManager.cooldownMs m) st = false.

(** Key [k] is marked healthy in the pool. *)
Definition healthyIn (m : KeyManager.t) (k : string) : Prop :=
  exists st, KeyManager.keyStates m !! k = Some st /\ KeyManager.isHealthy st = true.

(** The property every entry of the vote table has: its key is a real
    category satisfying [P] and it carries at least one vote. *)
Definition goodEntry (P : string -> Prop) (e : string * nat) : Prop :=
  fst e <> "unknown" /\ P (fst e) /\ (1 <= snd e)%nat.

(** The detail casts a vote: its normalized type is a real category. *)
Definition votes (d : IpType.TypeSourceDetail) : bool :=
  (JsString.nonEmpty (IpType.normalizedType d)
   && negb (String.eqb (IpType.normalizedType d) "unknown"))%bool.

(** The categories [normalizeIpType] can answer. *)
Definition isCategory (t : string) : Prop :=
  In t [ "residential"; "mobile"; "datacenter"; "commercial"; "education";
         "government"; "unknown" ].

(** An LLM result the route lets into the cache: its [reasoning] is a
    string other than the "temporarily unavailable" sentence that does not
    start with the failure prefix. *)
Definition cacheable (value : option Ai.LlmResult) : Prop :=
  exists v r, value = Some v /\ Ai.reasoning v = JStr r
              /\ r <> Ai.UNAVAILABLE
              /\ JsString.startsWith r "AI Analysis Failed" = false.

(** The exit-type order as the specification gives it, with 999 for
    every other type. *)
Definition exitRank (t : string) : Z :=
  if String.eqb t "ipv4" then 1
  else if String.eqb t "ipv6" then 2
  else if String.eqb t "warp_v4" then 3
  else if String.eqb t "warp_v6" then 4
  else if String.eqb t "he_v6" then 5
  else 999.



(** The same with the condition that the [reasoning] is not empty. *)
Definition cacheableNonEmpty (value : option Ai.LlmResult) : Prop :=
  exists v r, value = Some v /\ Ai.reasoning v = JStr r
              /\ JsString.nonEmpty r = true
              /\ r <> Ai.UNAVAILABLE
              /\ JsString.startsWith r "AI Analysis Failed" = false.










(** The pending items still racing. *)
Definition unresolvedCount (pending : list BatchCheck.PendingItem) : nat :=
  List.length (List.filter (fun item => negb (BatchCheck.resolved item)) pending).

(** The number of [result] events of a stream. *)
Definition resultCount (events : list Routes.StreamEvent) : nat :=
  List.length (List.filter Routes.isResult events).

(** The events of a stream that report on one item. *)
Definition itemCount (events : list Routes.StreamEvent) : nat :=
  List.length (List.filter (fun e => match e with
                                     | Routes.DoneEvent _ _ => false
                                     | _ => true
                                     end) events).

(** A decidable form of [KeyManager.wf]. *)
Definition wfb (m : KeyManager.t) : bool :=
  (match KeyManager.keys m with
   | [] => true
   | _ => Nat.ltb (KeyManager.currentIndex m) (List.length (KeyManager.keys m))
   end
   && forallb (fun k => bool_decide (is_Some (KeyManager.keyStates m !! k)))
              (KeyManager.keys m))%bool.

End Spec.

(** ** Concrete pools, records and requests used as test inputs *)

Module Examples.

Import KeyManager.

(** A pool of three keys whose first key failed twice in a row. *)
Definition pool3 : t :=
  markFailure 1000 "A" (markFailure 900 "A" (create "ipqs" (KeysString "A,B,C") None)).

(** A pool of one key that failed twice in a row. *)
Definition pool1 : t :=
  markFailure 1000 "K1" (markFailure 999 "K1" (create "ipqs" (KeysString "K1") None)).

(** An aggregation whose IPQS connection type is a premium-plan notice,
    with the three other type fields present. *)
Definition premiumRecord : BatchCheck.IpApiCheckResult :=
  BatchCheck.mkCheck "8.8.8.8" JUndefined [] []
    (<["connection_type" := JStr "Premium required"]>
       (<["usageType" := JStr "Data Center/Web Hosting/Transit"]>
          (<["ip2location_usage" := JStr "ISP"]>
             (<["ipinfo_hosting" := JBool true]> ∅))))
    false 0%nat 0%nat.

(** Registry in Germany, geolocation in the United States. *)
Definition broadcastRecord : gmap string JsValue :=
  <["ipguide_asn_country" := JStr "de"]>
    (<["ip2location_country_code" := JStr "US"]>
       (<["connection_type" := JStr "Residential"]> ∅)).




(** One provider answered, one failed. *)
Definition mixedProviders : BatchCheck.Providers :=
  BatchCheck.mkProviders
    [ BatchCheck.Fulfilled
        (ApiClient.mkApiResult "ipguide" (Some (<["ipguide_asn_country" := JStr "US"]> ∅))
                               None None ApiClient.success);
      BatchCheck.Fulfilled (ApiClient.errorResult "ipqs" "HTTP 429: slow down") ]
    0%nat (fun _ => []).



(** A fresh pool of two keys. *)
Definition pool2 : KeyManager.t := create "ipqs" (KeysString "K1,K2") None.

(** Four exits, the third repeating the address of the first. *)
Definition dupExits : list BatchCheck.ExitItem :=
  [ BatchCheck.mkExit "ipv4" (BatchCheck.mkCf "8.8.8.8" None "{}");
    BatchCheck.mkExit "ipv6" (BatchCheck.mkCf "1.1.1.1" None "{}");
    BatchCheck.mkExit "warp_v4" (BatchCheck.mkCf "8.8.8.8" None "{}");
    BatchCheck.mkExit "warp_v6" (BatchCheck.mkCf "9.9.9.9" None "{}") ].

(** The same four addresses as a manual query. *)
Definition dupIps : list Routes.BatchIpItem :=
  [ Routes.mkIpItem "8.8.8.8" None; Routes.mkIpItem "1.1.1.1" None;
    Routes.mkIpItem "8.8.8.8" None; Routes.mkIpItem "9.9.9.9" None ].

End Examples.

(** ** api/keyManager.ts: the remaining operations *)

Module KeyManagerExt.

Import KeyManager.

(** [resetAll] *)
Definition resetState (st : KeyState) : KeyState :=
  mkKeyState (index st) true None 0 (successCount st).

Definition resetAll (m : t) : t :=
  mkManager (serviceName m) (keys m) (cooldownMs m) 0%nat (resetState <$> keyStates m).

(** What [requestFn(key)] settles to: a value, or a rejection with an
    error carrying [status] and [statusCode]. *)
Inductive RequestOutcome (T : Type) : Type :=
| Resolved (v : T)
| RejectedWith (e : JsError) (statusCode : option Z).
Arguments Resolved {T} v.
Arguments RejectedWith {T} e statusCode.

(** [err.status || err.statusCode || 0] *)
Definition statusOf (e : JsError) (statusCode : option Z) : Z :=
  match err_status e with
  | Some s => if s =? 0 then default 0 statusCode else s
  | None => default 0 statusCode
  end.

(** The [for] loop of [executeWithKeyManager]; [remaining] is
    [maxRetries - attempt].  The result is what the function returns or
    throws, with the pool it leaves behind. *)
Fixpoint executeLoop {T : Type} (service : string)
         (requestFn : nat -> string -> RequestOutcome T)
         (nowGet nowMark : nat -> Z)
         (remaining attempt : nat) (lastError : option JsError) (m : t)
  : Completion T * t :=
  match remaining with
  | O =>
      (Throw (default (mkError (String.append "["
                                  (String.append service "] All keys exhausted")) None)
                      lastError), m)
  | S r =>
      match getNextKey (nowGet attempt) m with
      | Throw e => (Throw e, m)
      | Normal (None, m1) =>
          (Throw (mkError (String.append "["
                             (String.append service "] No available API key")) None), m1)
      | Normal (Some key, m1) =>
          if negb (JsString.nonEmpty key)
          then (Throw (mkError (String.append "["
                                  (String.append service "] No available API key")) None),
                m1)
          else
            match requestFn attempt key with
            | Resolved result => (Normal result, markSuccess key m1)
            | RejectedWith err statusCode =>
                if isKeyRelatedError (statusOf err statusCode) (OfError err)
                then executeLoop service requestFn nowGet nowMark r (S attempt) (Some err)
                                 (markFailure (nowMark attempt) key m1)
                else (Throw err, m1)
            end
      end
  end.

(** [executeWithKeyManager]; [m] is the manager the factory holds for
    [serviceName]. *)
Definition executeWithKeyManager {T : Type} (service : string)
           (requestFn : nat -> string -> RequestOutcome T)
           (nowGet nowMark : nat -> Z) (m : t) : Completion T * t :=
  match keys m with
  | [] =>
      (Throw (mkError (String.append "["
                         (String.append service "] No API keys configured")) None), m)
  | _ =>
      executeLoop service requestFn nowGet nowMark
                  (Nat.min (List.length (keys m)) 3) 0%nat None m
  end.

(** The pools a process can hold: built by the constructor and changed
    only through the methods. *)
Inductive reachable : t -> Prop :=
| reach_create service input cooldown : reachable (create service input cooldown)
| reach_next now m res m' :
    reachable m -> getNextKey now m = Normal (res, m') -> reachable m'
| reach_success key m : reachable m -> reachable (markSuccess key m)
| reach_failure now key m : reachable m -> reachable (markFailure now key m)
| reach_reset m : reachable m -> reachable (resetAll m).

(** A key in rotation has at most one counted failure, a key out of
    rotation has a recorded failure time, and counters are never negative. *)
Definition stateOk (st : KeyState) : Prop :=
  (isHealthy st = true -> failureCount st <= 1)
  /\ (isHealthy st = false -> is_Some (lastFailure st))
  /\ 0 <= failureCount st /\ 0 <= successCount st.

Definition poolOk (m : t) : Prop :=
  wf m
  /\ (forall k st, keyStates m !! k = Some st -> stateOk st)
  /\ (forall k, is_Some (keyStates m !! k) -> In k (keys m)).

(** The keys handed out by [count] successive calls of [getNextKey] at
    the times [now 0], [now 1], ... *)
Fixpoint successiveKeys (now : nat -> Z) (count call : nat) (m : t) : list (option string) :=
  match count with
  | O => []
  | S c =>
      match getNextKey (now call) m with
      | Normal (res, m') => res :: successiveKeys now c (S call) m'
      | Throw _ => []
      end
  end.

(** [keys.join(',')] *)
Fixpoint joinComma (ks : list string) : string :=
  match ks with
  | [] => ""
  | [k] => k
  | k :: rest => String.append k (String "," (joinComma rest))
  end.

Fixpoint commaFree (s : string) : bool :=
  match s with
  | EmptyString => true
  | String c s' => (negb (Ascii.eqb c ","%char) && commaFree s')%bool
  end.

End KeyManagerExt.

(** ** api/client.ts: processApiResults *)

Module ApiClientExt.

Import ApiClient BatchCheck.

(** [!!r.value.error] *)
Definition hasError (v : ApiResult) : bool :=
  match error_msg v with
  | Some msg => JsString.nonEmpty msg
  | None => false
  end.

(** [processApiResults]: the pair [{ successful, errors }]. *)
Definition processApiResults (results : list Settled) : list ApiResult * list ApiResult :=
  let successful :=
    List.flat_map (fun r => match r with
                            | Fulfilled v => if hasError v then [] else [v]
                            | Rejected _ => []
                            end) results in
  let errors :=
    List.flat_map (fun r => match r with
                            | Rejected reason => [errorResult "unknown" reason]
                            | Fulfilled v =>
                                if hasError v
                                then [mkApiResult (source v) None None (error_msg v) error]
                                else []
                            end) results in
  (successful, errors).

End ApiClientExt.

(** ** core/batchCheck.ts: the batch paths *)

Module BatchCheckExt.

Import ApiClient BatchCheck.

(** An element of the [items] argument of [batchCheckIPs]. *)
Record IpAsnItem : Type := mkItem {
  ia_ip : string;
  ia_asn : JsValue
}.

(** [exit.cfData.network?.asn] as a JS value. *)
Definition asnOf (cf : CfNativeData) : JsValue :=
  match cf_asn cf with
  | Some n => JNum n
  | None => JUndefined
  end.

(** The [uniqueIps] map of [batchCheckIPs]: first item per address, in
    insertion order. *)
Fixpoint uniqueItems (seen : gset string) (items : list IpAsnItem) : list IpAsnItem :=
  match items with
  | [] => []
  | item :: rest =>
      if bool_decide (ia_ip item ∈ seen) then uniqueItems seen rest
      else item :: uniqueItems ({[ia_ip item]} ∪ seen) rest
  end.

(** [Promise.all]: the values, or the first rejection in list order. *)
Fixpoint promiseAll {A : Type} (l : list (Completion A)) : Completion (list A) :=
  match l with
  | [] => Normal []
  | c :: rest =>
      run v <- c;
      run vs <- promiseAll rest;
      Normal (v :: vs)
  end.

(** [new Map(results.map(r => [r.ip, r]))] *)
Definition indexByIp (results : list IpApiCheckResult) : gmap string IpApiCheckResult :=
  fold_left (fun acc r => <[r_ip r := r]> acc) results ∅.

(** [batchCheckIPs]; [check ip asn] stands for
    [checkSingleIpWithCache(ip, asn, env, kv)].  An element of the result
    is [None] where [resultMap.get] gives [undefined]. *)
Definition batchCheckIPs (check : string -> JsValue -> Completion IpApiCheckResult)
           (items : list IpAsnItem) : Completion (list (option IpApiCheckResult)) :=
  run results <- promiseAll (List.map (fun item => check (ia_ip item) (ia_asn item))
                                      (uniqueItems ∅ items));
  let resultMap := indexByIp results in
  Normal (List.map (fun item => resultMap !! ia_ip item) items).

(** The [seenIps] loop of [processCheckExits]. *)
Fixpoint exitItems (seenIps : gset string) (exits : list ExitItem) : list IpAsnItem :=
  match exits with
  | [] => []
  | exit :: rest =>
      let ip := cf_ip (cfData exit) in
      if bool_decide (ip ∈ seenIps) then exitItems seenIps rest
      else mkItem ip (asnOf (cfData exit)) :: exitItems ({[ip]} ∪ seenIps) rest
  end.

(** [apiResults.forEach(r => apiResultMap.set(r.ip, r))]; reading [.ip] of
    an [undefined] element throws. *)
Fixpoint indexResults (apiResults : list (option IpApiCheckResult))
         (acc : gmap string IpApiCheckResult) : Completion (gmap string IpApiCheckResult) :=
  match apiResults with
  | [] => Normal acc
  | None :: _ => Throw (typeError "ip")
  | Some r :: rest => indexResults rest (<[r_ip r := r]> acc)
  end.

(** The source judgment written out inside [processCheckExits]. *)
Definition inlineSourceInfo (merged : gmap string JsValue) : Completion IpSourceInfo :=
  let v := jsOr (jsOr (jsOr (jsOr (prop merged "ip2location_country_code")
                                  (prop merged "countryCode"))
                            (prop merged "country_code"))
                      (prop merged "ipinfo_country"))
                (JStr "") in
  match v with
  | JStr s =>
      let geoCountry := JsString.toUpperCase s in
      let registryCountry := getRegisteredCountryFromMerged merged in
      let registryTruthy := match registryCountry with
                            | Some r => JsString.nonEmpty r
                            | None => false
                            end in
      Normal
        (if (JsString.nonEmpty geoCountry && registryTruthy)%bool then
           let r := default "" registryCountry in
           if String.eqb geoCountry r then
             mkSource (Some geoCountry) registryCountry (Some true)
               (String.append "注册国家与地理位置一致 (" (String.append geoCountry ")"))
           else
             mkSource (Some geoCountry) registryCountry (Some false)
               (String.append "注册国家 "
                  (String.append r (String.append "，地理位置 " geoCountry)))
         else if JsString.nonEmpty geoCountry then
           mkSource (Some geoCountry) None None
             (String.append "仅有地理位置 ("
                (String.append geoCountry ")，无法确定注册国家"))
         else if registryTruthy then
           mkSource None registryCountry None
             (String.append "仅有注册国家 ("
                (String.append (default "" registryCountry) ")，无地理位置数据"))
         else mkSource None None None "数据不足")
  | _ => Throw (mkError "toUpperCase is not a function" None)
  end.

(** Step 4 of [processCheckExits]: the [ipSourceInfoMap]. *)
Fixpoint sourceInfos (items : list IpAsnItem) (apiResultMap : gmap string IpApiCheckResult)
         (acc : gmap string IpSourceInfo) : Completion (gmap string IpSourceInfo) :=
  match items with
  | [] => Normal acc
  | item :: rest =>
      match apiResultMap !! ia_ip item with
      | None => sourceInfos rest apiResultMap acc
      | Some apiResult =>
          run info <- inlineSourceInfo (merged apiResult);
          sourceInfos rest apiResultMap (<[ia_ip item := info]> acc)
      end
  end.

(** Step 5 of [processCheckExits] for one exit. *)
Definition exitResult (apiResultMap : gmap string IpApiCheckResult)
           (ipSourceInfoMap : gmap string IpSourceInfo) (exit : ExitItem) : ExitResultItem :=
  let ip := cf_ip (cfData exit) in
  let ipSourceInfo := default (mkSource None None None "数据不足") (ipSourceInfoMap !! ip) in
  match apiResultMap !! ip with
  | None =>
      mergeExitData (exitType exit) (cfData exit)
        (mkCheck ip JUndefined [] [] ∅ false 0%nat 0%nat) ipSourceInfo
  | Some apiResult =>
      mergeExitData (exitType exit) (cfData exit) apiResult ipSourceInfo
  end.

(** [processCheckExits] *)
Definition processCheckExits (check : string -> JsValue -> Completion IpApiCheckResult)
           (exits : list ExitItem) : Completion (list ExitResultItem) :=
  match exits with
  | [] => Normal []
  | _ =>
      let ipAsnItems := exitItems ∅ exits in
      run apiResults <- batchCheckIPs check ipAsnItems;
      run apiResultMap <- indexResults apiResults ∅;
      run ipSourceInfoMap <- sourceInfos ipAsnItems apiResultMap ∅;
      Normal (List.map (exitResult apiResultMap ipSourceInfoMap) exits)
  end.

(** [processSingleExit] *)
Definition processSingleExit (check : string -> JsValue -> Completion IpApiCheckResult)
           (exit : ExitItem) : Completion ExitResultItem :=
  run apiResult <- check (cf_ip (cfData exit)) (asnOf (cfData exit));
  run ipSourceInfo <- buildIpSourceInfo (merged apiResult);
  Normal (mergeExitData (exitType exit) (cfData exit) apiResult ipSourceInfo).

(** The first item of the list with a given address. *)
Definition firstItem (ip : string) (items : list IpAsnItem) : option IpAsnItem :=
  List.find (fun it => String.eqb (ia_ip it) ip) items.

(** The item [processCheckExits] builds for an exit. *)
Definition itemOfExit (exit : ExitItem) : IpAsnItem :=
  mkItem (cf_ip (cfData exit)) (asnOf (cfData exit)).

(** The first exit of the list with a given address. *)
Definition firstExit (ip : string) (exits : list ExitItem) : option ExitItem :=
  List.find (fun e => String.eqb (cf_ip (cfData e)) ip) exits.

End BatchCheckExt.

(** ** utils/ipValidation.ts and utils/ip.ts *)

Module IpValidation.

(** [ip.split('.')] *)
Fixpoint splitDot (s : string) : list string :=
  match s with
  | EmptyString => [EmptyString]
  | String c s' =>
      if Ascii.eqb c "."%char then EmptyString :: splitDot s'
      else match splitDot s' with
           | [] => [String c EmptyString]
           | w :: ws => String c w :: ws
           end
  end.

Fixpoint allDigits (s : string) : bool :=
  match s with
  | EmptyString => true
  | String c s' => (Cache.isDigit c && allDigits s')%bool
  end.

(** [/^\d+$/.test(part)] *)
Definition digitsOnly (part : string) : bool :=
  (JsString.nonEmpty part && allDigits part)%bool.

(** The callback of [parts.every] in [isValidIPv4]. *)
Definition octetOk (part : string) : bool :=
  if (Nat.ltb 1 (String.length part) && JsString.startsWith part "0")%bool then false
  else if negb (digitsOnly part) then false
  else match Cache.parseInt10 part with
       | Some num => ((0 <=? num) && (num <=? 255))%bool
       | None => false
       end.

(** [isValidIPv4] *)
Definition isValidIPv4 (ip : string) : bool :=
  if negb (JsString.nonEmpty ip) then false
  else
    let parts := splitDot ip in
    if negb (Nat.eqb (List.length parts) 4) then false
    else forallb octetOk parts.

(** An anchored regular expression that is a sequence of character
    classes: [^c1c2...] tested against the start of the string. *)
Fixpoint matchPrefix (classes : list (ascii -> bool)) (s : string) : bool :=
  match classes with
  | [] => true
  | class :: rest =>
      match s with
      | EmptyString => false
      | String c s' => (class c && matchPrefix rest s')%bool
      end
  end.

Definition lit (c : ascii) : ascii -> bool := Ascii.eqb c.

Definition oneOf (cs : string) (c : ascii) : bool :=
  existsb (Ascii.eqb c) (list_ascii_of_string cs).

(** The [privateRanges] table of [isLocalOrInternalIP]; the alternation
    of the second expression is written as its three branches. *)
Definition privateRanges : list (list (list (ascii -> bool))) :=
  [ [ [lit "1"; lit "0"; lit "."] ];
    [ [lit "1"; lit "7"; lit "2"; lit "."; lit "1"; oneOf "6789"; lit "."];
      [lit "1"; lit "7"; lit "2"; lit "."; lit "2"; Cache.isDigit; lit "."];
      [lit "1"; lit "7"; lit "2"; lit "."; lit "3"; oneOf "01"; lit "."] ];
    [ [lit "1"; lit "9"; lit "2"; lit "."; lit "1"; lit "6"; lit "8"; lit "."] ];
    [ [lit "1"; lit "6"; lit "9"; lit "."; lit "2"; lit "5"; lit "4"; lit "."] ] ].

(** [range.test(ip)] *)
Definition regexTest (range : list (list (ascii -> bool))) (ip : string) : bool :=
  existsb (fun branch => matchPrefix branch ip) range.

(** [isLocalOrInternalIP] *)
Definition isLocalOrInternalIP (ip : string) : bool :=
  if (String.eqb ip "127.0.0.1" || String.eqb ip "::1" || String.eqb ip "localhost")%bool
  then true
  else existsb (fun range => regexTest range ip) privateRanges.

End IpValidation.

(** ** Further example inputs *)

Module ExamplesExt.

Import BatchCheck BatchCheckExt.

(** The check of one address with no cache binding, where one provider
    answers and one fails. *)
Definition checkOffline (ip : string) (asn : JsValue) : Completion IpApiCheckResult :=
  Normal (fst (checkSingleIpWithCache ip asn None None Examples.mixedProviders
                 Cache.noFaults 0)).

(** The same, failing for one address. *)
Definition checkFailing (ip : string) (asn : JsValue) : Completion IpApiCheckResult :=
  if String.eqb ip "1.1.1.1" then Throw (mkError "internal error" None)
  else checkOffline ip asn.

(** Three items over two addresses, with different ASN hints. *)
Definition dupItems : list IpAsnItem :=
  [ mkItem "8.8.8.8" (JNum 15169); mkItem "1.1.1.1" JUndefined;
    mkItem "8.8.8.8" JUndefined ].

(** Four candidates: two for each of two categories. *)
Definition tiedVotes : list IpType.TypeSourceDetail :=
  [ IpType.mkDetail "IPQS" "Data Center" "datacenter";
    IpType.mkDetail "AbuseIPDB" "Fixed Line ISP" "residential";
    IpType.mkDetail "IP2Location" "ISP" "residential";
    IpType.mkDetail "ipapi.is" "hosting" "datacenter" ].

End ExamplesExt.

(** ** Vocabulary for the further properties *)

Module SpecExt.

Import ApiClient BatchCheck.

(** The values of the fulfilled promises, in order. *)
Definition fulfilledValues (results : list Settled) : list ApiResult :=
  List.flat_map (fun r => match r with
                          | Fulfilled v => [v]
                          | Rejected _ => []
                          end) results.

Definition isSuccess (v : ApiResult) : bool :=
  match status v with
  | success => true
  | error => false
  end.

Definition isError (v : ApiResult) : bool := negb (isSuccess v).

(** The second wave of one aggregation runs. *)
Definition secondWave (detectedAsn : JsValue) (providers : Providers) : bool :=
  (truthy detectedAsn && Nat.ltb 0 (asnDependentApis providers))%bool.

(** The provider values one aggregation looks at: the first wave and, when
    it runs, the second wave for the detected ASN. *)
Definition consulted (detectedAsn : JsValue) (providers : Providers) : list ApiResult :=
  (fulfilledValues (phase1Results providers)
   ++ (if secondWave detectedAsn providers
       then fulfilledValues (asnResults providers (asnToString detectedAsn))
       else []))%list.

(** The number of candidates whose normalized type is [t]. *)
Definition typeCount (t : string) (ds : list IpType.TypeSourceDetail) : nat :=
  List.length (List.filter (fun d => String.eqb (IpType.normalizedType d) t) ds).

(** The categories that received a vote, in the order of their first
    vote. *)
Fixpoint votedTypes (ds : list IpType.TypeSourceDetail) : list string :=
  match ds with
  | [] => []
  | d :: rest =>
      if Spec.votes d
      then IpType.normalizedType d
           :: List.filter (fun t => negb (String.eqb t (IpType.normalizedType d)))
                          (votedTypes rest)
      else votedTypes rest
  end.

(** A category name that counts as a vote. *)
Definition votingKey (t : string) : Prop :=
  (JsString.nonEmpty t && negb (String.eqb t "unknown"))%bool = true.

(** [t] is not yet a key of the vote table. *)
Definition fresh (acc : list (string * nat)) (t : string) : bool :=
  negb (existsb (String.eqb t) (List.map fst acc)).

(** An exit the exits validation lets through. *)
Definition exitOk (isValidIp : string -> bool) (exit : BatchCheck.ExitItem) : bool :=
  (JsString.nonEmpty (BatchCheck.exitType exit)
   && JsString.nonEmpty (BatchCheck.cf_ip (BatchCheck.cfData exit))
   && isValidIp (BatchCheck.cf_ip (BatchCheck.cfData exit)))%bool.

(** A row the manual validation lets through. *)
Definition ipItemOk (isValidIp isLocalOrInternalIP : string -> bool)
           (item : Routes.BatchIpItem) : bool :=
  let ip := JsString.trim (Routes.b_ip item) in
  (JsString.nonEmpty ip && isValidIp ip && negb (isLocalOrInternalIP ip))%bool.

(** The event of a stream reports on address [ip] with progress
    [completed]/[total]. *)
Definition reportsOn (ip : string) (completed total : nat) (e : Routes.StreamEvent) : Prop :=
  match e with
  | Routes.ResultEvent ip' None _ c t => ip' = ip /\ c = completed /\ t = total
  | Routes.ItemFailedEvent ip' _ c t => ip' = ip /\ c = completed /\ t = total
  | _ => False
  end.

(** The dotted-decimal notation of four numbers. *)
Definition dotted (a b c d : Z) : string :=
  String.append (showZ a)
    (String.append "."
       (String.append (showZ b)
          (String.append "."
             (String.append (showZ c) (String.append "." (showZ d)))))).

(** [parts.join('.')] *)
Fixpoint joinDot (parts : list string) : string :=
  match parts with
  | [] => EmptyString
  | [p] => p
  | p :: rest => String.append p (String "."%char (joinDot rest))
  end.

(** The notations of the numbers 0 to 255. *)
Definition octets : list string :=
  List.map (fun n => showZ (Z.of_nat n)) (seq 0 256).

Fixpoint dotFree (s : string) : bool :=
  match s with
  | EmptyString => true
  | String c s' => (negb (Ascii.eqb c "."%char) && dotFree s')%bool
  end.

Definition digitChars : list ascii :=
  list_ascii_of_string "0123456789".

(** All strings of [n] decimal digits. *)
Fixpoint digitStrings (n : nat) : list string :=
  match n with
  | O => [EmptyString]
  | S n' => List.flat_map (fun c => List.map (String c) (digitStrings n')) digitChars
  end.

(** How a sequence of character classes compares with a string: matched
    within it, failed within it, or undecided at its end. *)
Fixpoint prefixVerdict (classes : list (ascii -> bool)) (x : string) : option bool :=
  match classes with
  | [] => Some true
  | class :: rest =>
      match x with
      | EmptyString => None
      | String c x' => if class c then prefixVerdict rest x' else Some false
      end
  end.

(** The private ranges in numbers. *)
Definition privateOctets (a b : Z) : bool :=
  ((a =? 10) || ((a =? 172) && (16 <=? b) && (b <=? 31))
   || ((a =? 192) && (b =? 168)) || ((a =? 169) && (b =? 254)))%bool.

(** The start of a dotted-decimal address: [a.b.] *)
Definition twoOctets (a b : Z) : string :=
  String.append (showZ a) (String "."%char (String.append (showZ b) "."%string)).

(** Every private range is decided on the start [a.b.], and one of them
    matches exactly when the two numbers lie in a private range. *)
Definition checkPrefix (a b : Z) : bool :=
  (forallb (forallb (fun branch =>
                       bool_decide (is_Some (prefixVerdict branch (twoOctets a b)))))
           IpValidation.privateRanges
   && Bool.eqb (existsb (existsb (fun branch =>
                                    bool_decide (prefixVerdict branch (twoOctets a b)
                                                 = Some true)))
                        IpValidation.privateRanges)
               (privateOctets a b))%bool.

(** Result [r] assigns key [k]. *)
Definition assigns (k : string) (r : ApiResult) : Prop :=
  exists d, data r = Some d /\ is_Some (d !! k).

End SpecExt.

(** * Properties *)

(** ** Strings *)

Section StringFacts.

Import JsString.

Lemma startsWith_spec (s p : string) :
  startsWith s p = true <-> exists suf, s = String.append p suf.
Proof.
  revert s; induction p as [|c p IH]; intros s; simpl.
  - split; [intros _; now exists s | reflexivity].
  - destruct s as [|d s].
    + split; [discriminate | intros [suf H]; discriminate].
    + destruct (Ascii.eqb_spec d c) as [->|Hne].
      * rewrite IH. split; intros [suf H]; exists suf; [now rewrite H | now inversion H].
      * split; [discriminate | intros [suf H]; inversion H; contradiction].
Qed.

Lemma includes_spec (s p : string) :
  includes s p = true <-> Contains s p.
Proof.
  unfold Contains; induction s as [|d s IH]; simpl.
  - destruct (startsWith "" p) eqn:E.
    + apply startsWith_spec in E as [suf E]. split; [intros _ | reflexivity].
      now exists "", suf.
    + split; [discriminate | intros (pre & suf & H)].
      destruct pre; simpl in H.
      * assert (startsWith "" p = true) by (apply startsWith_spec; eauto). congruence.
      * discriminate.
  - destruct (startsWith (String d s) p) eqn:E.
    + apply startsWith_spec in E as [suf E]. split; [intros _ | reflexivity].
      now exists "", suf.
    + rewrite IH. split; intros (pre & suf & H).
      * exists (String d pre), suf. simpl. now rewrite H.
      * destruct pre as [|e pre]; simpl in H.
        -- assert (startsWith (String d s) p = true) by (apply startsWith_spec; eauto).
           congruence.
        -- inversion H; subst. now exists pre, suf.
Qed.

End StringFacts.

(** ** Credential pool: failure classification *)

Section KeyManagerClassification.

Import KeyManager.

Lemma existsb_includes (text : string) (l : list string) :
  existsb (fun msg => JsString.includes text msg) l = true
  <-> exists msg, In msg l /\ JsString.Contains text msg.
Proof.
  rewrite existsb_exists. split; intros (msg & Hin & H); exists msg; split; auto;
    now apply includes_spec.
Qed.

(** C6 (as amended): [isKeyRelatedError] answers true exactly when the
    status is 401, 403 or 429, or the lower-cased message / serialized
    body contains one of the twelve substrings of the source table, whose
    second entry is [quota exceeded] (not the bare word [quota]). *)
Theorem isKeyRelatedError_iff (status : Z) (response : ResponseArg) :
  isKeyRelatedError status response = true
  <-> (status = 401 \/ status = 403 \/ status = 429)
      \/ exists msg,
           In msg [ "rate limit"; "quota exceeded"; "limit exceeded"; "request quota";
                    "invalid key"; "invalid api key"; "unauthorized";
                    "too many requests"; "daily limit"; "monthly limit";
                    "exceeded"; "throttl" ]
           /\ JsString.Contains (responseStr response) msg.
Proof.
  unfold isKeyRelatedError.
  destruct (existsb (Z.eqb status) keyStatuses) eqn:E.
  - split; [intros _ | reflexivity]. left.
    apply existsb_exists in E as (x & Hin & Hx). apply Z.eqb_eq in Hx. subst x.
    simpl in Hin. intuition.
  - rewrite existsb_includes. split; [intros H; now right | intros [H | H]; [|exact H]].
    exfalso. assert (existsb (Z.eqb status) keyStatuses = true); [|congruence].
    apply existsb_exists. exists status. split; [|apply Z.eqb_refl].
    simpl. intuition.
Qed.

(** C6 (as stated) fails: a message that only says [quota] contains one
    of the substrings the claim lists, and is not classified as
    key-related. *)
Lemma isKeyRelatedError_bare_quota :
  ~ (forall (status : Z) (response : ResponseArg),
       isKeyRelatedError status response = true
       <-> (status = 401 \/ status = 403 \/ status = 429)
           \/ exists msg,
                In msg [ "rate limit"; "quota"; "limit exceeded"; "request quota";
                         "invalid key"; "invalid api key"; "unauthorized";
                         "too many requests"; "daily limit"; "monthly limit";
                         "exceeded"; "throttl" ]
                /\ JsString.Contains (responseStr response) msg).
Proof.
  intros H.
  specialize (H 0 (OfError (mkError "Quota reached for today" None))).
  assert (E : isKeyRelatedError 0 (OfError (mkError "Quota reached for today" None)) = false)
    by reflexivity.
  rewrite E in H. destruct H as [_ H].
  discriminate H. right. exists "quota". split; [simpl; auto |].
  apply includes_spec. reflexivity.
Qed.

End KeyManagerClassification.

(** ** Credential pool: round-robin probing *)

Section KeyManagerProbe.

Import KeyManager Spec.

Lemma wfb_wf (m : t) : wfb m = true -> wf m.
Proof.
  unfold wfb, wf. intros H. apply andb_prop in H as [H1 H2]. split.
  - intros Hne. destruct (keys m); [contradiction|]. now apply Nat.ltb_lt in H1.
  - intros k Hk. rewrite forallb_forall in H2. specialize (H2 k Hk).
    now apply bool_decide_eq_true in H2.
Qed.

Lemma wf_setIndex (m : t) (i : nat) :
  wf m -> (i < List.length (keys m))%nat -> wf (setIndex m i).
Proof. intros [_ H] Hi. split; simpl; auto. Qed.

Lemma wf_insert (m : t) (k : string) (st : KeyState) :
  wf m -> wf (setStates m (<[k := st]> (keyStates m))).
Proof.
  intros [H1 H2]. split; simpl; auto. intros k' Hk'.
  destruct (decide (k = k')) as [->|Hne].
  - rewrite lookup_insert_eq. eauto.
  - rewrite lookup_insert_ne by done. auto.
Qed.

Lemma wf_cleanup (now : Z) (m : t) : wf m -> wf (_cleanupExpiredCooldowns now m).
Proof.
  intros [H1 H2]. split; simpl; auto. intros k Hk.
  rewrite lookup_fmap. destruct (H2 k Hk) as [st ->]. simpl. eauto.
Qed.

Lemma wf_markSuccess (key : string) (m : t) : wf m -> wf (markSuccess key m).
Proof.
  intros H. unfold markSuccess. destruct (keyStates m !! key); [|exact H].
  now apply wf_insert.
Qed.

Lemma wf_markFailure (now : Z) (key : string) (m : t) : wf m -> wf (markFailure now key m).
Proof.
  intros H. unfold markFailure. destruct (keyStates m !! key); [|exact H].
  now apply wf_insert.
Qed.

Lemma initStates_lookup (ks : list string) (i : nat) (st : gmap string KeyState) (k : string) :
  In k ks \/ is_Some (st !! k) -> is_Some (initStates ks i st !! k).
Proof.
  revert i st; induction ks as [|k0 ks IH]; intros i st H; simpl.
  - destruct H as [[]|H]; exact H.
  - apply IH. destruct H as [[->|H]|H]; auto.
    + right. rewrite lookup_insert_eq. eauto.
    + right. destruct (decide (k0 = k)) as [->|Hne].
      * rewrite lookup_insert_eq. eauto.
      * now rewrite lookup_insert_ne.
Qed.

(** The constructor establishes the invariant. *)
Lemma wf_create (service : string) (input : KeysInput) (cooldown : option Z) :
  wf (create service input cooldown).
Proof.
  split; simpl.
  - intros Hne. destruct (_parseKeys input); [contradiction | simpl; lia].
  - intros k Hk. apply initStates_lookup. now left.
Qed.

Lemma probe_spec (now : Z) (r : nat) :
  forall m : t,
    wf m -> keys m <> [] ->
    exists res m',
      probe now r m = Normal (res, m')
      /\ keys m' = keys m /\ cooldownMs m' = cooldownMs m /\ wf m'
      /\ (forall i, (i < match res with
                         | Some _ => 0
                         | None => r
                         end)%nat ->
                    unavailable now m ((currentIndex m + i) mod List.length (keys m))%nat)
      /\ match res with
         | Some k =>
             exists j, (j < r)%nat
               /\ keys m !! ((currentIndex m + j) mod List.length (keys m))%nat = Some k
               /\ currentIndex m' = ((currentIndex m + j + 1) mod List.length (keys m))%nat
               /\ (forall i, (i < j)%nat ->
                     unavailable now m ((currentIndex m + i) mod List.length (keys m))%nat)
               /\ healthyIn m' k
         | None =>
             currentIndex m' = ((currentIndex m + r) mod List.length (keys m))%nat
             /\ keyStates m' = keyStates m
         end.
Proof.
  induction r as [|r IH]; intros m Hwf Hne.
  - exists None, m. simpl. split; [reflexivity|]. split; [reflexivity|].
    split; [reflexivity|]. split; [exact Hwf|]. split; [intros; lia|].
    split; [|reflexivity].
    rewrite Nat.add_0_r. symmetry. apply Nat.mod_small. now apply Hwf.
  - assert (Hn : (0 < List.length (keys m))%nat)
      by (destruct (keys m); [contradiction | simpl; lia]).
    assert (Hc : (currentIndex m < List.length (keys m))%nat) by now apply Hwf.
    simpl. destruct (keys m !! currentIndex m) as [key|] eqn:Ekey.
    2: { apply lookup_ge_None in Ekey. lia. }
    destruct (proj2 Hwf key) as [state Estate].
    { apply list_elem_of_In. eapply list_elem_of_lookup_2; eauto. }
    rewrite Estate.
    set (m1 := setIndex m ((currentIndex m + 1) mod List.length (keys m))%nat).
    assert (Hwf1 : wf m1).
    { apply wf_setIndex; auto. apply Nat.mod_upper_bound. lia. }
    assert (Hc0 : ((currentIndex m + 0) mod List.length (keys m))%nat = currentIndex m).
    { rewrite Nat.add_0_r. now apply Nat.mod_small. }
    destruct (isHealthy state) eqn:Eh.
    + exists (Some key), m1. split; [reflexivity|]. split; [reflexivity|].
      split; [reflexivity|]. split; [exact Hwf1|]. split; [intros; lia|].
      exists 0%nat. rewrite Hc0. split; [lia|]. split; [exact Ekey|].
      split; [simpl; now rewrite Nat.add_0_r|]. split; [intros; lia|].
      exists state. auto.
    + destruct (cooledDown now (cooldownMs m) state) eqn:Ecd.
      * exists (Some key), (setStates m1 (<[key := restore state]> (keyStates m1))).
        split; [reflexivity|]. split; [reflexivity|]. split; [reflexivity|].
        split; [apply (wf_insert m1 key (restore state) Hwf1)|].
        split; [intros; lia|].
        exists 0%nat. rewrite Hc0. split; [lia|]. split; [exact Ekey|].
        split; [simpl; now rewrite Nat.add_0_r|]. split; [intros; lia|].
        exists (restore state). simpl. rewrite lookup_insert_eq. auto.
      * destruct (IH m1 Hwf1 Hne) as (res & m' & Hp & Hk & Hcd & Hwf' & Hun & Hres).
        assert (Hshift : forall i,
                   ((currentIndex m1 + i) mod List.length (keys m1))%nat
                   = ((currentIndex m + S i) mod List.length (keys m))%nat).
        { intros i. simpl. rewrite Nat.Div0.add_mod_idemp_l. f_equal. lia. }
        assert (Hhere : unavailable now m (currentIndex m)).
        { exists key, state. auto. }
        assert (Hlift : forall i, unavailable now m1 i -> unavailable now m i).
        { intros i (k & st & ? & ? & ? & ?). exists k, st. auto. }
        exists res, m'. split; [exact Hp|]. split; [exact Hk|].
        split; [exact Hcd|]. split; [exact Hwf'|]. split.
        -- intros i Hi. destruct res; [lia|].
           destruct i as [|i]; [now rewrite Hc0|].
           rewrite <- Hshift. apply Hlift, Hun. lia.
        -- destruct res as [k|].
           ++ destruct Hres as (j & Hj & Hkj & Hidx & Hbefore & Hh).
              exists (S j). rewrite Hshift in Hkj. split; [lia|].
              split; [exact Hkj|]. split; [|split; [|exact Hh]].
              ** rewrite Hidx. rewrite <- Nat.add_assoc, Hshift. f_equal. lia.
              ** intros i Hi. destruct i as [|i]; [now rewrite Hc0|].
                 rewrite <- Hshift. apply Hlift, Hbefore. lia.
           ++ destruct Hres as [Hidx Hst]. split; [|exact Hst].
              rewrite Hidx. apply Hshift.
Qed.

End KeyManagerProbe.

Section KeyManagerGetNext.

Import KeyManager Spec.


Lemma probe_returns (now : Z) (r : nat) :
  forall m k m',
    probe now r m = Normal (Some k, m') ->
    exists st, keyStates m !! k = Some st
               /\ (isHealthy st = true \/ cooledDown now (cooldownMs m) st = true).
Proof.
  induction r as [|r IH]; intros m k m' H; simpl in H; [discriminate|].
  destruct (keys m !! currentIndex m) as [key|]; [|discriminate].
  destruct (keyStates m !! key) as [state|] eqn:Es; [|discriminate].
  destruct (isHealthy state) eqn:Eh.
  - injection H as <- <-. eauto.
  - destruct (cooledDown now (cooldownMs m) state) eqn:Ec.
    + injection H as <- <-. eauto.
    + apply IH in H. exact H.
Qed.






Lemma probe_key_in (now : Z) (r : nat) :
  forall m k m', probe now r m = Normal (Some k, m') -> In k (keys m).
Proof.
  induction r as [|r IH]; intros m k m' H; simpl in H; [discriminate|].
  destruct (keys m !! currentIndex m) as [key|] eqn:Ek; [|discriminate].
  assert (Hin : In key (keys m)).
  { apply list_elem_of_In. eapply list_elem_of_lookup_2; eauto. }
  destruct (keyStates m !! key) as [state|]; [|discriminate].
  destruct (isHealthy state).
  - now injection H as <- <-.
  - destruct (cooledDown now (cooldownMs m) state).
    + now injection H as <- <-.
    + apply IH in H. exact H.
Qed.

Lemma getNextKey_key_in (now : Z) (m m' : t) (k : string) :
  getNextKey now m = Normal (Some k, m') -> In k (keys m).
Proof.
  unfold getNextKey. destruct (keys m) as [|k0 [|k1 ks]] eqn:E.
  - discriminate.
  - intros H. injection H as <- <-. now left.
  - intros H. apply probe_key_in in H. simpl in H. now rewrite E in H.
Qed.

End KeyManagerGetNext.

(** ** IP type voting *)

Section Voting.

Import IpType Spec.

Lemma bump_not_nil t vs : bump t vs <> [].
Proof. destruct vs as [|[k v] vs]; simpl; [discriminate|]. now destruct (String.eqb k t). Qed.

Lemma bump_good P t vs :
  t <> "unknown" -> P t -> Forall (goodEntry P) vs -> Forall (goodEntry P) (bump t vs).
Proof.
  intros Ht HP. induction 1 as [|[k v] vs Hk Hvs IH]; simpl.
  - constructor; [|constructor]. unfold goodEntry; simpl. auto.
  - destruct (String.eqb k t).
    + constructor; [|exact Hvs]. destruct Hk as (? & ? & ?). unfold goodEntry; simpl.
      auto with arith.
    + constructor; auto.
Qed.

Lemma tally_good P ds :
  Forall (fun d => P (normalizedType d)) ds ->
  forall vs, Forall (goodEntry P) vs -> Forall (goodEntry P) (fold_left countVote ds vs).
Proof.
  induction 1 as [|d ds Hd Hds IH]; intros vs Hvs; simpl; [exact Hvs|].
  apply IH. unfold countVote.
  destruct (JsString.nonEmpty (normalizedType d)); simpl; [|exact Hvs].
  destruct (String.eqb_spec (normalizedType d) "unknown"); simpl; [exact Hvs|].
  now apply bump_good.
Qed.

Lemma tally_silent ds :
  Forall (fun d => votes d = false) ds -> forall vs, fold_left countVote ds vs = vs.
Proof.
  induction 1 as [|d ds Hd Hds IH]; intros vs; simpl; [reflexivity|].
  unfold countVote. unfold votes in Hd. rewrite Hd. apply IH.
Qed.

Lemma tally_grows ds :
  forall vs, vs <> [] -> fold_left countVote ds vs <> [].
Proof.
  induction ds as [|d ds IH]; intros vs Hvs; simpl; [exact Hvs|].
  apply IH. unfold countVote. destruct (_ && _)%bool; [apply bump_not_nil | exact Hvs].
Qed.

Lemma tally_voted ds :
  Exists (fun d => votes d = true) ds -> forall vs, fold_left countVote ds vs <> [].
Proof.
  induction 1 as [d ds Hd|d ds Hds IH]; intros vs; simpl.
  - apply tally_grows. unfold countVote. unfold votes in Hd. rewrite Hd. apply bump_not_nil.
  - apply IH.
Qed.

Lemma pick_good P vs :
  Forall (goodEntry P) vs ->
  forall acc,
    ((1 <= snd acc)%nat -> fst acc <> "unknown" /\ P (fst acc)) ->
    let r := fold_left pickStep vs acc in
    ((1 <= snd r)%nat -> fst r <> "unknown" /\ P (fst r))
    /\ ((1 <= snd acc)%nat \/ vs <> [] -> (1 <= snd r)%nat).
Proof.
  induction 1 as [|e vs He Hvs IH]; intros acc Hacc; simpl.
  - split; [exact Hacc|]. intros [H|H]; [exact H | contradiction].
  - destruct He as (Hk & HP & Hv).
    assert (Hstep : ((1 <= snd (pickStep acc e))%nat ->
                     fst (pickStep acc e) <> "unknown" /\ P (fst (pickStep acc e)))
                    /\ (1 <= snd (pickStep acc e))%nat).
    { unfold pickStep. destruct (Nat.ltb_spec (snd acc) (snd e)); simpl.
      - split; auto.
      - split; [exact Hacc | lia]. }
    destruct Hstep as [Hs1 Hs2]. destruct (IH _ Hs1) as [IH1 IH2].
    split; [exact IH1 | intros _; apply IH2; now left].
Qed.

Lemma silent_or_voted ds :
  Forall (fun d => votes d = false) ds \/ Exists (fun d => votes d = true) ds.
Proof.
  induction ds as [|d ds [IH|IH]].
  - left. constructor.
  - destruct (votes d) eqn:E.
    + right. now constructor.
    + left. now constructor.
  - right. now constructor 2.
Qed.

(** The winner of the vote is [unknown] exactly when nobody voted, and is
    otherwise one of the normalized types that were cast. *)
Lemma voteIpType_spec (P : string -> Prop) (ds : list TypeSourceDetail) :
  Forall (fun d => P (normalizedType d)) ds ->
  (voteIpType ds = "unknown" <-> Forall (fun d => votes d = false) ds)
  /\ (voteIpType ds <> "unknown" -> P (voteIpType ds)).
Proof.
  intros HP.
  assert (Hraw : forall x : string,
             (if (String.eqb x "unknown" && Nat.eqb (List.length ds) 0)%bool
              then "unknown" else x) = x).
  { intros x. destruct (String.eqb_spec x "unknown"); simpl; [|reflexivity].
    now destruct (Nat.eqb _ _). }
  unfold voteIpType. rewrite Hraw.
  pose proof (tally_good P ds HP [] (List.Forall_nil _)) as Hgood.
  destruct (pick_good P _ Hgood ("unknown", 0%nat)) as [Hp1 Hp2]; [simpl; lia|].
  simpl in Hp1, Hp2. split; [split|].
  - intros Hu. destruct (silent_or_voted ds) as [Hs|Hex']; [exact Hs|].
    pose proof (tally_voted ds Hex' []) as Hne.
    destruct Hp1 as [Hp1 _]; [apply Hp2; now right|]. contradiction.
  - intros Hs. now rewrite (tally_silent ds Hs).
  - intros Hne. apply Hp1.
    destruct (fold_left countVote ds []) eqn:E; [simpl in Hne; contradiction|].
    apply Hp2. right. discriminate.
Qed.

End Voting.

Section IpTypeDerivation.

Import IpType Spec BatchCheck.

Lemma normalizeIpType_category (v : JsValue) : isCategory (normalizeIpType v).
Proof.
  unfold isCategory, normalizeIpType.
  destruct v as [| | | |s|]; try (simpl; tauto).
  destruct (JsString.nonEmpty s); [|simpl; tauto].
  generalize (JsString.trim (JsString.toUpperCase s)) as u. intros u.
  cbn [normalizeLoop IP_TYPE_PATTERNS].
  repeat match goal with
         | |- context [if matchesTypePattern ?a ?b then _ else _] =>
             destruct (matchesTypePattern a b)
         end; vm_compute; tauto.
Qed.

Lemma extract_categories (merged : gmap string JsValue) :
  Forall (fun d => isCategory (normalizedType d)) (extractTypeSourceDetails merged).
Proof.
  unfold extractTypeSourceDetails, stringSource, hostingSource.
  repeat apply Forall_app_2;
    repeat match goal with
           | |- Forall _ (match ?v with _ => _ end) => destruct v
           | |- Forall _ (if ?b then _ else _) => destruct b
           | |- Forall _ [] => constructor
           | |- Forall _ (_ :: _) => constructor
           end;
    try apply normalizeIpType_category.
  vm_compute. tauto.
Qed.

Lemma category_votes (d : TypeSourceDetail) :
  isCategory (normalizedType d) ->
  (votes d = false <-> normalizedType d = "unknown").
Proof.
  unfold isCategory, votes. intros H. simpl in H.
  repeat (destruct H as [<-|H]; [simpl; split; [discriminate | discriminate]|]).
  destruct H as [<-|[]]. simpl. tauto.
Qed.

Lemma display_unknown_iff (t : string) :
  isCategory t -> (getDisplayType t = DISPLAY_unknown <-> t = "unknown").
Proof.
  unfold isCategory. intros H. simpl in H.
  repeat (destruct H as [<-|H]; [split; [vm_compute; discriminate | discriminate]|]).
  destruct H as [<-|[]]. split; reflexivity.
Qed.

(** C3 (as amended): [ipType.sources] lists every extracted candidate,
    also those that normalize to [unknown]; [ipType.raw] is [unknown]
    exactly when every listed candidate normalizes to [unknown] (in
    particular when there is none), and [ipType.value] is then, and only
    then, the display label of [unknown]. *)
Theorem ipType_unknown_iff (ip : string) (apiResult : IpApiCheckResult)
        (ipSourceInfo : IpSourceInfo) :
  let t := d_ipType (buildIpCheckResult ip apiResult ipSourceInfo) in
  sources t = extractTypeSourceDetails (merged apiResult)
  /\ (raw t = "unknown"
      <-> Forall (fun d => normalizedType d = "unknown") (sources t))
  /\ (value t = DISPLAY_unknown <-> raw t = "unknown").
Proof.
  simpl. split; [reflexivity|].
  pose proof (extract_categories (merged apiResult)) as Hcat.
  destruct (voteIpType_spec isCategory _ Hcat) as [Hiff Hin].
  split.
  - rewrite Hiff. clear Hiff Hin.
    induction Hcat as [|d ds Hd Hds IH]; [split; constructor|].
    split; intros H; inversion H; subst; constructor;
      try (now apply IH); now apply (category_votes d Hd).
  - apply display_unknown_iff.
    destruct (String.eqb_spec (voteIpType (extractTypeSourceDetails (merged apiResult)))
                              "unknown") as [->|Hne].
    + unfold isCategory. simpl. tauto.
    + now apply Hin.
Qed.

(** C3 (as stated) fails: with a single candidate that normalizes to
    [unknown], [ipType.value] is the display label, not the word
    [unknown], and [ipType.sources] is not empty. *)
Lemma ipType_unknown_not_empty :
  ~ (forall (ip : string) (apiResult : IpApiCheckResult) (ipSourceInfo : IpSourceInfo),
       normalizeIpType (prop (merged apiResult) "connection_type") = "unknown" ->
       normalizeIpType (prop (merged apiResult) "usageType") = "unknown" ->
       normalizeIpType (prop (merged apiResult) "ip2location_usage") = "unknown" ->
       prop (merged apiResult) "ipinfo_hosting" <> JBool true ->
       let t := d_ipType (buildIpCheckResult ip apiResult ipSourceInfo) in
       value t = "unknown" /\ sources t = []).
Proof.
  intros H.
  specialize (H "203.0.113.5"
                (mkCheck "203.0.113.5" JUndefined [] []
                         {[ "connection_type" := JStr "Foo" ]} false 0%nat 0%nat)
                insufficient).
  destruct H as [_ H]; try reflexivity; [vm_compute; discriminate|].
  vm_compute in H. discriminate H.
Qed.

Lemma prop_delete_eq (merged : gmap string JsValue) (k : string) :
  prop (delete k merged) k = JUndefined.
Proof. unfold prop. now rewrite lookup_delete_eq. Qed.

Lemma prop_delete_ne (merged : gmap string JsValue) (k k' : string) :
  k <> k' -> prop (delete k merged) k' = prop merged k'.
Proof. intros H. unfold prop. now rewrite lookup_delete_ne. Qed.

(** C10: when [connection_type] contains [Premium], the list of type
    candidates has no IPQS entry and is made of the AbuseIPDB entry when
    [usageType] is a non-empty string, the IP2Location entry when
    [ip2location_usage] is one, and the ipinfo-hosting entry when
    [ipinfo_hosting] is [true], in this order; the list and the voted type
    are those of the same record without its [connection_type], so the
    value casts no vote. *)
Theorem premium_connection_type_excluded (ip : string) (apiResult : IpApiCheckResult)
        (ipSourceInfo : IpSourceInfo) (s : string) :
  merged apiResult !! "connection_type" = Some (JStr s) ->
  JsString.Contains s "Premium" ->
  let m := merged apiResult in
  let t := d_ipType (buildIpCheckResult ip apiResult ipSourceInfo) in
  let bare :=
    mkCheck (r_ip apiResult) (r_asn apiResult) (successful apiResult) (errors apiResult)
            (delete "connection_type" m) (partiallyFromCache apiResult)
            (cachedApiCount apiResult) (totalApiCount apiResult) in
  sources t
  = (match m !! "usageType" with
     | Some (JStr u) =>
         if JsString.nonEmpty u
         then [mkDetail "AbuseIPDB" u (normalizeIpType (JStr u))] else []
     | _ => []
     end
     ++ match m !! "ip2location_usage" with
        | Some (JStr u) =>
            if JsString.nonEmpty u
            then [mkDetail "IP2Location" u (normalizeIpType (JStr u))] else []
        | _ => []
        end
     ++ match m !! "ipinfo_hosting" with
        | Some (JBool true) =>
            [mkDetail "IPInfo Hosting" "Hosting/Data Center" "datacenter"]
        | _ => []
        end)%list
  /\ Forall (fun d => source d <> "IPQS") (sources t)
  /\ sources t = sources (d_ipType (buildIpCheckResult ip bare ipSourceInfo))
  /\ raw t = raw (d_ipType (buildIpCheckResult ip bare ipSourceInfo)).
Proof.
  intros Hct Hprem. apply includes_spec in Hprem. cbv zeta.
  set (m := merged apiResult).
  assert (Hstr : forall src k,
             stringSource src (prop m k) (fun _ => true)
             = match m !! k with
               | Some (JStr u) =>
                   if JsString.nonEmpty u
                   then [mkDetail src u (normalizeIpType (JStr u))] else []
               | _ => []
               end).
  { intros src k. unfold stringSource, prop.
    destruct (m !! k) as [[| | | |u|]|]; try reflexivity.
    cbv [from_option id]. now rewrite andb_true_r. }
  assert (Hhost : hostingSource (prop m "ipinfo_hosting")
                  = match m !! "ipinfo_hosting" with
                    | Some (JBool true) =>
                        [mkDetail "IPInfo Hosting" "Hosting/Data Center" "datacenter"]
                    | _ => []
                    end).
  { unfold hostingSource, prop. now destruct (m !! "ipinfo_hosting") as [[| |[|]| | |]|]. }
  assert (Hex : extractTypeSourceDetails m
                = (stringSource "AbuseIPDB" (prop m "usageType") (fun _ => true)
                   ++ stringSource "IP2Location" (prop m "ip2location_usage") (fun _ => true)
                   ++ hostingSource (prop m "ipinfo_hosting"))%list).
  { unfold extractTypeSourceDetails. unfold prop at 1. fold m in Hct. rewrite Hct. simpl.
    rewrite Hprem. simpl. now rewrite andb_false_r. }
  assert (Hbare : extractTypeSourceDetails (delete "connection_type" m)
                  = extractTypeSourceDetails m).
  { rewrite Hex. unfold extractTypeSourceDetails. rewrite prop_delete_eq.
    rewrite !prop_delete_ne by discriminate. reflexivity. }
  assert (Hsrc : sources (d_ipType (buildIpCheckResult ip apiResult ipSourceInfo))
                 = extractTypeSourceDetails m) by reflexivity.
  rewrite Hsrc. split; [|split; [|split]].
  - now rewrite Hex, !Hstr, Hhost.
  - rewrite Hex, !Hstr, Hhost.
    repeat apply Forall_app_2;
      repeat match goal with
             | |- Forall _ (match ?v with _ => _ end) => destruct v
             | |- Forall _ (if ?b then _ else _) => destruct b
             | |- Forall _ [] => constructor
             | |- Forall _ (_ :: _) => constructor
             end; simpl; discriminate.
  - cbn [buildIpCheckResult merged]. simpl. now rewrite Hbare.
  - simpl. now rewrite Hbare.
Qed.

End IpTypeDerivation.

Section IpTypeWitness.

Import IpType BatchCheck.

Lemma premium_connection_type_excluded_witness :
  merged Examples.premiumRecord !! "connection_type" = Some (JStr "Premium required")
  /\ JsString.Contains "Premium required" "Premium"
  /\ sources (d_ipType (buildIpCheckResult "8.8.8.8" Examples.premiumRecord insufficient))
     = [ mkDetail "AbuseIPDB" "Data Center/Web Hosting/Transit" "datacenter";
         mkDetail "IP2Location" "ISP" "residential";
         mkDetail "IPInfo Hosting" "Hosting/Data Center" "datacenter" ].
Proof.
  assert (Hc : JsString.Contains "Premium required" "Premium")
    by (exists "", " required"; reflexivity).
  split; [reflexivity|]. split; [exact Hc|].
  destruct (premium_connection_type_excluded "8.8.8.8" Examples.premiumRecord
              insufficient "Premium required" eq_refl Hc) as (H1 & _).
  rewrite H1. vm_compute. reflexivity.
Defined.

End IpTypeWitness.

(** ** Native / broadcast judgment *)

Section IpSource.

Import BatchCheck ApiClient.

Lemma append_cons (x : ascii) (a b : string) :
  String.append (String x a) b = String x (String.append a b).
Proof. reflexivity. Qed.

Lemma append_assoc (a b c : string) :
  String.append (String.append a b) c = String.append a (String.append b c).
Proof.
  induction a as [|x a IH]; [reflexivity|]. now rewrite !append_cons, IH.
Qed.

Lemma append_empty_r (a : string) : String.append a "" = a.
Proof. induction a as [|x a IH]; [reflexivity|]. now rewrite append_cons, IH. Qed.

(** C7: whenever [buildIpSourceInfo] gives a judgment, [isNative = true]
    comes with two present, equal countries, [isNative = false] with two
    present, different countries that both occur in the reason, and
    [isNative = null] with at least one country missing. *)
Theorem ipSource_trichotomy (merged : gmap string JsValue) (info : IpSourceInfo) :
  buildIpSourceInfo merged = Normal info ->
  (isNative info = Some true ->
     exists c, geoCountry info = Some c /\ registryCountry info = Some c
               /\ JsString.nonEmpty c = true)
  /\ (isNative info = Some false ->
        exists g r, geoCountry info = Some g /\ registryCountry info = Some r
                    /\ JsString.nonEmpty g = true /\ JsString.nonEmpty r = true
                    /\ g <> r
                    /\ JsString.Contains (reason info) r
                    /\ JsString.Contains (reason info) g)
  /\ (isNative info = None -> geoCountry info = None \/ registryCountry info = None).
Proof.
  unfold buildIpSourceInfo.
  destruct (jsOr _ (JStr "")) as [| | | |s|]; try discriminate.
  intros H. injection H as <-.
  destruct (getRegisteredCountryFromMerged merged) as [r|]; simpl.
  - destruct (JsString.nonEmpty (JsString.toUpperCase s)) eqn:Eg;
      destruct (JsString.nonEmpty r) eqn:Er; simpl.
    + destruct (String.eqb_spec (JsString.toUpperCase s) r) as [<-|Hne]; simpl.
      * split; [intros _; eauto | split; [discriminate | discriminate]].
      * split; [discriminate | split; [intros _ | discriminate]].
        exists (JsString.toUpperCase s), r. repeat split; auto.
        -- exists "注册国家 ", (String.append "，地理位置 " (JsString.toUpperCase s)).
           reflexivity.
        -- exists (String.append "注册国家 " (String.append r "，地理位置 ")), "".
           rewrite append_empty_r, !append_assoc. reflexivity.
    + split; [discriminate | split; [discriminate | auto]].
    + split; [discriminate | split; [discriminate | auto]].
    + split; [discriminate | split; [discriminate | auto]].
  - destruct (JsString.nonEmpty (JsString.toUpperCase s)); simpl;
      (split; [discriminate | split; [discriminate | auto]]).
Qed.

Lemma ipSource_trichotomy_witness :
  exists info,
    buildIpSourceInfo Examples.broadcastRecord = Normal info
    /\ isNative info = Some false
    /\ geoCountry info = Some "US" /\ registryCountry info = Some "DE"
    /\ JsString.Contains (reason info) "DE" /\ JsString.Contains (reason info) "US".
Proof.
  eexists. split; [reflexivity|].
  destruct (ipSource_trichotomy Examples.broadcastRecord _ eq_refl) as (_ & H & _).
  destruct (H eq_refl) as (g & r & Hg & Hr & _ & _ & _ & H1 & H2).
  injection Hg as <-. injection Hr as <-.
  split; [reflexivity|]. split; [reflexivity|]. split; [reflexivity|].
  split; [exact H1 | exact H2].
Defined.

(** The judgment exists whenever the first truthy country value is a
    string, which is what the providers of the registry deliver. *)
Lemma buildIpSourceInfo_total (merged : gmap string JsValue) :
  (forall k v, merged !! k = Some v ->
               match v with JStr _ | JNull | JUndefined => True | _ => False end) ->
  exists info, buildIpSourceInfo merged = Normal info.
Proof.
  intros Hty. unfold buildIpSourceInfo.
  assert (Hp : forall k, match prop merged k with
                         | JStr _ | JNull | JUndefined => True
                         | _ => False
                         end).
  { intros k. unfold prop. destruct (merged !! k) as [v|] eqn:E; simpl; [|exact I].
    exact (Hty k v E). }
  assert (Hor : forall a b, (exists s, b = JStr s) ->
                  match a with JStr _ | JNull | JUndefined => True | _ => False end ->
                  exists s, jsOr a b = JStr s).
  { intros a b [s ->] Ha. unfold jsOr.
    destruct a; simpl in *; try contradiction; eauto.
    destruct (JsString.nonEmpty _); eauto. }
  assert (Hchain : forall a b,
             match a with JStr _ | JNull | JUndefined => True | _ => False end ->
             match b with JStr _ | JNull | JUndefined => True | _ => False end ->
             match jsOr a b with JStr _ | JNull | JUndefined => True | _ => False end).
  { intros a b Ha Hb. unfold jsOr. now destruct (truthy a). }
  destruct (Hor (jsOr (jsOr (jsOr (prop merged "ip2location_country_code")
                                  (prop merged "countryCode"))
                            (prop merged "country_code"))
                      (prop merged "ipinfo_country"))
                (JStr "")) as [s ->]; [now exists "" | repeat apply Hchain; apply Hp |].
  eauto.
Qed.

End IpSource.
(** ** prepareExits *)

Section PrepareExits.

Import BatchCheck Spec.

Variable localeCompare : string -> string -> Z.

(** What the proofs use of the collation: a string compares equal to
    itself, swapping the operands of a strictly positive comparison gives
    a strictly negative one, and "not greater" is transitive. *)
Hypothesis localeCompare_refl : forall s, localeCompare s s = 0.
Hypothesis localeCompare_swap : forall s t, 0 < localeCompare s t -> localeCompare t s < 0.
Hypothesis localeCompare_trans :
  forall s t u, localeCompare s t <= 0 -> localeCompare t u <= 0 -> localeCompare s u <= 0.














(** *** The order of the list *)


Lemma exitRank_pos (t : string) : 1 <= exitRank t <= 999.
Proof.
  unfold exitRank.
  repeat match goal with |- context [String.eqb ?a ?b] => destruct (String.eqb a b) end; lia.
Qed.












End PrepareExits.

Section PrepareExitsWitness.

Import BatchCheck Spec.





Lemma sortExits_permutation (lc : string -> string -> Z) (l : list ExitItem) :
  Permutation (sortExits lc l) l.
Proof.
  induction l as [|x l IH]; [constructor|]. cbn [sortExits].
  transitivity (x :: sortExits lc l); [|now constructor].
  generalize (sortExits lc l). clear. intros l.
  induction l as [|y l IH]; cbn [insertExit]; [reflexivity|].
  destruct (_ <=? _); [reflexivity|].
  rewrite IH. apply perm_swap.
Qed.


End PrepareExitsWitness.

(** ** Cache persistence of an aggregation *)

Section Persist.

Import BatchCheck ApiClient.

Lemma getCacheTTL_floor (env : option string) : 60 <= Cache.getCacheTTL env.
Proof.
  unfold Cache.getCacheTTL. destruct (Cache.parseInt10 _) as [ttl|]; [|lia].
  destruct (Z.ltb_spec ttl 60); lia.
Qed.

(** C5: on a cache miss, with a KV namespace whose [put] succeeds, the
    aggregation ends by writing the merged bundle under the configured TTL
    when some provider succeeded, a negative entry ([isNegativeCache] set,
    empty merge, TTL 60 s) when none succeeded and some failed, and
    nothing when there was neither a success nor an error. *)
Theorem checkSingleIp_persist (ip : string) (asn : JsValue) (env : option string)
        (store : Cache.KV CachedMergedIpData) (providers : Providers)
        (faults : Cache.KvFaults) (now : Z) :
  getCachedMergedIpData (Some store) ip faults = None ->
  Cache.putThrows faults = false ->
  let out := checkSingleIpWithCache ip asn env (Some store) providers faults now in
  let r := fst out in
  partiallyFromCache r = false
  /\ 60 <= Cache.getCacheTTL env
  /\ match successful r, errors r with
     | _ :: _, _ =>
         snd out = Some (<[getMergedIpCacheKey ip :=
                             (mkCached (merged r) (successful r) (errors r) (r_asn r) now None,
                              Cache.getCacheTTL env)]> store)
     | [], _ :: _ =>
         snd out = Some (<[getMergedIpCacheKey ip :=
                             (mkCached ∅ [] (errors r) (r_asn r) now (Some true), 60)]> store)
     | [], [] => snd out = Some store
     end.
Proof.
  intros Hmiss Hput. unfold checkSingleIpWithCache. rewrite Hmiss.
  cbv zeta. cbn [fst snd partiallyFromCache successful errors merged r_asn].
  split; [reflexivity|]. split; [apply getCacheTTL_floor|].
  match goal with
  | |- context [fst ?p] => generalize p
  end.
  intros [succ errs]. cbn [fst snd].
  unfold setCachedMergedIpData. rewrite Hput.
  destruct succ as [|s succ]; [destruct errs as [|e errs]|]; reflexivity.
Qed.

Lemma checkSingleIp_persist_witness :
  exists entry,
    snd (checkSingleIpWithCache "8.8.8.8" JUndefined (Some "300") (Some ∅)
           Examples.mixedProviders Cache.noFaults 1700000000000)
    = Some (<[ "v1:merged:8.8.8.8" := (entry, 300) ]> ∅)
    /\ List.length (c_successful entry) = 1%nat
    /\ List.length (c_errors entry) = 1%nat
    /\ isNegativeCache entry = None.
Proof.
  pose proof (checkSingleIp_persist "8.8.8.8" JUndefined (Some "300") ∅
                Examples.mixedProviders Cache.noFaults 1700000000000 eq_refl eq_refl)
    as (_ & _ & H).
  eexists. split; [exact H|]. repeat split.
Defined.

(** Without a KV namespace nothing is written. *)
Lemma checkSingleIp_no_kv (ip : string) (asn : JsValue) (env : option string)
      (providers : Providers) (faults : Cache.KvFaults) (now : Z) :
  snd (checkSingleIpWithCache ip asn env None providers faults now) = None.
Proof.
  unfold checkSingleIpWithCache. cbn [getCachedMergedIpData]. cbv zeta.
  cbn [snd]. unfold setCachedMergedIpData.
  repeat match goal with |- context [if ?b then _ else _] => destruct b end; reflexivity.
Qed.

(** A cache hit is served as it is and leaves the store alone. *)
Lemma checkSingleIp_hit (ip : string) (asn : JsValue) (env : option string)
      (kv : option (Cache.KV CachedMergedIpData)) (providers : Providers)
      (faults : Cache.KvFaults) (now : Z) (c : CachedMergedIpData) :
  getCachedMergedIpData kv ip faults = Some c ->
  let out := checkSingleIpWithCache ip asn env kv providers faults now in
  snd out = kv /\ partiallyFromCache (fst out) = true /\ merged (fst out) = c_merged c.
Proof. intros H. unfold checkSingleIpWithCache. rewrite H. now simpl. Qed.

End Persist.

(** ** Caching of LLM analyses *)

Section AiCache.

Import Ai Spec.

Lemma shouldCache_iff (value : option LlmResult) :
  shouldCache value = true <-> cacheable value.
Proof.
  unfold shouldCache, cacheable. destruct value as [[v]|]; cbn [reasoning].
  - destruct v as [| | | |r|];
      try (split; [discriminate | intros (v & r & H & Hr & _); injection H as <-; discriminate]).
    destruct (String.eqb_spec r UNAVAILABLE) as [->|Hne].
    + split; [discriminate|]. intros (v & r & H & Hr & Hn & _). injection H as <-.
      cbn [reasoning] in Hr. injection Hr as <-. contradiction.
    + destruct (JsString.startsWith r "AI Analysis Failed") eqn:E.
      * split; [discriminate|]. intros (v & r' & H & Hr & _ & Hs). injection H as <-.
        cbn [reasoning] in Hr. injection Hr as <-. congruence.
      * split; [intros _ | reflexivity]. exists (mkLlmResult (JStr r)), r. auto.
  - split; [discriminate | intros (v & r & H & _); discriminate].
Qed.

Lemma llmFailure_not_cached (msg : string) : shouldCache (Some (llmFailure msg)) = false.
Proof. reflexivity. Qed.

(** What the route stores on a cache miss with a working KV namespace:
    the LLM result goes under [v1:ai:analysis:<ip>] if and only if its
    [reasoning] is a string that is not the "temporarily unavailable"
    sentence and does not start with [AI Analysis Failed]; otherwise the
    store is left as it was, which is the case for every failed LLM
    call. *)
Lemma ai_cache_iff (ip apiKey baseUrl : string) (env : option string)
        (value : option LlmResult) (store : Cache.KV (option LlmResult))
        (faults : Cache.KvFaults) (msg : string) :
  JsString.nonEmpty ip = true ->
  JsString.nonEmpty apiKey = true ->
  JsString.nonEmpty baseUrl = true ->
  store !! String.append "v1:ai:analysis:" ip = None ->
  Cache.putThrows faults = false ->
  let route := fun v => aiAnalysis ip true (Some apiKey) (Some baseUrl) env (Normal v)
                                 (Some store) faults in
  fst (route value) = Json value
  /\ (cacheable value ->
      snd (route value)
      = Some (<[String.append "v1:ai:analysis:" ip := (value, Cache.getCacheTTL env)]> store))
  /\ (~ cacheable value -> snd (route value) = Some store)
  /\ (is_Some (default ∅ (snd (route value)) !! String.append "v1:ai:analysis:" ip)
      <-> cacheable value)
  /\ snd (route (Some (llmFailure msg))) = Some store.
Proof.
  intros Hip Hkey Hbase Hmiss Hput. cbv beta zeta. unfold Cache.KV in *.
  assert (Hgen : forall v,
             aiAnalysis ip true (Some apiKey) (Some baseUrl) env (Normal v) (Some store) faults
             = (Json v,
                if shouldCache v
                then Some (<[String.append "v1:ai:analysis:" ip :=
                               (v, Cache.getCacheTTL env)]> store)
                else Some store)).
  { intros v. unfold aiAnalysis. rewrite Hip. cbn [negb orb from_option id].
    rewrite Hkey, Hbase. cbn [negb orb].
    unfold Cache.getOrSetCache, aiCacheKey, CACHE_VERSION.
    change (String.append "v1" (String.append ":ai:analysis:" ip))
      with (String.append "v1:ai:analysis:" ip).
    unfold Cache.KV in *. rewrite Hmiss, Hput. cbn [fmap option_fmap option_map].
    destruct (Cache.getThrows faults); destruct (shouldCache v); reflexivity. }
  rewrite !Hgen. cbn [fst snd]. rewrite llmFailure_not_cached.
  split; [reflexivity|].
  destruct (shouldCache value) eqn:E.
  - assert (Hc : cacheable value) by now apply shouldCache_iff.
    split; [reflexivity|]. split; [intros Hn; contradiction|]. split; [|reflexivity].
    cbv [from_option id]. rewrite lookup_insert_eq. split; [intros _; exact Hc | eauto].
  - assert (Hc : ~ cacheable value).
    { intros Hc. apply shouldCache_iff in Hc. congruence. }
    split; [intros; contradiction|]. split; [reflexivity|]. split; [|reflexivity].
    cbv [from_option id]. rewrite Hmiss. split; [intros [? ?]; discriminate | contradiction].
Qed.

Lemma ai_cache_iff_witness :
  snd (aiAnalysis "8.8.8.8" true (Some "sk-test") (Some "https://llm.example") None
         (Normal (Some (mkLlmResult (JStr "## IP score: 85/100")))) (Some ∅) Cache.noFaults)
  = Some (<["v1:ai:analysis:8.8.8.8" :=
              (Some (mkLlmResult (JStr "## IP score: 85/100")), 900)]> ∅)
  /\ snd (aiAnalysis "8.8.8.8" true (Some "sk-test") (Some "https://llm.example") None
            (Normal (Some (llmFailure "LLM API error: 500 - upstream"))) (Some ∅)
            Cache.noFaults)
     = Some ∅.
Proof.
  pose proof (ai_cache_iff "8.8.8.8" "sk-test" "https://llm.example" None
                (Some (mkLlmResult (JStr "## IP score: 85/100"))) ∅ Cache.noFaults
                "LLM API error: 500 - upstream" eq_refl eq_refl eq_refl eq_refl eq_refl)
    as (_ & H1 & _ & _ & H2).
  split; [|exact H2]. apply H1.
  exists (mkLlmResult (JStr "## IP score: 85/100")), "## IP score: 85/100".
  repeat split. vm_compute. discriminate.
Defined.

(** C8: the route stores an analysis whose [reasoning] is the empty
    string, which the claim excludes; for every other LLM result it stores
    exactly what the claim says, a non-empty [reasoning] that is neither
    the "temporarily unavailable" sentence nor a failure report, and a
    failed LLM call leaves the store as it was. *)
Theorem ai_cache_empty_reasoning (ip apiKey baseUrl : string) (env : option string)
        (store : Cache.KV (option LlmResult)) (faults : Cache.KvFaults) :
  JsString.nonEmpty ip = true ->
  JsString.nonEmpty apiKey = true ->
  JsString.nonEmpty baseUrl = true ->
  store !! String.append "v1:ai:analysis:" ip = None ->
  Cache.putThrows faults = false ->
  let route := fun v => postAiAnalysis (Normal (BodyValue (Some ip) true))
                                     (Some apiKey) (Some baseUrl) env (Normal v)
                                     (Some store) faults in
  let empty := Some (mkLlmResult (JStr "")) in
  ~ cacheableNonEmpty empty
  /\ fst (route empty) = Json empty
  /\ snd (route empty)
     = Some (<[String.append "v1:ai:analysis:" ip := (empty, Cache.getCacheTTL env)]> store)
  /\ (forall value, value <> empty ->
        (is_Some (default ∅ (snd (route value)) !! String.append "v1:ai:analysis:" ip)
         <-> cacheableNonEmpty value))
  /\ forall msg, snd (route (Some (llmFailure msg))) = Some store.
Proof.
  intros Hip Hkey Hbase Hmiss Hput. cbv zeta.
  cbn [postAiAnalysis from_option id].
  split; [|split; [|split; [|split]]].
  5: { intros msg.
       now destruct (ai_cache_iff ip apiKey baseUrl env None store faults msg
                       Hip Hkey Hbase Hmiss Hput) as (_ & _ & _ & _ & H). }
  - intros (v & r & Hv & Hr & Hne & _). injection Hv as <-. cbn in Hr.
    injection Hr as <-. discriminate Hne.
  - now destruct (ai_cache_iff ip apiKey baseUrl env (Some (mkLlmResult (JStr ""))) store
                    faults "" Hip Hkey Hbase Hmiss Hput) as (H & _).
  - destruct (ai_cache_iff ip apiKey baseUrl env (Some (mkLlmResult (JStr ""))) store faults
                "" Hip Hkey Hbase Hmiss Hput) as (_ & H & _).
    apply H. exists (mkLlmResult (JStr "")), "". repeat split. vm_compute. discriminate.
  - intros value Hne.
    destruct (ai_cache_iff ip apiKey baseUrl env value store faults "" Hip Hkey Hbase
                Hmiss Hput) as (_ & _ & _ & H & _).
    cbv beta in H. rewrite H. split.
    + intros (v & r & Hv & Hr & Hu & Hs). exists v, r. repeat split; try assumption.
      destruct r; [|reflexivity]. exfalso. apply Hne. subst value.
      destruct v as [rv]. cbn in Hr. now subst rv.
    + intros (v & r & Hv & Hr & _ & Hu & Hs). exists v, r. auto.
Qed.

Lemma ai_cache_empty_reasoning_witness :
  postAiAnalysis (Normal (BodyValue (Some "8.8.8.8") true)) (Some "sk-test")
                 (Some "https://llm.example") None
                 (Normal (Some (mkLlmResult (JStr "")))) (Some ∅) Cache.noFaults
  = (Json (Some (mkLlmResult (JStr ""))),
     Some (<["v1:ai:analysis:8.8.8.8" := (Some (mkLlmResult (JStr "")), 900)]> ∅)).
Proof.
  pose proof (ai_cache_empty_reasoning "8.8.8.8" "sk-test" "https://llm.example" None ∅
                Cache.noFaults eq_refl eq_refl eq_refl eq_refl eq_refl) as (_ & H1 & H2 & _).
  cbv beta in H1, H2.
  rewrite (surjective_pairing (postAiAnalysis _ _ _ _ _ _ _)). now rewrite H1, H2.
Defined.

End AiCache.

(** ** The keyed fetch *)

Section KeyedFetch.

Import ApiClient Spec.

Lemma getNextKey_normal (now : Z) (m : KeyManager.t) :
  KeyManager.wf m ->
  exists res m', KeyManager.getNextKey now m = Normal (res, m') /\ KeyManager.wf m'
                 /\ KeyManager.keys m' = KeyManager.keys m.
Proof.
  intros Hwf. unfold KeyManager.getNextKey.
  destruct (KeyManager.keys m) as [|k0 [|k1 ks]] eqn:E; eauto.
  destruct (probe_spec now (List.length (KeyManager.keys m))
              (KeyManager._cleanupExpiredCooldowns now m) (wf_cleanup now m Hwf))
    as (res & m' & Hp & Hk & _ & Hwf' & _).
  { simpl. now rewrite E. }
  exists res, m'. rewrite <- E. split; [exact Hp|]. split; [exact Hwf'|]. exact Hk.
Qed.

Lemma keys_markFailure now key m :
  KeyManager.keys (KeyManager.markFailure now key m) = KeyManager.keys m.
Proof. unfold KeyManager.markFailure. now destruct (_ !! _). Qed.

Lemma keys_markSuccess key m :
  KeyManager.keys (KeyManager.markSuccess key m) = KeyManager.keys m.
Proof. unfold KeyManager.markSuccess. now destruct (_ !! _). Qed.











End KeyedFetch.

(** ** The batch-stream endpoints *)

Section ExitStream.

Import BatchCheck Routes Spec.

Lemma unresolvedFrom_length (pending : list PendingItem) :
  forall i, List.length (unresolvedFrom i pending) = unresolvedCount pending.
Proof.
  unfold unresolvedCount. induction pending as [|item rest IH]; intros i; simpl;
    [reflexivity|].
  destruct (resolved item); simpl; now rewrite IH.
Qed.

Lemma unresolvedFrom_lookup (pending : list PendingItem) :
  forall i idx, In idx (unresolvedFrom i pending) ->
    exists item, pending !! (idx - i)%nat = Some item /\ resolved item = false /\ (i <= idx)%nat.
Proof.
  induction pending as [|item rest IH]; intros i idx Hin; simpl in Hin; [contradiction|].
  destruct (resolved item) eqn:E.
  - destruct (IH _ _ Hin) as (it & Hl & Hr & Hle).
    exists it. replace (idx - i)%nat with (S (idx - S i)) by lia. simpl. auto with lia.
  - destruct Hin as [<-|Hin].
    + exists item. rewrite Nat.sub_diag. simpl. auto.
    + destruct (IH _ _ Hin) as (it & Hl & Hr & Hle).
      exists it. replace (idx - i)%nat with (S (idx - S i)) by lia. simpl. auto with lia.
Qed.

Lemma unresolvedCount_mark (pending : list PendingItem) :
  forall k item, pending !! k = Some item -> resolved item = false ->
    S (unresolvedCount (<[k := markResolved item]> pending)) = unresolvedCount pending.
Proof.
  unfold unresolvedCount.
  induction pending as [|x rest IH]; intros k item Hk Hr; [discriminate|].
  destruct k as [|k]; simpl in *.
  - injection Hk as ->. now rewrite Hr.
  - destruct (resolved x); simpl; [|f_equal]; eapply IH; eauto.
Qed.

(** With enough fuel the race loop yields once for every unresolved
    item, whatever the order in which the promises settle. *)
Lemma raceLoop_length (race : nat -> nat) (fuel : nat) :
  forall round pending,
    (unresolvedCount pending <= fuel)%nat ->
    List.length (raceLoop race fuel round pending) = unresolvedCount pending.
Proof.
  induction fuel as [|f IH]; intros round pending Hfuel.
  - simpl. lia.
  - cbn [raceLoop]. pose proof (unresolvedFrom_length pending 0) as Hlen.
    destruct (unresolvedFrom 0 pending) as [|u us] eqn:E; [simpl in *; lia|].
    set (index := nth (race round mod List.length (u :: us)) (u :: us) u).
    assert (Hin : In index (unresolvedFrom 0 pending)).
    { rewrite E. apply nth_In. apply Nat.mod_upper_bound. simpl. lia. }
    destruct (unresolvedFrom_lookup _ _ _ Hin) as (item & Hl & Hr & _).
    rewrite Nat.sub_0_r in Hl. rewrite Hl.
    pose proof (unresolvedCount_mark _ _ _ Hl Hr) as Hmark.
    simpl. rewrite IH; lia.
Qed.

Lemma uniqueExits_pending (check : string -> Completion IpApiCheckResult)
      (l : list ExitItem) :
  unresolvedCount (List.map (fun exit => mkPending exit (runItem check exit) false) l)
  = List.length l.
Proof.
  unfold unresolvedCount. induction l as [|x l IH]; simpl; [reflexivity | now rewrite IH].
Qed.

(** The exit stream yields exactly once per unique address. *)
Lemma processExitsStream_length (race : nat -> nat)
      (check : string -> Completion IpApiCheckResult) (exits : list ExitItem) :
  List.length (processExitsStream race check exits) = List.length (uniqueExits exits).
Proof.
  unfold processExitsStream. rewrite raceLoop_length; rewrite uniqueExits_pending.
  - reflexivity.
  - now rewrite length_map.
Qed.

Lemma emitExits_shape (total : nat) (ys : list Yielded) :
  forall completed,
    resultCount (emitExits total completed ys) = List.length ys
    /\ last (emitExits total completed ys) = Some (DoneEvent total total).
Proof.
  unfold resultCount. induction ys as [|y ys IH]; intros completed; [now split|].
  destruct (IH (S completed)) as [IH1 IH2]. split.
  - simpl. now rewrite IH1.
  - cbn [emitExits]. rewrite last_cons, IH2. reflexivity.
Qed.

(** Every accepted request to the exits endpoint is answered with one
    [result] event per unique address and a [done] event whose progress
    counts the input rows. *)
Lemma checkExitsBatchStream_events (isValidIp : string -> bool) (race : nat -> nat)
      (check : string -> Completion IpApiCheckResult) (exits : list ExitItem) :
  validateExitsArray isValidIp exits 10 = None ->
  exists events,
    checkExitsBatchStream isValidIp race check exits = EventStream events
    /\ resultCount events = List.length (uniqueExits exits)
    /\ last events = Some (DoneEvent (List.length exits) (List.length exits)).
Proof.
  intros Hv. unfold checkExitsBatchStream. rewrite Hv. eexists. split; [reflexivity|].
  destruct (emitExits_shape (List.length exits) (processExitsStream race check exits) 0)
    as [H1 H2].
  split; [|exact H2]. now rewrite H1, processExitsStream_length.
Qed.

Lemma emitIps_shape (check : nat -> string -> Completion IpApiCheckResult) (total : nat)
      (items : list BatchIpItem) :
  forall completed,
    itemCount (emitIps check total completed items) = List.length items
    /\ last (emitIps check total completed items) = Some (DoneEvent total total).
Proof.
  unfold itemCount. induction items as [|item items IH]; intros completed; [now split|].
  destruct (IH (S completed)) as [IH1 IH2]. cbn [emitIps].
  destruct (bindC _ _); split; simpl; try (now rewrite IH1);
    now rewrite last_cons, IH2.
Qed.

(** Every accepted request to the manual endpoint is answered with one
    item event per input row, duplicates included. *)
Lemma checkIpBatchStream_events (isValidIp isLocalOrInternalIP : string -> bool)
      (check : nat -> string -> Completion IpApiCheckResult) (ips : list BatchIpItem) :
  validateIpsArray isValidIp isLocalOrInternalIP ips 20 = None ->
  exists events,
    checkIpBatchStream isValidIp isLocalOrInternalIP check ips = EventStream events
    /\ itemCount events = List.length ips
    /\ last events = Some (DoneEvent (List.length ips) (List.length ips)).
Proof.
  intros Hv. unfold checkIpBatchStream. rewrite Hv. eexists. split; [reflexivity|].
  rewrite <- (length_map (fun item => mkIpItem (JsString.trim (b_ip item)) (b_type item)) ips).
  apply emitIps_shape.
Qed.

(** C1 at the input [8.8.8.8, 1.1.1.1, 8.8.8.8, 9.9.9.9]: the exits
    endpoint emits three [result] events and then [done] with progress
    4/4; the manual endpoint does not deduplicate and reports on four
    rows, also ending with 4/4.  Neither ends with 3/3. *)
Theorem batch_stream_duplicate_progress (isValidIp isLocalOrInternalIP : string -> bool)
        (race : nat -> nat) (checkExit : string -> Completion IpApiCheckResult)
        (checkIp : nat -> string -> Completion IpApiCheckResult) :
  (forall ip, isValidIp ip = true) ->
  (forall ip, isLocalOrInternalIP ip = false) ->
  (exists events,
     checkExitsBatchStream isValidIp race checkExit Examples.dupExits = EventStream events
     /\ resultCount events = 3%nat
     /\ last events = Some (DoneEvent 4 4))
  /\ (exists events,
        checkIpBatchStream isValidIp isLocalOrInternalIP checkIp Examples.dupIps
        = EventStream events
        /\ itemCount events = 4%nat
        /\ last events = Some (DoneEvent 4 4)).
Proof.
  intros Hvalid Hlocal. split.
  - destruct (checkExitsBatchStream_events isValidIp race checkExit Examples.dupExits)
      as (events & He & Hc & Hl).
    { unfold validateExitsArray, Examples.dupExits. cbn. now rewrite !Hvalid. }
    exists events. split; [exact He|]. split; [rewrite Hc; reflexivity | exact Hl].
  - destruct (checkIpBatchStream_events isValidIp isLocalOrInternalIP checkIp
                Examples.dupIps) as (events & He & Hc & Hl).
    { unfold validateIpsArray, Examples.dupIps. cbn. now rewrite !Hvalid, !Hlocal. }
    exists events. split; [exact He|]. split; [exact Hc | exact Hl].
Qed.

Lemma batch_stream_duplicate_progress_witness :
  (exists events,
     checkExitsBatchStream (fun _ => true) (fun _ => 0%nat)
       (fun ip => Normal (mkCheck ip JUndefined [] [] ∅ false 0%nat 0%nat))
       Examples.dupExits = EventStream events
     /\ resultCount events = 3%nat
     /\ last events = Some (DoneEvent 4 4))
  /\ (exists events,
        checkIpBatchStream (fun _ => true) (fun _ => false)
          (fun _ ip => Normal (mkCheck ip JUndefined [] [] ∅ false 0%nat 0%nat))
          Examples.dupIps = EventStream events
        /\ itemCount events = 4%nat
        /\ last events = Some (DoneEvent 4 4)).
Proof.
  exact (batch_stream_duplicate_progress (fun _ => true) (fun _ => false) (fun _ => 0%nat)
           (fun ip => Normal (mkCheck ip JUndefined [] [] ∅ false 0%nat 0%nat))
           (fun _ ip => Normal (mkCheck ip JUndefined [] [] ∅ false 0%nat 0%nat))
           (fun _ => eq_refl) (fun _ => eq_refl)).
Defined.

End ExitStream.

(** ** Worked examples *)

Section WorkedExamples.

Import IpType BatchCheck.

(** A residential line registered in Germany and located in the United
    States: the vote says residential and the address is a broadcast one. *)
Example residential_broadcast :
  voteIpType (extractTypeSourceDetails Examples.broadcastRecord) = "residential"
  /\ buildIpSourceInfo Examples.broadcastRecord
     = Normal (mkSource (Some "US") (Some "DE") (Some false)
                        "注册国家 DE，地理位置 US").
Proof. split; reflexivity. Qed.

Example normalize_samples :
  normalizeIpType (JStr " Data Center/Web Hosting/Transit ") = "datacenter"
  /\ normalizeIpType (JStr "isp") = "residential"
  /\ normalizeIpType (JStr "Library") = "education"
  /\ normalizeIpType (JStr "Premium required") = "unknown"
  /\ normalizeIpType (JNum 7) = "unknown".
Proof. repeat split; reflexivity. Qed.

(** Two votes against one; on a tie the category voted first wins. *)
Example vote_samples :
  voteIpType [ mkDetail "IPQS" "Mobile" "mobile";
               mkDetail "AbuseIPDB" "Data Center" "datacenter";
               mkDetail "IP2Location" "DCH" "datacenter" ] = "datacenter"
  /\ voteIpType [ mkDetail "IPQS" "Mobile" "mobile";
                  mkDetail "AbuseIPDB" "Data Center" "datacenter" ] = "mobile".
Proof. split; reflexivity. Qed.

Example ttl_samples :
  Cache.getCacheTTL None = 900
  /\ Cache.getCacheTTL (Some "30") = 900
  /\ Cache.getCacheTTL (Some " 120s") = 120
  /\ Cache.getCacheTTL (Some "abc") = 900.
Proof. repeat split; reflexivity. Qed.

(** The second failure in a row takes a key out of rotation; the next call
    skips it. *)
Example rotation_skips_unhealthy :
  exists m', KeyManager.getNextKey 2000 Examples.pool3 = Normal (Some "B", m')
             /\ KeyManager.currentIndex m' = 2%nat.
Proof. eexists. split; [vm_compute; reflexivity | reflexivity]. Qed.

End WorkedExamples.

(** ** Credential pool: reachable states *)

Section PoolInvariant.

Import KeyManager KeyManagerExt Spec.

Lemma initStates_inv (ks : list string) :
  forall (i : nat) (st : gmap string KeyState) (k : string) (s : KeyState),
    initStates ks i st !! k = Some s ->
    (In k ks /\ exists j, s = freshState j) \/ st !! k = Some s.
Proof.
  induction ks as [|k0 ks IH]; intros i st k s H; simpl in H; [now right|].
  destruct (IH _ _ _ _ H) as [[Hin Hj]|Hl].
  - left. split; [now right | exact Hj].
  - destruct (decide (k0 = k)) as [->|Hne].
    + rewrite lookup_insert_eq in Hl. injection Hl as <-. left. split; [now left | eauto].
    + rewrite lookup_insert_ne in Hl by done. now right.
Qed.

Lemma stateOk_fresh (j : nat) : stateOk (freshState j).
Proof. unfold stateOk, freshState; simpl. repeat split; try lia; discriminate. Qed.

Lemma stateOk_restore (st : KeyState) : stateOk st -> stateOk (restore st).
Proof.
  intros (H1 & H2 & H3 & H4). unfold stateOk, restore; simpl.
  repeat split; try lia; discriminate.
Qed.

Lemma stateOk_cleanup (now cd : Z) (st : KeyState) :
  stateOk st -> stateOk (cleanupState now cd st).
Proof.
  intros Hok. unfold cleanupState.
  destruct (lastFailure st) as [lf|] eqn:Elf; [|exact Hok].
  destruct (negb (isHealthy st) && negb (lf =? 0))%bool eqn:E1; [|exact Hok].
  destruct (cd <=? now - lf); [now apply stateOk_restore|].
  destruct ((FAILURE_DECAY_MS <? now - lf) && (failureCount st <? 2))%bool; [|exact Hok].
  destruct Hok as (H1 & H2 & H3 & H4). unfold stateOk; simpl.
  split; [|split; [intros _; eauto | lia]].
  intros Hh. apply andb_prop in E1 as [E1 _]. rewrite Hh in E1. discriminate.
Qed.

Lemma poolOk_insert (m : t) (k : string) (st : KeyState) :
  poolOk m -> is_Some (keyStates m !! k) -> stateOk st ->
  poolOk (setStates m (<[k := st]> (keyStates m))).
Proof.
  intros (Hwf & Hst & Hdom) Hk Hok. split; [now apply wf_insert|]. split; simpl.
  - intros k' st' H. destruct (decide (k = k')) as [->|Hne].
    + rewrite lookup_insert_eq in H. now injection H as <-.
    + rewrite lookup_insert_ne in H by done. eauto.
  - intros k' H. destruct (decide (k = k')) as [->|Hne]; [now apply Hdom|].
    rewrite lookup_insert_ne in H by done. now apply Hdom.
Qed.

Lemma poolOk_create (service : string) (input : KeysInput) (cooldown : option Z) :
  poolOk (create service input cooldown).
Proof.
  split; [apply wf_create|]. split; simpl.
  - intros k st H. apply initStates_inv in H as [[_ [j ->]]|H]; [apply stateOk_fresh|].
    now rewrite lookup_empty in H.
  - intros k [st H]. apply initStates_inv in H as [[Hin _]|H]; [exact Hin|].
    now rewrite lookup_empty in H.
Qed.

Lemma poolOk_markSuccess (key : string) (m : t) : poolOk m -> poolOk (markSuccess key m).
Proof.
  intros Hok. unfold markSuccess. destruct (keyStates m !! key) as [st|] eqn:E; [|exact Hok].
  apply poolOk_insert; [exact Hok | rewrite E; eauto |].
  destruct Hok as (_ & Hst & _). destruct (Hst _ _ E) as (H1 & H2 & H3 & H4).
  cbn [failureCount successCount index isHealthy lastFailure].
  destruct (Z.ltb_spec 0 (failureCount st)); unfold stateOk; simpl.
  - repeat split; try lia; discriminate.
  - repeat split; try lia; auto.
Qed.

Lemma poolOk_markFailure (now : Z) (key : string) (m : t) :
  poolOk m -> poolOk (markFailure now key m).
Proof.
  intros Hok. unfold markFailure. destruct (keyStates m !! key) as [st|] eqn:E; [|exact Hok].
  apply poolOk_insert; [exact Hok | rewrite E; eauto |].
  destruct Hok as (_ & Hst & _). destruct (Hst _ _ E) as (H1 & H2 & H3 & H4).
  unfold stateOk; simpl.
  destruct (match lastFailure st with
            | Some lf => (negb (lf =? 0) && (FAILURE_DECAY_MS <? now - lf))%bool
            | None => false
            end);
    match goal with
    | |- context [2 <=? ?x] => destruct (Z.leb_spec 2 x)
    end; repeat split; try lia; eauto; try discriminate.
Qed.

Lemma poolOk_cleanup (now : Z) (m : t) : poolOk m -> poolOk (_cleanupExpiredCooldowns now m).
Proof.
  intros (Hwf & Hst & Hdom). split; [now apply wf_cleanup|]. split; simpl.
  - intros k st H. rewrite lookup_fmap in H.
    destruct (keyStates m !! k) as [st0|] eqn:E; [|discriminate].
    simpl in H. injection H as <-. apply stateOk_cleanup. eauto.
  - intros k [st H]. rewrite lookup_fmap in H. apply Hdom.
    destruct (keyStates m !! k); [eauto | discriminate].
Qed.

Lemma poolOk_setIndex (m : t) (i : nat) :
  poolOk m -> (i < List.length (keys m))%nat -> poolOk (setIndex m i).
Proof.
  intros (Hwf & Hst & Hdom) Hi. split; [now apply wf_setIndex|]. split; simpl; auto.
Qed.

Lemma poolOk_probe (now : Z) (r : nat) :
  forall m res m', poolOk m -> probe now r m = Normal (res, m') -> poolOk m'.
Proof.
  induction r as [|r IH]; intros m res m' Hok H; simpl in H.
  - now injection H as <- <-.
  - destruct (keys m !! currentIndex m) as [key|] eqn:Ek; [|discriminate].
    destruct (keyStates m !! key) as [state|] eqn:Es; [|discriminate].
    assert (Hn : (0 < List.length (keys m))%nat).
    { apply lookup_lt_Some in Ek. lia. }
    assert (Hok1 : poolOk (setIndex m ((currentIndex m + 1) mod List.length (keys m))%nat)).
    { apply poolOk_setIndex; [exact Hok|]. apply Nat.mod_upper_bound. lia. }
    destruct (isHealthy state).
    + now injection H as <- <-.
    + destruct (cooledDown now (cooldownMs m) state).
      * injection H as <- <-.
        apply (poolOk_insert _ key (restore state) Hok1); [simpl; rewrite Es; eauto|].
        apply stateOk_restore. destruct Hok as (_ & Hst & _). eauto.
      * eapply IH; eauto.
Qed.

Lemma poolOk_getNextKey (now : Z) (m m' : t) (res : option string) :
  poolOk m -> getNextKey now m = Normal (res, m') -> poolOk m'.
Proof.
  intros Hok. unfold getNextKey. destruct (keys m) as [|k0 [|k1 ks]] eqn:E.
  - intros H. now injection H as <- <-.
  - intros H. now injection H as <- <-.
  - apply poolOk_probe. now apply poolOk_cleanup.
Qed.

Lemma poolOk_resetAll (m : t) : poolOk m -> poolOk (resetAll m).
Proof.
  intros ((Hc & Hk) & Hst & Hdom). split; [split|split]; simpl.
  - intros Hne. destruct (keys m); [contradiction | simpl; lia].
  - intros k Hin. rewrite lookup_fmap. destruct (Hk k Hin) as [st ->]. simpl. eauto.
  - intros k st H. rewrite lookup_fmap in H.
    destruct (keyStates m !! k) as [st0|] eqn:E; [|discriminate].
    simpl in H. injection H as <-. destruct (Hst _ _ E) as (_ & _ & _ & H4).
    unfold stateOk, resetState; simpl. repeat split; try lia; discriminate.
  - intros k [st H]. rewrite lookup_fmap in H. apply Hdom.
    destruct (keyStates m !! k); [eauto | discriminate].
Qed.

(** X1: every pool a process can hold is well formed: the cursor points
    into the key list, the states are exactly those of the keys, the
    counters are not negative, a key in rotation has at most one counted
    failure, and a key out of rotation has a recorded failure time. *)
Theorem reachable_poolOk (m : t) : reachable m -> poolOk m.
Proof.
  induction 1 as [service input cooldown|now m res m' _ IH Hn|key m _ IH|now key m _ IH|m _ IH].
  - apply poolOk_create.
  - eapply poolOk_getNextKey; eauto.
  - now apply poolOk_markSuccess.
  - now apply poolOk_markFailure.
  - now apply poolOk_resetAll.
Qed.

End PoolInvariant.

Section PoolInvariantWitness.

Import KeyManager KeyManagerExt.

Lemma reachable_poolOk_witness : poolOk Examples.pool3.
Proof.
  apply reachable_poolOk. unfold Examples.pool3.
  apply reach_failure, reach_failure, reach_create.
Defined.

End PoolInvariantWitness.

(** ** Credential pool: failures, successes and cooldown *)

Section PoolHealth.

Import KeyManager KeyManagerExt Spec.

(** X2: starting from a key with no counted failure, one failure leaves it
    in rotation; a second failure no later than two minutes (120000 ms)
    after the first takes it out of rotation with two counted failures; a
    second failure later than that only counts as a first one again. *)
Theorem markFailure_threshold (m : t) (key : string) (st : KeyState) (now1 now2 : Z) :
  keyStates m !! key = Some st ->
  isHealthy st = true ->
  failureCount st = 0 ->
  now1 <> 0 ->
  let m1 := markFailure now1 key m in
  let m2 := markFailure now2 key m1 in
  keyStates m1 !! key = Some (mkKeyState (index st) true (Some now1) 1 (successCount st))
  /\ (now2 - now1 <= 120000 ->
      keyStates m2 !! key
      = Some (mkKeyState (index st) false (Some now2) 2 (successCount st)))
  /\ (120000 < now2 - now1 ->
      keyStates m2 !! key
      = Some (mkKeyState (index st) true (Some now2) 1 (successCount st))).
Proof.
  intros Hst Hh Hfc Hnow. cbv zeta.
  assert (H1 : keyStates (markFailure now1 key m) !! key
               = Some (mkKeyState (index st) true (Some now1) 1 (successCount st))).
  { unfold markFailure. rewrite Hst. cbn [keyStates setStates].
    rewrite lookup_insert_eq. rewrite Hfc, Hh.
    destruct (match lastFailure st with Some _ => _ | None => _ end); reflexivity. }
  split; [exact H1|].
  unfold markFailure at 1 3. rewrite H1.
  cbn [keyStates setStates lastFailure failureCount isHealthy index successCount].
  rewrite !lookup_insert_eq.
  assert (Hz : (now1 =? 0) = false) by now apply Z.eqb_neq.
  rewrite Hz. cbn [negb andb].
  change FAILURE_DECAY_MS with 120000.
  split; intros Hd.
  - destruct (Z.ltb_spec 120000 (now2 - now1)); [lia | reflexivity].
  - destruct (Z.ltb_spec 120000 (now2 - now1)); [reflexivity | lia].
Qed.

Lemma markFailure_threshold_witness :
  keyStates (markFailure 1000 "A" (markFailure 900 "A"
               (create "ipqs" (KeysString "A,B,C") None))) !! "A"
  = Some (mkKeyState 0 false (Some 1000) 2 0)
  /\ keyStates (markFailure 200000 "A" (markFailure 900 "A"
                  (create "ipqs" (KeysString "A,B,C") None))) !! "A"
     = Some (mkKeyState 0 true (Some 200000) 1 0).
Proof.
  destruct (markFailure_threshold (create "ipqs" (KeysString "A,B,C") None) "A"
              (freshState 0) 900 1000 eq_refl eq_refl eq_refl ltac:(discriminate))
    as (_ & Ha & _).
  destruct (markFailure_threshold (create "ipqs" (KeysString "A,B,C") None) "A"
              (freshState 0) 900 200000 eq_refl eq_refl eq_refl ltac:(discriminate))
    as (_ & _ & Hb).
  split; [apply Ha | apply Hb]; vm_compute; congruence.
Defined.

(** X3: [markSuccess] counts the success and touches no other key and not
    the cursor; afterwards the key is in rotation exactly when it was
    already, or had a counted failure to clear.  A key that is out of
    rotation with its counter at zero stays out. *)
Theorem markSuccess_recovery (m : t) (key : string) (st : KeyState) :
  keyStates m !! key = Some st ->
  let m' := markSuccess key m in
  (healthyIn m' key <-> isHealthy st = true \/ 0 < failureCount st)
  /\ (exists st', keyStates m' !! key = Some st'
                  /\ successCount st' = successCount st + 1
                  /\ (0 < failureCount st -> failureCount st' = 0))
  /\ (forall k, k <> key -> keyStates m' !! k = keyStates m !! k)
  /\ currentIndex m' = currentIndex m /\ keys m' = keys m.
Proof.
  intros Hst. cbv zeta. unfold markSuccess, healthyIn. rewrite Hst.
  cbn [keyStates setStates currentIndex keys failureCount successCount isHealthy
       index lastFailure].
  rewrite lookup_insert_eq. split; [|split; [|split; [|split; reflexivity]]].
  - destruct (Z.ltb_spec 0 (failureCount st)) as [Hp|Hp].
    + split; [intros _; now right | intros _; eexists; split; reflexivity].
    + split.
      * intros (st' & H & Hh). injection H as <-. now left.
      * intros [Hh|Hf]; [|lia]. eexists. split; [reflexivity | exact Hh].
  - destruct (Z.ltb_spec 0 (failureCount st)) as [Hp|Hp]; eexists;
      (split; [reflexivity|]); simpl; split; auto; lia.
  - intros k Hk. now rewrite lookup_insert_ne.
Qed.

Lemma markSuccess_recovery_witness :
  healthyIn (markSuccess "A" Examples.pool3) "A".
Proof.
  destruct (markSuccess_recovery Examples.pool3 "A" (mkKeyState 0 false (Some 1000) 2 0)
              eq_refl) as (H & _).
  apply H. right. reflexivity.
Defined.

Lemma probe_keeps_healthy (now : Z) (r : nat) :
  forall m res m' k st,
    probe now r m = Normal (res, m') ->
    keyStates m !! k = Some st -> isHealthy st = true ->
    keyStates m' !! k = Some st.
Proof.
  induction r as [|r IH]; intros m res m' k st H Hk Hh; simpl in H.
  - now injection H as <- <-.
  - destruct (keys m !! currentIndex m) as [key|]; [|discriminate].
    destruct (keyStates m !! key) as [state|] eqn:Es; [|discriminate].
    destruct (isHealthy state) eqn:Eh.
    + now injection H as <- <-.
    + destruct (cooledDown now (cooldownMs m) state).
      * injection H as <- <-. cbn [keyStates setStates setIndex].
        rewrite lookup_insert_ne; [exact Hk|]. intros ->. congruence.
      * eapply IH; eauto.
Qed.

(** X4: in a pool of two or more keys, a key that is out of rotation is
    never handed out before its cooldown has expired, and is back in
    rotation, with its failure counter cleared, after any call made once
    the cooldown has expired. *)
Theorem cooldown_gate (now : Z) (m m' : t) (res : option string) (k : string)
        (st : KeyState) :
  (2 <= List.length (keys m))%nat ->
  keyStates m !! k = Some st ->
  isHealthy st = false ->
  getNextKey now m = Normal (res, m') ->
  (cooledDown now (cooldownMs m) st = false -> res <> Some k)
  /\ (cooledDown now (cooldownMs m) st = true ->
      exists st', keyStates m' !! k = Some st'
                  /\ isHealthy st' = true /\ failureCount st' = 0).
Proof.
  intros Hn Hst Hh Hget. unfold getNextKey in Hget.
  destruct (keys m) as [|k0 [|k1 ks]] eqn:Ek; try (simpl in Hn; lia).
  rewrite <- Ek in Hget.
  assert (Hswept : keyStates (_cleanupExpiredCooldowns now m) !! k
                   = Some (cleanupState now (cooldownMs m) st)).
  { cbn [_cleanupExpiredCooldowns keyStates setStates]. now rewrite lookup_fmap, Hst. }
  split; intros Hc.
  - intros ->. apply probe_returns in Hget as (st' & Hst' & Hor).
    rewrite Hswept in Hst'. injection Hst' as <-.
    cbn [_cleanupExpiredCooldowns cooldownMs setStates] in Hor.
    unfold cleanupState, cooledDown in *.
    destruct (lastFailure st) as [lf|] eqn:El; [|rewrite Hh, El in Hor; intuition discriminate].
    rewrite Hh in Hor. cbn [negb andb] in Hor.
    destruct (lf =? 0) eqn:Ez; cbn [negb andb] in *.
    + rewrite Hh, El, Ez in Hor. intuition discriminate.
    + rewrite Hc in Hor.
      destruct ((FAILURE_DECAY_MS <? now - lf) && (failureCount st <? 2))%bool;
        cbn [isHealthy lastFailure] in Hor; rewrite ?Hh, ?El, ?Ez, ?Hc in Hor;
        intuition discriminate.
  - assert (Hrest : cleanupState now (cooldownMs m) st = restore st).
    { unfold cleanupState, cooledDown in *.
      destruct (lastFailure st) as [lf|]; [|discriminate].
      rewrite Hh. apply andb_prop in Hc as [Hz Hcd]. rewrite Hz, Hcd. reflexivity. }
    rewrite Hrest in Hswept.
    exists (restore st). split; [|split; reflexivity].
    eapply probe_keeps_healthy; eauto.
Qed.

Lemma cooldown_gate_witness :
  exists res m',
    getNextKey 2000 Examples.pool3 = Normal (res, m') /\ res <> Some "A"
    /\ exists res2 m2,
         getNextKey 400000 Examples.pool3 = Normal (res2, m2)
         /\ exists st', keyStates m2 !! "A" = Some st' /\ isHealthy st' = true.
Proof.
  destruct (getNextKey 2000 Examples.pool3) as [[res m']|] eqn:E1;
    [|vm_compute in E1; discriminate].
  destruct (getNextKey 400000 Examples.pool3) as [[res2 m2]|] eqn:E2;
    [|vm_compute in E2; discriminate].
  exists res, m'. split; [reflexivity|].
  destruct (cooldown_gate 2000 Examples.pool3 m' res "A"
              (mkKeyState 0 false (Some 1000) 2 0)
              ltac:(vm_compute; lia) eq_refl eq_refl E1) as [Ha _].
  destruct (cooldown_gate 400000 Examples.pool3 m2 res2 "A"
              (mkKeyState 0 false (Some 1000) 2 0)
              ltac:(vm_compute; lia) eq_refl eq_refl E2) as [_ Hb].
  split; [apply Ha; reflexivity|].
  exists res2, m2. split; [reflexivity|].
  destruct (Hb eq_refl) as (st' & H1 & H2 & _). eauto.
Defined.

End PoolHealth.

(** ** Credential pool: rotation and key parsing *)

Section PoolRotation.

Import KeyManager KeyManagerExt Spec.

Lemma cleanup_all_healthy (now : Z) (m : t) :
  (forall k st, keyStates m !! k = Some st -> isHealthy st = true) ->
  _cleanupExpiredCooldowns now m = m.
Proof.
  intros Hall. destruct m as [sv ks cd c sts]. unfold _cleanupExpiredCooldowns, setStates.
  cbn [serviceName keys cooldownMs currentIndex keyStates] in *. f_equal.
  apply map_eq. intros k. rewrite lookup_fmap.
  destruct (sts !! k) as [st|] eqn:E; [|reflexivity]. simpl. f_equal.
  unfold cleanupState. rewrite (Hall _ _ E). now destruct (lastFailure st).
Qed.

Lemma getNextKey_all_healthy (now : Z) (m : t) :
  wf m -> (2 <= List.length (keys m))%nat ->
  (forall k st, keyStates m !! k = Some st -> isHealthy st = true) ->
  exists key,
    keys m !! currentIndex m = Some key
    /\ getNextKey now m
       = Normal (Some key, setIndex m ((currentIndex m + 1) mod List.length (keys m))%nat).
Proof.
  intros Hwf Hn Hall. unfold getNextKey.
  destruct (keys m) as [|k0 [|k1 ks]] eqn:Ek; try (simpl in Hn; lia).
  rewrite <- Ek. rewrite cleanup_all_healthy by exact Hall.
  assert (Hc : (currentIndex m < List.length (keys m))%nat).
  { apply Hwf. rewrite Ek. discriminate. }
  destruct (keys m !! currentIndex m) as [key|] eqn:Ekey.
  2: { apply lookup_ge_None in Ekey. lia. }
  destruct (proj2 Hwf key) as [st Hst].
  { apply list_elem_of_In. eapply list_elem_of_lookup_2; eauto. }
  exists key. split; [reflexivity|].
  destruct (List.length (keys m)) as [|n] eqn:El; [lia|].
  cbn [probe]. rewrite Ekey, Hst, (Hall _ _ Hst), El. reflexivity.
Qed.

Lemma successiveKeys_all_healthy (now : nat -> Z) (count : nat) :
  forall (call : nat) (m : t),
    wf m -> (2 <= List.length (keys m))%nat ->
    (forall k st, keyStates m !! k = Some st -> isHealthy st = true) ->
    successiveKeys now count call m
    = List.map (fun j => keys m !! ((currentIndex m + j) mod List.length (keys m))%nat)
               (seq 0 count).
Proof.
  induction count as [|count IH]; intros call m Hwf Hn Hall; [reflexivity|].
  cbn [successiveKeys seq List.map].
  destruct (getNextKey_all_healthy (now call) m Hwf Hn Hall) as (key & Hkey & ->).
  assert (Hc : (currentIndex m < List.length (keys m))%nat).
  { apply Hwf. destruct (keys m); [simpl in Hn; lia | discriminate]. }
  f_equal.
  - rewrite Nat.add_0_r, Nat.mod_small by exact Hc. now symmetry.
  - rewrite IH.
    + rewrite <- seq_shift, List.map_map. apply List.map_ext. intros j.
      cbn [keys currentIndex setIndex]. rewrite Nat.Div0.add_mod_idemp_l.
      do 2 f_equal. lia.
    + apply wf_setIndex; [exact Hwf|]. apply Nat.mod_upper_bound. lia.
    + exact Hn.
    + exact Hall.
Qed.

(** X5: while every key of a pool of two or more keys is in rotation, the
    calls of [getNextKey] hand the keys out in list order starting at the
    cursor and wrapping around: the [j]-th call returns the key at position
    [(cursor + j) mod n], so any [n] consecutive calls use each position
    exactly once. *)
Theorem round_robin_when_healthy (now : nat -> Z) (count call : nat) (m : t) :
  wf m -> (2 <= List.length (keys m))%nat ->
  (forall k st, keyStates m !! k = Some st -> isHealthy st = true) ->
  successiveKeys now count call m
  = List.map (fun j => keys m !! ((currentIndex m + j) mod List.length (keys m))%nat)
             (seq 0 count).
Proof. apply successiveKeys_all_healthy. Qed.

Lemma round_robin_when_healthy_witness :
  successiveKeys (fun _ => 5) 5 0 (create "ipqs" (KeysString "A,B,C") None)
  = [Some "A"; Some "B"; Some "C"; Some "A"; Some "B"].
Proof.
  rewrite (round_robin_when_healthy (fun _ => 5) 5 0
             (create "ipqs" (KeysString "A,B,C") None)).
  - reflexivity.
  - apply wf_create.
  - vm_compute. lia.
  - intros k st H. apply initStates_inv in H as [[_ [j ->]]|H]; [reflexivity|].
    now rewrite lookup_empty in H.
Defined.

Lemma successiveKeys_small (now : nat -> Z) (count : nat) :
  forall (call : nat) (m : t),
    (List.length (keys m) <= 1)%nat ->
    successiveKeys now count call m
    = List.map (fun j => keys m !! (j mod List.length (keys m))%nat) (seq 0 count).
Proof.
  induction count as [|count IH]; intros call m Hn; [reflexivity|].
  cbn [successiveKeys seq List.map]. rewrite <- seq_shift, List.map_map.
  unfold getNextKey. destruct (keys m) as [|k [|k' ks]] eqn:Ek; [| |simpl in Hn; lia].
  - rewrite IH by (rewrite Ek; simpl; lia). rewrite Ek.
    f_equal; try reflexivity; apply List.map_ext; intros j; reflexivity.
  - rewrite IH by (rewrite Ek; simpl; lia). rewrite Ek. cbn [List.length].
    f_equal; try reflexivity; apply List.map_ext; intros j; now rewrite !Nat.mod_1_r.
Qed.

(** X6: after [resetAll] every key of the pool is in rotation again and
    the cursor is at the first key, so the next calls hand out the keys in
    list order from the start, whatever happened before and whatever the
    size of the pool: a pool of one key hands out that key each time, and
    an empty pool hands out nothing. *)
Theorem resetAll_restarts_rotation (now : nat -> Z) (count : nat) (m : t) :
  wf m ->
  (forall k, In k (keys m) -> healthyIn (resetAll m) k)
  /\ currentIndex (resetAll m) = 0%nat
  /\ keys (resetAll m) = keys m
  /\ successiveKeys now count 0 (resetAll m)
     = List.map (fun j => keys m !! (j mod List.length (keys m))%nat) (seq 0 count).
Proof.
  intros [Hc Hk]. split; [|split; [reflexivity|split; [reflexivity|]]].
  - intros k Hin. destruct (Hk k Hin) as [st Hst]. exists (resetState st).
    cbn [resetAll keyStates]. rewrite lookup_fmap, Hst. split; reflexivity.
  - destruct (Nat.le_gt_cases (List.length (keys m)) 1) as [Hn|Hn].
    + now rewrite successiveKeys_small.
    + rewrite successiveKeys_all_healthy.
      * reflexivity.
      * split; cbn [resetAll keys currentIndex keyStates].
        -- intros _. lia.
        -- intros k Hin. rewrite lookup_fmap. destruct (Hk k Hin) as [st ->]. simpl. eauto.
      * exact Hn.
      * intros k st. cbn [resetAll keyStates]. rewrite lookup_fmap.
        destruct (keyStates m !! k); [|discriminate]. simpl. intros H. now injection H as <-.
Qed.

Lemma resetAll_restarts_rotation_witness :
  successiveKeys (fun _ => 2000) 4 0 (resetAll Examples.pool3)
  = [Some "A"; Some "B"; Some "C"; Some "A"]
  /\ successiveKeys (fun _ => 1001) 2 0 (resetAll Examples.pool1) = [Some "K1"; Some "K1"].
Proof.
  split.
  - destruct (resetAll_restarts_rotation (fun _ => 2000) 4 Examples.pool3) as (_ & _ & _ & H).
    + apply wfb_wf. vm_compute. reflexivity.
    + rewrite H. reflexivity.
  - destruct (resetAll_restarts_rotation (fun _ => 1001) 2 Examples.pool1) as (_ & _ & _ & H).
    + apply wfb_wf. vm_compute. reflexivity.
    + rewrite H. reflexivity.
Defined.

Lemma commaFree_append (a b : string) :
  commaFree (String.append a b) = (commaFree a && commaFree b)%bool.
Proof.
  induction a as [|c a IH]; [reflexivity|]. rewrite append_cons. cbn [commaFree].
  rewrite IH. now rewrite andb_assoc.
Qed.

Lemma splitComma_single (k : string) : commaFree k = true -> splitComma k = [k].
Proof.
  induction k as [|c k IH]; intros H; [reflexivity|].
  cbn [commaFree] in H. apply andb_prop in H as [Hc Hk]. cbn [splitComma].
  destruct (Ascii.eqb c ","%char); [discriminate|]. now rewrite (IH Hk).
Qed.

Lemma splitComma_cons (k rest : string) :
  commaFree k = true ->
  splitComma (String.append k (String "," rest)) = k :: splitComma rest.
Proof.
  induction k as [|c k IH]; intros H.
  - reflexivity.
  - cbn [commaFree] in H. apply andb_prop in H as [Hc Hk].
    rewrite append_cons. cbn [splitComma].
    destruct (Ascii.eqb c ","%char); [discriminate|]. now rewrite (IH Hk).
Qed.

Lemma splitComma_join (ks : list string) :
  ks <> [] -> Forall (fun k => commaFree k = true) ks -> splitComma (joinComma ks) = ks.
Proof.
  induction ks as [|k ks IH]; intros Hne Hall; [contradiction|].
  apply Forall_cons_1 in Hall as [Hk Hks].
  destruct ks as [|k' ks].
  - now apply splitComma_single.
  - cbn [joinComma]. rewrite splitComma_cons by exact Hk. f_equal.
    apply IH; [discriminate | exact Hks].
Qed.

Lemma trimmed_keys_kept (l : list string) :
  Forall (fun k => JsString.trim k = k /\ JsString.nonEmpty k = true) l ->
  List.filter JsString.nonEmpty (List.map JsString.trim l) = l.
Proof.
  induction 1 as [|x l [Ht Hx] _ IH]; [reflexivity|].
  cbn [List.map List.filter]. rewrite Ht, Hx. now rewrite IH.
Qed.

(** X7: the constructor reads back a comma-separated key string: for keys
    that are non-empty, free of commas and of surrounding white space,
    parsing their [join(',')] gives the keys again, in order, and so does
    passing them as an array. *)
Theorem parseKeys_join (ks : list string) :
  Forall (fun k => commaFree k = true /\ JsString.trim k = k
                   /\ JsString.nonEmpty k = true) ks ->
  _parseKeys (KeysString (joinComma ks)) = ks
  /\ _parseKeys (KeysArray ks) = ks
  /\ keys (create "svc" (KeysString (joinComma ks)) None) = ks.
Proof.
  intros Hall.
  assert (Hs : _parseKeys (KeysString (joinComma ks)) = ks).
  { destruct ks as [|k ks]; [reflexivity|]. cbn [_parseKeys].
    assert (Hne : JsString.nonEmpty (joinComma (k :: ks)) = true).
    { apply Forall_cons_1 in Hall as [(_ & _ & Hk) _].
      destruct k; [discriminate|]. cbn [joinComma]. now destruct ks. }
    rewrite Hne, splitComma_join.
    - apply trimmed_keys_kept.
      eapply Forall_impl; [exact Hall|]. intros x (_ & Ht & Hx). now split.
    - discriminate.
    - eapply Forall_impl; [exact Hall|]. intros x Hx. apply Hx. }
  split; [exact Hs|]. split; [|exact Hs].
  cbn [_parseKeys]. clear Hs. induction Hall as [|x l (_ & Ht & Hx) _ IH]; [reflexivity|].
  cbn [List.filter]. rewrite Ht, Hx. cbn [andb]. now rewrite IH.
Qed.

Lemma parseKeys_join_witness :
  _parseKeys (KeysString "k-1,k-2,k-3") = ["k-1"; "k-2"; "k-3"].
Proof.
  apply (parseKeys_join ["k-1"; "k-2"; "k-3"]).
  repeat constructor.
Defined.

(** Whatever the input, the parsed keys are never empty, and keys parsed
    from a string carry no comma. *)
Lemma parseKeys_nonEmpty (input : KeysInput) :
  Forall (fun k => JsString.nonEmpty k = true) (_parseKeys input).
Proof.
  destruct input as [|s|l]; cbn [_parseKeys].
  - constructor.
  - destruct (JsString.nonEmpty s); [|constructor].
    apply List.Forall_forall. intros k Hk. now apply List.filter_In in Hk.
  - apply List.Forall_forall. intros k Hk. apply List.filter_In in Hk as [_ Hk].
    now apply andb_prop in Hk.
Qed.

End PoolRotation.

(** ** executeWithKeyManager *)

Section Execute.

Import KeyManager KeyManagerExt Spec.

Lemma executeLoop_outcome {T : Type} (service : string)
      (requestFn : nat -> string -> RequestOutcome T) (nowGet nowMark : nat -> Z)
      (remaining : nat) :
  forall (attempt : nat) (lastError : option JsError) (m : t),
    wf m ->
    match lastError with
    | Some e => exists a key sc, (a < attempt)%nat /\ requestFn a key = RejectedWith e sc
    | None => True
    end ->
    let out := executeLoop service requestFn nowGet nowMark remaining attempt lastError m in
    wf (snd out) /\ keys (snd out) = keys m
    /\ match fst out with
       | Normal v =>
           exists a key, (attempt <= a < attempt + remaining)%nat
                         /\ In key (keys m) /\ requestFn a key = Resolved v
       | Throw e =>
           e = mkError (String.append "[" (String.append service "] No available API key"))
                       None
           \/ (exists a key sc, (a < attempt + remaining)%nat
                                /\ requestFn a key = RejectedWith e sc)
           \/ (remaining = 0%nat /\ lastError = None)
       end.
Proof.
  induction remaining as [|r IH]; intros attempt lastError m Hwf Hlast; cbv zeta.
  - cbn [executeLoop fst snd]. split; [exact Hwf|]. split; [reflexivity|].
    destruct lastError as [e|]; cbn [from_option id].
    + right. left. destruct Hlast as (a & key & sc & Ha & Hr).
      exists a, key, sc. split; [lia | exact Hr].
    + right. right. now split.
  - cbn [executeLoop].
    destruct (getNextKey_normal (nowGet attempt) m Hwf) as (res & m1 & Hget & Hwf1 & Hk1).
    rewrite Hget. destruct res as [key|].
    2: { cbn [fst snd]. split; [exact Hwf1|]. split; [exact Hk1|]. now left. }
    destruct (JsString.nonEmpty key); cbn [negb].
    2: { cbn [fst snd]. split; [exact Hwf1|]. split; [exact Hk1|]. now left. }
    pose proof (getNextKey_key_in _ _ _ _ Hget) as Hin.
    destruct (requestFn attempt key) as [v|err sc] eqn:Ereq.
    + cbn [fst snd]. split; [now apply wf_markSuccess|].
      split; [now rewrite keys_markSuccess|].
      exists attempt, key. split; [lia|]. now split.
    + destruct (isKeyRelatedError (statusOf err sc) (OfError err)).
      * specialize (IH (S attempt) (Some err) (markFailure (nowMark attempt) key m1)
                       (wf_markFailure _ _ _ Hwf1)).
        destruct IH as (Hw & Hk & Hout).
        { exists attempt, key, sc. split; [lia | exact Ereq]. }
        split; [exact Hw|]. split; [now rewrite Hk, keys_markFailure|].
        destruct (fst (executeLoop service requestFn nowGet nowMark r (S attempt)
                         (Some err) (markFailure (nowMark attempt) key m1))) as [v|e].
        -- destruct Hout as (a & key' & Ha & Hin' & Hr). exists a, key'.
           split; [lia|]. split; [|exact Hr].
           now rewrite keys_markFailure, Hk1 in Hin'.
        -- destruct Hout as [->|[(a & key' & sc' & Ha & Hr)|[_ Hn]]];
             [now left | | discriminate].
           right. left. exists a, key', sc'. split; [lia | exact Hr].
      * cbn [fst snd]. split; [exact Hwf1|]. split; [exact Hk1|].
        right. left. exists attempt, key, sc. split; [lia | exact Ereq].
Qed.

(** X8: on a well-formed pool [executeWithKeyManager] returns a value only
    if one of at most [min(n, 3)] requests resolved to it, made with a key
    of the pool; and what it throws is the error of one of those requests,
    or the "no API keys configured" / "no available API key" error.  The
    "all keys exhausted" fallback is never thrown. *)
Theorem executeWithKeyManager_outcome {T : Type} (service : string)
        (requestFn : nat -> string -> RequestOutcome T) (nowGet nowMark : nat -> Z)
        (m : t) :
  wf m ->
  let out := executeWithKeyManager service requestFn nowGet nowMark m in
  let tries := Nat.min (List.length (keys m)) 3 in
  wf (snd out) /\ keys (snd out) = keys m
  /\ match fst out with
     | Normal v =>
         exists a key, (a < tries)%nat /\ In key (keys m) /\ requestFn a key = Resolved v
     | Throw e =>
         (keys m = []
          /\ e = mkError (String.append "[" (String.append service "] No API keys configured"))
                         None)
         \/ e = mkError (String.append "[" (String.append service "] No available API key"))
                        None
         \/ (exists a key sc, (a < tries)%nat /\ requestFn a key = RejectedWith e sc)
     end.
Proof.
  intros Hwf. cbv zeta. unfold executeWithKeyManager.
  destruct (keys m) as [|k ks] eqn:Ek.
  - cbn [fst snd]. split; [exact Hwf|]. split; [exact Ek|]. left. now split.
  - rewrite <- Ek.
    destruct (executeLoop_outcome service requestFn nowGet nowMark
                (Nat.min (List.length (keys m)) 3) 0 None m Hwf I) as (Hw & Hk & Hout).
    split; [exact Hw|]. split; [exact Hk|].
    destruct (fst (executeLoop service requestFn nowGet nowMark
                     (Nat.min (List.length (keys m)) 3) 0 None m)) as [v|e].
    + destruct Hout as (a & key & Ha & Hin & Hr). exists a, key. split; [lia|]. now split.
    + destruct Hout as [->|[(a & key & sc & Ha & Hr)|[Hn _]]].
      * right. now left.
      * right. right. exists a, key, sc. split; [lia | exact Hr].
      * rewrite Ek in Hn. simpl in Hn. lia.
Qed.

Lemma executeWithKeyManager_outcome_witness :
  fst (executeWithKeyManager "ipqs"
         (fun a key => if Nat.eqb a 0
                       then RejectedWith (mkError "HTTP 429" (Some 429)) None
                       else Resolved key)
         (fun _ => 1000) (fun _ => 1000) Examples.pool2)
  = Normal "K2".
Proof.
  pose proof (executeWithKeyManager_outcome "ipqs"
                (fun a key => if Nat.eqb a 0
                              then RejectedWith (mkError "HTTP 429" (Some 429)) None
                              else Resolved key)
                (fun _ => 1000) (fun _ => 1000) Examples.pool2
                ltac:(apply wfb_wf; vm_compute; reflexivity)) as (_ & _ & H).
  destruct (fst _) as [v|e] eqn:E in H |- *; vm_compute in E; [|discriminate E].
  now injection E as <-.
Defined.

End Execute.

(** * The batch paths of core/batchCheck.ts *)

Section Batch.

Import ApiClient BatchCheck BatchCheckExt.

Variable check : string -> JsValue -> Completion IpApiCheckResult.

Lemma uniqueItems_first (items : list IpAsnItem) :
  forall seen ip,
    firstItem ip (uniqueItems seen items) =
    if bool_decide (ip ∈ seen) then None else firstItem ip items.
Proof.
  unfold firstItem.
  induction items as [|item rest IH]; intros seen ip; cbn [uniqueItems List.find].
  - destruct (bool_decide (ip ∈ seen)); reflexivity.
  - destruct (bool_decide_reflect (ia_ip item ∈ seen)) as [Hin|Hin].
    + rewrite IH. destruct (bool_decide_reflect (ip ∈ seen)) as [Hs|Hs]; [reflexivity|].
      destruct (String.eqb_spec (ia_ip item) ip) as [E|E]; [|reflexivity].
      subst ip. contradiction.
    + cbn [List.find].
      destruct (String.eqb_spec (ia_ip item) ip) as [E|E].
      * subst ip. rewrite bool_decide_eq_false_2 by exact Hin. reflexivity.
      * rewrite IH.
        destruct (bool_decide_reflect (ip ∈ seen)) as [Hs|Hs].
        -- rewrite bool_decide_eq_true_2; [reflexivity|].
           apply elem_of_union. right. exact Hs.
        -- rewrite bool_decide_eq_false_2; [reflexivity|].
           intros H. apply elem_of_union in H. destruct H as [H|H]; [|contradiction].
           apply elem_of_singleton in H. congruence.
Qed.

Lemma uniqueItems_seen (items : list IpAsnItem) :
  forall seen u, In u (uniqueItems seen items) -> ia_ip u ∉ seen.
Proof.
  induction items as [|item rest IH]; intros seen u; cbn [uniqueItems]; [intros []|].
  destruct (bool_decide_reflect (ia_ip item ∈ seen)) as [Hin|Hin].
  - apply IH.
  - intros [E|H]; [subst u; exact Hin|].
    apply IH in H. intros Hs. apply H. apply elem_of_union. right. exact Hs.
Qed.

Lemma uniqueItems_NoDup (items : list IpAsnItem) :
  forall seen, List.NoDup (List.map ia_ip (uniqueItems seen items)).
Proof.
  induction items as [|item rest IH]; intros seen; cbn [uniqueItems List.map].
  - constructor.
  - destruct (bool_decide_reflect (ia_ip item ∈ seen)) as [Hin|Hin]; [apply IH|].
    cbn [List.map]. constructor; [|apply IH].
    intros H. apply in_map_iff in H. destruct H as (u & E & Hu).
    apply uniqueItems_seen in Hu. apply Hu. rewrite E.
    apply elem_of_union. left. apply elem_of_singleton. reflexivity.
Qed.

Lemma uniqueItems_sub (items : list IpAsnItem) :
  forall seen u, In u (uniqueItems seen items) -> In u items.
Proof.
  induction items as [|item rest IH]; intros seen u; cbn [uniqueItems]; [intros []|].
  destruct (bool_decide (ia_ip item ∈ seen)).
  - intros H. right. eapply IH, H.
  - intros [E|H]; [left; exact E|right; eapply IH, H].
Qed.

Lemma promiseAll_normal {A B : Type} (f : A -> Completion B) (l : list A) :
  (forall x, In x l -> exists r, f x = Normal r) ->
  exists rs, promiseAll (List.map f l) = Normal rs /\
             List.Forall2 (fun x r => f x = Normal r) l rs.
Proof.
  induction l as [|x l IH]; intros H; cbn [List.map promiseAll].
  - exists []. split; [reflexivity|constructor].
  - destruct (H x (or_introl eq_refl)) as (r & Hr).
    destruct IH as (rs & E & F); [intros y Hy; apply H; right; exact Hy|].
    exists (r :: rs). rewrite Hr. cbn [bindC]. rewrite E. cbn [bindC].
    split; [reflexivity|constructor; assumption].
Qed.

Lemma promiseAll_throw {A B : Type} (f : A -> Completion B) (l : list A) x e :
  In x l -> f x = Throw e -> exists e', promiseAll (List.map f l) = Throw e'.
Proof.
  induction l as [|y l IH]; [intros []|].
  intros Hin Hx. cbn [List.map promiseAll].
  destruct (f y) as [v|e0] eqn:Ey; cbn [bindC]; [|eexists; reflexivity].
  destruct Hin as [E|Hin]; [subst y; congruence|].
  destruct (IH Hin Hx) as (e' & E'). rewrite E'. cbn [bindC]. eexists; reflexivity.
Qed.

Hypothesis check_ip : forall ip asn r, check ip asn = Normal r -> r_ip r = ip.

Lemma index_lookup (us : list IpAsnItem) (rs : list IpApiCheckResult) :
  List.Forall2 (fun u r => check (ia_ip u) (ia_asn u) = Normal r) us rs ->
  List.NoDup (List.map ia_ip us) ->
  forall (acc : gmap string IpApiCheckResult) ip,
    (forall u, firstItem ip us = Some u ->
               exists r, check (ia_ip u) (ia_asn u) = Normal r /\
                         fold_left (fun acc r => <[r_ip r := r]> acc) rs acc !! ip = Some r) /\
    (firstItem ip us = None ->
     fold_left (fun acc r => <[r_ip r := r]> acc) rs acc !! ip = acc !! ip).
Proof.
  unfold firstItem.
  induction 1 as [|u r us rs Hr F IH]; intros Hnd acc ip; cbn [List.find fold_left].
  - split; [discriminate|reflexivity].
  - cbn [List.map] in Hnd. inversion Hnd as [|? ? Hnot Hnd']; subst.
    pose proof (check_ip _ _ _ Hr) as Hip.
    destruct (IH Hnd' (<[r_ip r := r]> acc) ip) as [IH1 IH2].
    destruct (String.eqb_spec (ia_ip u) ip) as [E|E].
    + split; [|discriminate].
      intros u' Hu'. injection Hu' as <-. exists r. split; [exact Hr|].
      rewrite IH2.
      * rewrite Hip, E. apply lookup_insert_eq.
      * destruct (List.find (fun it => String.eqb (ia_ip it) ip) us) as [u'|] eqn:Ef;
          [|reflexivity].
        apply find_some in Ef. destruct Ef as [Hin Heq].
        apply String.eqb_eq in Heq. exfalso. apply Hnot.
        apply in_map_iff. exists u'. split; [congruence|exact Hin].
    + split; [exact IH1|].
      intros Hn. rewrite (IH2 Hn). apply lookup_insert_ne. congruence.
Qed.

Lemma firstItem_some (items : list IpAsnItem) item :
  In item items -> exists first, firstItem (ia_ip item) items = Some first /\
                                 In first items /\ ia_ip first = ia_ip item.
Proof.
  intros Hin. unfold firstItem.
  destruct (List.find (fun it => String.eqb (ia_ip it) (ia_ip item)) items) as [f|] eqn:E.
  - apply find_some in E. destruct E as [Hf He]. apply String.eqb_eq in He.
    exists f. auto.
  - exfalso. pose proof (find_none _ _ E _ Hin) as H. cbn in H.
    rewrite String.eqb_refl in H. discriminate.
Qed.

(** What [batchCheckIPs] returns when every check returns. *)
Lemma batchCheckIPs_normal (items : list IpAsnItem) :
  (forall item, In item items -> exists r, check (ia_ip item) (ia_asn item) = Normal r) ->
  exists resultMap : gmap string IpApiCheckResult,
    batchCheckIPs check items = Normal (List.map (fun item => resultMap !! ia_ip item) items) /\
    forall item, In item items ->
      exists first r, firstItem (ia_ip item) items = Some first /\
                      check (ia_ip item) (ia_asn first) = Normal r /\
                      resultMap !! ia_ip item = Some r.
Proof.
  intros Hok. unfold batchCheckIPs.
  destruct (promiseAll_normal (fun item => check (ia_ip item) (ia_asn item))
              (uniqueItems ∅ items)) as (rs & E & F).
  { intros x Hx. apply Hok. eapply uniqueItems_sub, Hx. }
  rewrite E. cbn [bindC]. exists (indexByIp rs). split; [reflexivity|].
  intros item Hin.
  destruct (firstItem_some items item Hin) as (first & Hf & Hfin & Hfip).
  destruct (index_lookup _ _ F (uniqueItems_NoDup items ∅) ∅ (ia_ip item)) as [H1 _].
  destruct (H1 first) as (r & Hr & Hl).
  { rewrite uniqueItems_first. rewrite bool_decide_eq_false_2; [exact Hf|].
    apply not_elem_of_empty. }
  exists first, r. split; [exact Hf|]. split; [|exact Hl].
  rewrite <- Hfip. exact Hr.
Qed.

(** X9: when every check returns a result for the address it was asked
    about, [batchCheckIPs] returns one result per input item, in input
    order; the result of an item is that of the single check made for its
    address, which was given the ASN of the first item with that address. *)
Theorem batchCheckIPs_spec (items : list IpAsnItem) :
  (forall item, In item items -> exists r, check (ia_ip item) (ia_asn item) = Normal r) ->
  exists results,
    batchCheckIPs check items = Normal results /\
    List.length results = List.length items /\
    forall (i : nat) item, items !! i = Some item ->
      exists first r, firstItem (ia_ip item) items = Some first /\
                      check (ia_ip item) (ia_asn first) = Normal r /\
                      results !! i = Some (Some r).
Proof.
  intros Hok. destruct (batchCheckIPs_normal items Hok) as (resultMap & E & H).
  eexists. split; [exact E|]. split; [apply length_map|].
  intros i item Hi.
  destruct (H item) as (first & r & Hf & Hr & Hl).
  { apply list_elem_of_In. eapply list_elem_of_lookup_2, Hi. }
  exists first, r. split; [exact Hf|]. split; [exact Hr|].
  change (List.map ?f ?l) with (f <$> l).
  rewrite list_lookup_fmap, Hi. cbn. rewrite Hl. reflexivity.
Qed.

(** X10: a check that throws for the first item of some address makes
    the whole batch throw: no partial result is returned. *)
Theorem batchCheckIPs_all_or_nothing (items : list IpAsnItem) item e :
  firstItem (ia_ip item) items = Some item ->
  check (ia_ip item) (ia_asn item) = Throw e ->
  exists e', batchCheckIPs check items = Throw e'.
Proof.
  intros Hf Ht. unfold batchCheckIPs.
  destruct (promiseAll_throw (fun item => check (ia_ip item) (ia_asn item))
              (uniqueItems ∅ items) item e) as (e' & E); [|exact Ht|].
  - assert (H : firstItem (ia_ip item) (uniqueItems ∅ items) = Some item).
    { rewrite uniqueItems_first, bool_decide_eq_false_2; [exact Hf|].
      apply not_elem_of_empty. }
    unfold firstItem in H. apply find_some in H. apply H.
  - rewrite E. cbn [bindC]. eexists; reflexivity.
Qed.

End Batch.

Lemma batchCheckIPs_spec_witness :
  exists results,
    BatchCheckExt.batchCheckIPs ExamplesExt.checkOffline ExamplesExt.dupItems
    = Normal results /\
    List.length results = List.length ExamplesExt.dupItems /\
    forall (i : nat) item, ExamplesExt.dupItems !! i = Some item ->
      exists first r,
        BatchCheckExt.firstItem (BatchCheckExt.ia_ip item) ExamplesExt.dupItems = Some first /\
        ExamplesExt.checkOffline (BatchCheckExt.ia_ip item) (BatchCheckExt.ia_asn first)
        = Normal r /\
        results !! i = Some (Some r).
Proof.
  apply (batchCheckIPs_spec ExamplesExt.checkOffline).
  - intros ip asn r H. injection H as <-. reflexivity.
  - intros item _. eexists. reflexivity.
Defined.

Lemma batchCheckIPs_all_or_nothing_witness :
  exists e', BatchCheckExt.batchCheckIPs ExamplesExt.checkFailing ExamplesExt.dupItems
             = Throw e'.
Proof.
  apply (batchCheckIPs_all_or_nothing ExamplesExt.checkFailing ExamplesExt.dupItems
           (BatchCheckExt.mkItem "1.1.1.1" JUndefined) (mkError "internal error" None)).
  - reflexivity.
  - reflexivity.
Defined.

Section CheckExits.

Import ApiClient BatchCheck BatchCheckExt.

Variable check : string -> JsValue -> Completion IpApiCheckResult.

Lemma inlineSourceInfo_eq merged : inlineSourceInfo merged = buildIpSourceInfo merged.
Proof. reflexivity. Qed.

Lemma exitItems_unique (exits : list ExitItem) :
  forall seen, exitItems seen exits = uniqueItems seen (List.map itemOfExit exits).
Proof.
  induction exits as [|e rest IH]; intros seen; cbn [exitItems uniqueItems List.map];
    [reflexivity|].
  cbn [itemOfExit ia_ip]. destruct (bool_decide (cf_ip (cfData e) ∈ seen)).
  - apply IH.
  - f_equal. apply IH.
Qed.

Lemma uniqueItems_fixed (l : list IpAsnItem) :
  forall seen, List.NoDup (List.map ia_ip l) ->
               (forall u, In u l -> ia_ip u ∉ seen) ->
               uniqueItems seen l = l.
Proof.
  induction l as [|u l IH]; intros seen Hnd Hs; cbn [uniqueItems]; [reflexivity|].
  cbn [List.map] in Hnd. inversion Hnd as [|? ? Hnot Hnd']; subst.
  rewrite bool_decide_eq_false_2 by (apply Hs; left; reflexivity).
  f_equal. apply IH; [exact Hnd'|].
  intros v Hv Hin. apply elem_of_union in Hin. destruct Hin as [Hin|Hin].
  - apply elem_of_singleton in Hin. apply Hnot. apply in_map_iff. exists v. auto.
  - eapply Hs; [right; exact Hv|exact Hin].
Qed.

Lemma firstItem_exits ip (exits : list ExitItem) :
  firstItem ip (List.map itemOfExit exits) = itemOfExit <$> firstExit ip exits.
Proof.
  unfold firstItem, firstExit.
  induction exits as [|e rest IH]; cbn [List.map List.find]; [reflexivity|].
  cbn [itemOfExit ia_ip]. destruct (String.eqb (cf_ip (cfData e)) ip); [reflexivity|exact IH].
Qed.

Lemma firstExit_some (exits : list ExitItem) e :
  In e exits -> exists first, firstExit (cf_ip (cfData e)) exits = Some first /\
                              In first exits /\ cf_ip (cfData first) = cf_ip (cfData e).
Proof.
  intros Hin. unfold firstExit.
  destruct (List.find (fun x => String.eqb (cf_ip (cfData x)) (cf_ip (cfData e))) exits)
    as [f|] eqn:E.
  - apply find_some in E. destruct E as [Hf He]. apply String.eqb_eq in He.
    exists f. auto.
  - exfalso. pose proof (find_none _ _ E _ Hin) as H. cbn in H.
    rewrite String.eqb_refl in H. discriminate.
Qed.

Lemma indexResults_lookup (resultMap : gmap string IpApiCheckResult) (l : list IpAsnItem) :
  (forall item, In item l ->
                exists r, resultMap !! ia_ip item = Some r /\ r_ip r = ia_ip item) ->
  forall acc, exists m,
    indexResults (List.map (fun item => resultMap !! ia_ip item) l) acc = Normal m /\
    forall ip, (In ip (List.map ia_ip l) -> m !! ip = resultMap !! ip) /\
               (~ In ip (List.map ia_ip l) -> m !! ip = acc !! ip).
Proof.
  induction l as [|u l IH]; intros H acc; cbn [List.map indexResults].
  - exists acc. split; [reflexivity|]. intros ip. split; [intros []|reflexivity].
  - destruct (H u (or_introl eq_refl)) as (r & Hr & Hip). rewrite Hr.
    destruct (IH (fun item Hi => H item (or_intror Hi)) (<[r_ip r := r]> acc))
      as (m & E & Hm).
    exists m. split; [exact E|]. intros ip.
    destruct (Hm ip) as [Hm1 Hm2].
    destruct (in_dec String.string_dec ip (List.map ia_ip l)) as [Hin|Hin].
    + split; [intros _; apply Hm1, Hin|]. intros Hn. exfalso. apply Hn. right. exact Hin.
    + rewrite (Hm2 Hin). split.
      * intros [E'|Hc]; [|contradiction]. rewrite Hip, E'.
        rewrite lookup_insert_eq. rewrite <- E'. symmetry. exact Hr.
      * intros Hn. apply lookup_insert_ne. rewrite Hip. intros E'. apply Hn. left. exact E'.
Qed.

Lemma sourceInfos_lookup (apiResultMap : gmap string IpApiCheckResult) (l : list IpAsnItem) :
  (forall item, In item l ->
                exists r info, apiResultMap !! ia_ip item = Some r /\
                               buildIpSourceInfo (merged r) = Normal info) ->
  forall acc : gmap string IpSourceInfo, exists im,
    sourceInfos l apiResultMap acc = Normal im /\
    forall ip, (In ip (List.map ia_ip l) ->
                exists r info, apiResultMap !! ip = Some r /\
                               buildIpSourceInfo (merged r) = Normal info /\
                               im !! ip = Some info) /\
               (~ In ip (List.map ia_ip l) -> im !! ip = acc !! ip).
Proof.
  induction l as [|u l IH]; intros H acc; cbn [List.map sourceInfos].
  - exists acc. split; [reflexivity|]. intros ip. split; [intros []|reflexivity].
  - destruct (H u (or_introl eq_refl)) as (r & info & Hr & Hinfo). rewrite Hr.
    rewrite inlineSourceInfo_eq, Hinfo. cbn [bindC].
    destruct (IH (fun item Hi => H item (or_intror Hi)) (<[ia_ip u := info]> acc))
      as (im & E & Him).
    exists im. split; [exact E|]. intros ip.
    destruct (Him ip) as [H1 H2].
    destruct (in_dec String.string_dec ip (List.map ia_ip l)) as [Hin|Hin].
    + split; [intros _; apply H1, Hin|]. intros Hn. exfalso. apply Hn. right. exact Hin.
    + rewrite (H2 Hin). split.
      * intros [E'|Hc]; [|contradiction]. subst ip. exists r, info.
        split; [exact Hr|]. split; [exact Hinfo|]. apply lookup_insert_eq.
      * intros Hn. apply lookup_insert_ne. intros E'. apply Hn. left. exact E'.
Qed.

Lemma processCheckExits_body (exits : list ExitItem) :
  processCheckExits check exits =
  (let ipAsnItems := exitItems ∅ exits in
   run apiResults <- batchCheckIPs check ipAsnItems;
   run apiResultMap <- indexResults apiResults ∅;
   run ipSourceInfoMap <- sourceInfos ipAsnItems apiResultMap ∅;
   Normal (List.map (exitResult apiResultMap ipSourceInfoMap) exits)).
Proof. destruct exits; reflexivity. Qed.

Hypothesis check_ip : forall ip asn r, check ip asn = Normal r -> r_ip r = ip.

(** What [processCheckExits] returns when every check returns and the
    source judgments can be built. *)
Lemma processCheckExits_normal (exits : list ExitItem) :
  (forall e, In e exits ->
             exists r info, check (cf_ip (cfData e)) (asnOf (cfData e)) = Normal r /\
                            buildIpSourceInfo (merged r) = Normal info) ->
  exists result : ExitItem -> ExitResultItem,
    processCheckExits check exits = Normal (List.map result exits) /\
    forall e, In e exits ->
      exists first r info,
        firstExit (cf_ip (cfData e)) exits = Some first /\
        check (cf_ip (cfData e)) (asnOf (cfData first)) = Normal r /\
        buildIpSourceInfo (merged r) = Normal info /\
        result e = mergeExitData (exitType e) (cfData e) r info.
Proof.
  intros Hok. rewrite processCheckExits_body. cbv zeta.
  rewrite exitItems_unique.
  set (U := uniqueItems ∅ (List.map itemOfExit exits)).
  assert (HU : forall u, In u U -> exists e, In e exits /\ u = itemOfExit e).
  { intros u Hu. apply uniqueItems_sub in Hu. apply in_map_iff in Hu.
    destruct Hu as (e & E & He). exists e. auto. }
  assert (HUU : uniqueItems ∅ U = U).
  { apply uniqueItems_fixed; [apply uniqueItems_NoDup|].
    intros u _. apply not_elem_of_empty. }
  assert (Hfirst : forall ip, firstItem ip U = itemOfExit <$> firstExit ip exits).
  { intros ip. unfold U. rewrite uniqueItems_first, bool_decide_eq_false_2
      by apply not_elem_of_empty. apply firstItem_exits. }
  destruct (batchCheckIPs_normal check check_ip U) as (resultMap & E & Hres).
  { intros u Hu. destruct (HU u Hu) as (e & He & ->).
    destruct (Hok e He) as (r & _ & Hr & _). exists r. exact Hr. }
  assert (Hkey : forall u, In u U ->
                   exists fe r info,
                     firstExit (ia_ip u) exits = Some fe /\
                     check (ia_ip u) (asnOf (cfData fe)) = Normal r /\
                     buildIpSourceInfo (merged r) = Normal info /\
                     resultMap !! ia_ip u = Some r /\ r_ip r = ia_ip u).
  { intros u Hu. destruct (Hres u Hu) as (first & r & Hf & Hr & Hl).
    rewrite Hfirst in Hf.
    destruct (firstExit (ia_ip u) exits) as [fe|] eqn:Efe; [|discriminate].
    cbn in Hf. injection Hf as <-. cbn [itemOfExit ia_asn] in Hr.
    pose proof Efe as Hfe. unfold firstExit in Hfe. apply find_some in Hfe.
    destruct Hfe as [Hfin Hfeq]. apply String.eqb_eq in Hfeq.
    destruct (Hok fe Hfin) as (r' & info & Hr' & Hinfo).
    rewrite Hfeq in Hr'. assert (r' = r) by congruence. subst r'.
    exists fe, r, info. repeat split; try assumption.
    eapply check_ip, Hr. }
  rewrite E. cbn [bindC].
  destruct (indexResults_lookup resultMap U) with (acc := (∅ : gmap string IpApiCheckResult))
    as (m & Em & Hm).
  { intros u Hu. destruct (Hkey u Hu) as (fe & r & info & _ & _ & _ & Hl & Hip).
    exists r. auto. }
  rewrite Em. cbn [bindC].
  assert (Hin : forall u, In u U -> In (ia_ip u) (List.map ia_ip U)).
  { intros u Hu. apply in_map. exact Hu. }
  destruct (sourceInfos_lookup m U) with (acc := (∅ : gmap string IpSourceInfo))
    as (im & Eim & Him).
  { intros u Hu. destruct (Hkey u Hu) as (fe & r & info & _ & _ & Hinfo & Hl & _).
    exists r, info. split; [|exact Hinfo].
    destruct (Hm (ia_ip u)) as [Hm1 _]. rewrite (Hm1 (Hin u Hu)). exact Hl. }
  rewrite Eim. cbn [bindC].
  exists (exitResult m im). split; [reflexivity|].
  intros e He.
  destruct (firstExit_some exits e He) as (fe0 & Hfe0 & _ & _).
  assert (HinU : exists u, In u U /\ ia_ip u = cf_ip (cfData e)).
  { specialize (Hfirst (cf_ip (cfData e))). rewrite Hfe0 in Hfirst. cbn in Hfirst.
    unfold firstItem in Hfirst. apply find_some in Hfirst.
    destruct Hfirst as [Hu Hueq]. exists (itemOfExit fe0). split; [exact Hu|].
    apply String.eqb_eq in Hueq. exact Hueq. }
  destruct HinU as (u & Hu & Huip).
  destruct (Hkey u Hu) as (fe & r & info & Hfe & Hr & Hinfo & Hl & _).
  rewrite Huip in *.
  exists fe, r, info. split; [exact Hfe|]. split; [exact Hr|]. split; [exact Hinfo|].
  unfold exitResult.
  destruct (Hm (cf_ip (cfData e))) as [Hm1 _].
  assert (Hinip : In (cf_ip (cfData e)) (List.map ia_ip U)).
  { rewrite <- Huip. apply Hin, Hu. }
  rewrite (Hm1 Hinip), Hl.
  destruct (Him (cf_ip (cfData e))) as [Him1 _].
  destruct (Him1 Hinip) as (r2 & info2 & Hr2 & Hinfo2 & Hl2).
  rewrite (Hm1 Hinip), Hl in Hr2. injection Hr2 as <-.
  rewrite Hl2. cbn. congruence.
Qed.

(** X11: when every check returns a result for the address it was asked
    about and the source judgments can be built, [processCheckExits]
    returns one item per exit, in input order; an exit's item merges its
    own type and Cloudflare data with the check of its address, made with
    the ASN of the first exit carrying that address. *)
Theorem processCheckExits_spec (exits : list ExitItem) :
  (forall e, In e exits ->
             exists r info, check (cf_ip (cfData e)) (asnOf (cfData e)) = Normal r /\
                            buildIpSourceInfo (merged r) = Normal info) ->
  exists results,
    processCheckExits check exits = Normal results /\
    List.length results = List.length exits /\
    forall (i : nat) e, exits !! i = Some e ->
      exists first r info,
        firstExit (cf_ip (cfData e)) exits = Some first /\
        check (cf_ip (cfData e)) (asnOf (cfData first)) = Normal r /\
        buildIpSourceInfo (merged r) = Normal info /\
        results !! i = Some (mergeExitData (exitType e) (cfData e) r info).
Proof.
  intros Hok. destruct (processCheckExits_normal exits Hok) as (result & E & H).
  eexists. split; [exact E|]. split; [apply length_map|].
  intros i e Hi.
  destruct (H e) as (first & r & info & Hf & Hr & Hinfo & Hres).
  { apply list_elem_of_In. eapply list_elem_of_lookup_2, Hi. }
  exists first, r, info. split; [exact Hf|]. split; [exact Hr|]. split; [exact Hinfo|].
  change (List.map ?f ?l) with (f <$> l).
  rewrite list_lookup_fmap, Hi. cbn. rewrite Hres. reflexivity.
Qed.

(** X12: when, in addition, exits that share an address carry the same
    ASN, the batch path and the single-exit path agree: the item
    [processCheckExits] returns for an exit is the one [processSingleExit]
    returns for it. *)
Theorem processCheckExits_agrees_single (exits : list ExitItem) :
  (forall e, In e exits ->
             exists r info, check (cf_ip (cfData e)) (asnOf (cfData e)) = Normal r /\
                            buildIpSourceInfo (merged r) = Normal info) ->
  (forall e1 e2, In e1 exits -> In e2 exits ->
                 cf_ip (cfData e1) = cf_ip (cfData e2) ->
                 cf_asn (cfData e1) = cf_asn (cfData e2)) ->
  exists results,
    processCheckExits check exits = Normal results /\
    forall (i : nat) e, exits !! i = Some e ->
      exists item, processSingleExit check e = Normal item /\ results !! i = Some item.
Proof.
  intros Hok Hasn. destruct (processCheckExits_normal exits Hok) as (result & E & H).
  eexists. split; [exact E|].
  intros i e Hi.
  assert (He : In e exits).
  { apply list_elem_of_In. eapply list_elem_of_lookup_2, Hi. }
  destruct (H e He) as (first & r & info & Hf & Hr & Hinfo & Hres).
  unfold firstExit in Hf. apply find_some in Hf. destruct Hf as [Hfin Hfeq].
  apply String.eqb_eq in Hfeq.
  assert (Ea : asnOf (cfData first) = asnOf (cfData e)).
  { unfold asnOf. rewrite (Hasn first e Hfin He Hfeq). reflexivity. }
  rewrite Ea in Hr.
  exists (result e). split.
  - unfold processSingleExit. rewrite Hr. cbn [bindC]. rewrite Hinfo. cbn [bindC].
    rewrite Hres. reflexivity.
  - change (List.map ?f ?l) with (f <$> l).
    rewrite list_lookup_fmap, Hi. reflexivity.
Qed.

End CheckExits.

Lemma processCheckExits_spec_witness :
  exists results,
    BatchCheckExt.processCheckExits ExamplesExt.checkOffline Examples.dupExits
    = Normal results /\
    List.length results = List.length Examples.dupExits /\
    forall (i : nat) e, Examples.dupExits !! i = Some e ->
      exists first r info,
        BatchCheckExt.firstExit (BatchCheck.cf_ip (BatchCheck.cfData e)) Examples.dupExits
        = Some first /\
        ExamplesExt.checkOffline (BatchCheck.cf_ip (BatchCheck.cfData e))
          (BatchCheckExt.asnOf (BatchCheck.cfData first)) = Normal r /\
        BatchCheck.buildIpSourceInfo (BatchCheck.merged r) = Normal info /\
        results !! i
        = Some (BatchCheck.mergeExitData (BatchCheck.exitType e) (BatchCheck.cfData e) r info).
Proof.
  apply (processCheckExits_spec ExamplesExt.checkOffline).
  - intros ip asn r H. injection H as <-. reflexivity.
  - intros e He.
    repeat (destruct He as [<-|He];
            [eexists; eexists; split; [reflexivity|vm_compute; reflexivity]|]).
    destruct He.
Defined.

Lemma processCheckExits_agrees_single_witness :
  exists results,
    BatchCheckExt.processCheckExits ExamplesExt.checkOffline Examples.dupExits
    = Normal results /\
    forall (i : nat) e, Examples.dupExits !! i = Some e ->
      exists item, BatchCheckExt.processSingleExit ExamplesExt.checkOffline e = Normal item /\
                   results !! i = Some item.
Proof.
  apply (processCheckExits_agrees_single ExamplesExt.checkOffline).
  - intros ip asn r H. injection H as <-. reflexivity.
  - intros e He.
    repeat (destruct He as [<-|He];
            [eexists; eexists; split; [reflexivity|vm_compute; reflexivity]|]).
    destruct He.
  - intros e1 e2 H1 H2 _.
    repeat (destruct H1 as [<-|H1]; [repeat (destruct H2 as [<-|H2]; [reflexivity|]); destruct H2|]).
    destruct H1.
Defined.

(** * The aggregation of one address *)

Section Aggregation.

Import ApiClient BatchCheck SpecExt.

Lemma collect_fold (l : list Settled) :
  forall acc,
    fold_left collect l acc
    = ((fst acc ++ List.filter isSuccess (fulfilledValues l))%list,
       (snd acc ++ List.filter isError (fulfilledValues l))%list).
Proof.
  unfold fulfilledValues.
  induction l as [|r l IH]; intros [s e]; cbn [fold_left flat_map fst snd List.filter].
  - now rewrite !app_nil_r.
  - rewrite IH. destruct r as [v|reason]; [|reflexivity].
    cbn [collect fst snd app List.filter].
    assert (Hs : isSuccess v = match status v with success => true | error => false end)
      by reflexivity.
    assert (He : isError v = negb (isSuccess v)) by reflexivity.
    rewrite He, Hs.
    destruct (status v); cbn [fst snd negb]; now rewrite <- ?app_assoc.
Qed.

Lemma cacheKey_inj (ip ip' : string) :
  getMergedIpCacheKey ip = getMergedIpCacheKey ip' -> ip = ip'.
Proof.
  unfold getMergedIpCacheKey, CACHE_VERSION. cbv [String.append]. congruence.
Qed.

Lemma mergeResults_nil : mergeResults [] = ∅.
Proof. reflexivity. Qed.

(** X13: a result cached by one call is what the next call for the same
    address returns.  After a miss on a working KV namespace in which some
    provider answered or failed, any later call for that address, whatever
    ASN hint it carries and whatever the providers would answer, returns
    the same successful list, error list, merged record, ASN and total
    count, flagged as cached, and leaves the store as it is. *)
Theorem checkSingleIp_second_call (ip : string) (asn asn' : JsValue) (env env' : option string)
        (store : Cache.KV CachedMergedIpData) (providers providers' : Providers)
        (faults : Cache.KvFaults) (now now' : Z) :
  Cache.getThrows faults = false ->
  Cache.putThrows faults = false ->
  getCachedMergedIpData (Some store) ip faults = None ->
  let out1 := checkSingleIpWithCache ip asn env (Some store) providers faults now in
  let out2 := checkSingleIpWithCache ip asn' env' (snd out1) providers' faults now' in
  (successful (fst out1) <> [] \/ errors (fst out1) <> []) ->
  snd out2 = snd out1
  /\ partiallyFromCache (fst out2) = true
  /\ r_ip (fst out2) = ip
  /\ successful (fst out2) = successful (fst out1)
  /\ errors (fst out2) = errors (fst out1)
  /\ merged (fst out2) = merged (fst out1)
  /\ r_asn (fst out2) = r_asn (fst out1)
  /\ totalApiCount (fst out2) = totalApiCount (fst out1)
  /\ cachedApiCount (fst out2) = List.length (successful (fst out1)).
Proof.
  intros Hget Hput Hmiss. cbv zeta.
  remember (checkSingleIpWithCache ip asn env (Some store) providers faults now) as out1
    eqn:E1.
  unfold checkSingleIpWithCache in E1. rewrite Hmiss in E1. cbv zeta in E1.
  set (asn1 := jsOr _ _) in E1.
  set (p2 := if (truthy asn1 && _)%bool then _ else _) in E1.
  unfold setCachedMergedIpData in E1. rewrite Hput in E1.
  assert (Hhit : forall c ttl,
             getCachedMergedIpData
               (Some (<[getMergedIpCacheKey ip := (c, ttl)]> store)) ip faults = Some c).
  { intros c ttl. unfold getCachedMergedIpData. rewrite Hget.
    unfold Cache.KV in *. rewrite lookup_insert_eq. reflexivity. }
  destruct (fst p2) as [|s ss] eqn:Es; cbn [List.length Nat.ltb Nat.leb] in E1.
  - destruct (snd p2) as [|e es] eqn:Ee; cbn [List.length Nat.ltb Nat.leb] in E1;
      subst out1; cbn [fst snd successful errors].
    + intros [H|H]; congruence.
    + intros _. unfold checkSingleIpWithCache. rewrite Hhit. cbn. repeat split; reflexivity.
  - subst out1. cbn [fst snd successful errors]. intros _.
    unfold checkSingleIpWithCache. rewrite Hhit. cbn. repeat split; reflexivity.
Qed.

(** X14: a call for one address never changes what the cache holds for
    another address, whether it hits, misses, or the store fails. *)
Theorem checkSingleIp_other_addresses (ip ip' : string) (asn : JsValue) (env : option string)
        (kv : option (Cache.KV CachedMergedIpData)) (providers : Providers)
        (faults faults' : Cache.KvFaults) (now : Z) :
  ip' <> ip ->
  getCachedMergedIpData (snd (checkSingleIpWithCache ip asn env kv providers faults now))
                        ip' faults'
  = getCachedMergedIpData kv ip' faults'.
Proof.
  intros Hne. unfold checkSingleIpWithCache.
  destruct (getCachedMergedIpData kv ip faults); [reflexivity|]. cbv zeta. cbn [snd].
  assert (Hset : forall d ttl,
             getCachedMergedIpData (setCachedMergedIpData kv ip d ttl faults) ip' faults'
             = getCachedMergedIpData kv ip' faults').
  { intros d ttl. destruct kv as [store|]; [|reflexivity].
    unfold setCachedMergedIpData, getCachedMergedIpData.
    destruct (Cache.putThrows faults); [reflexivity|].
    destruct (Cache.getThrows faults'); [reflexivity|].
    unfold Cache.KV in *. rewrite lookup_insert_ne; [reflexivity|].
    intros E. apply cacheKey_inj in E. congruence. }
  repeat match goal with |- context [if ?b then _ else _] => destruct b end;
    rewrite ?Hset; reflexivity.
Qed.

(** X15: on a cache miss the two lists are a partition of the provider
    values that were looked at: [successful] is the sub-list of those with
    status success and [errors] the sub-list of those with status error,
    both in order, first wave before second wave; rejected promises are in
    neither list and are not counted.  The second wave is looked at exactly
    when the detected ASN is truthy and an ASN-dependent provider is
    enabled, and a truthy ASN hint of the caller is the detected ASN. *)
Theorem checkSingleIp_miss_lists (ip : string) (asn : JsValue) (env : option string)
        (kv : option (Cache.KV CachedMergedIpData)) (providers : Providers)
        (faults : Cache.KvFaults) (now : Z) :
  getCachedMergedIpData kv ip faults = None ->
  let r := fst (checkSingleIpWithCache ip asn env kv providers faults now) in
  successful r = List.filter isSuccess (consulted (r_asn r) providers)
  /\ errors r = List.filter isError (consulted (r_asn r) providers)
  /\ totalApiCount r = List.length (consulted (r_asn r) providers)
  /\ cachedApiCount r = 0%nat
  /\ merged r = mergeResults (successful r)
  /\ (truthy asn = true -> r_asn r = asn).
Proof.
  intros Hmiss. unfold checkSingleIpWithCache. rewrite Hmiss. cbv zeta.
  cbn [fst successful errors totalApiCount cachedApiCount merged r_asn].
  rewrite (collect_fold (phase1Results providers) ([], [])). cbn [fst snd app].
  set (asn1 := jsOr _ _).
  unfold consulted, secondWave.
  assert (H : forall b : bool,
             (if b then fold_left collect (asnResults providers (asnToString asn1))
                          (List.filter isSuccess (fulfilledValues (phase1Results providers)),
                           List.filter isError (fulfilledValues (phase1Results providers)))
              else (List.filter isSuccess (fulfilledValues (phase1Results providers)),
                    List.filter isError (fulfilledValues (phase1Results providers))))
             = (List.filter isSuccess
                  (fulfilledValues (phase1Results providers)
                   ++ (if b then fulfilledValues (asnResults providers (asnToString asn1))
                       else []))%list,
                List.filter isError
                  (fulfilledValues (phase1Results providers)
                   ++ (if b then fulfilledValues (asnResults providers (asnToString asn1))
                       else []))%list)).
  { intros [|].
    - rewrite collect_fold. cbn [fst snd]. now rewrite !List.filter_app.
    - now rewrite !app_nil_r. }
  rewrite H. cbn [fst snd].
  split; [reflexivity|]. split; [reflexivity|]. split.
  - set (l := (_ ++ _)%list). clearbody l. clear.
    induction l as [|v l IH]; [reflexivity|].
    cbn [List.filter]. unfold isError at 1. destruct (isSuccess v); cbn [negb List.length]; lia.
  - split; [reflexivity|]. split; [reflexivity|].
    intros Ht. unfold asn1, jsOr. repeat (rewrite Ht; cbv iota). reflexivity.
Qed.

End Aggregation.

Lemma checkSingleIp_second_call_witness :
  let out1 := BatchCheck.checkSingleIpWithCache "8.8.8.8" JUndefined None (Some ∅)
                Examples.mixedProviders Cache.noFaults 1000 in
  let out2 := BatchCheck.checkSingleIpWithCache "8.8.8.8" (JNum 15169) None (snd out1)
                (BatchCheck.mkProviders [] 0 (fun _ => [])) Cache.noFaults 2000 in
  BatchCheck.partiallyFromCache (fst out2) = true
  /\ BatchCheck.successful (fst out2) = BatchCheck.successful (fst out1)
  /\ BatchCheck.errors (fst out2) = BatchCheck.errors (fst out1).
Proof.
  cbv zeta.
  pose proof (checkSingleIp_second_call "8.8.8.8" JUndefined (JNum 15169) None None ∅
                Examples.mixedProviders (BatchCheck.mkProviders [] 0 (fun _ => []))
                Cache.noFaults 1000 2000 eq_refl eq_refl eq_refl) as H.
  cbv zeta in H. destruct H as (_ & H2 & _ & H4 & H5 & _).
  - left. vm_compute. discriminate.
  - split; [exact H2|]. split; [exact H4|exact H5].
Defined.

Lemma checkSingleIp_other_addresses_witness :
  BatchCheck.getCachedMergedIpData
    (snd (BatchCheck.checkSingleIpWithCache "8.8.8.8" JUndefined None (Some ∅)
            Examples.mixedProviders Cache.noFaults 1000))
    "1.1.1.1" Cache.noFaults
  = None.
Proof.
  rewrite (checkSingleIp_other_addresses "8.8.8.8" "1.1.1.1").
  - reflexivity.
  - discriminate.
Defined.

Lemma checkSingleIp_miss_lists_witness :
  let r := fst (BatchCheck.checkSingleIpWithCache "8.8.8.8" (JNum 15169) None None
                  Examples.mixedProviders Cache.noFaults 1000) in
  BatchCheck.totalApiCount r = 2%nat /\ BatchCheck.r_asn r = JNum 15169.
Proof.
  cbv zeta.
  pose proof (checkSingleIp_miss_lists "8.8.8.8" (JNum 15169) None None
                Examples.mixedProviders Cache.noFaults 1000 eq_refl) as H.
  cbv zeta in H. destruct H as (_ & _ & H3 & _ & _ & H6).
  split; [rewrite H3; vm_compute; reflexivity|apply H6; reflexivity].
Defined.

(** * Merging and sorting provider results *)

Section Merge.

Import ApiClient BatchCheck ApiClientExt SpecExt.

Lemma mergeResults_snoc (rs : list ApiResult) (r : ApiResult) :
  mergeResults (rs ++ [r])
  = match data r with
    | Some d => d ∪ mergeResults rs
    | None => mergeResults rs
    end.
Proof. unfold mergeResults. now rewrite fold_left_app. Qed.

Lemma mergeResults_snoc_lookup (rs : list ApiResult) (r : ApiResult) (k : string) :
  mergeResults (rs ++ [r]) !! k
  = match data r ≫= (fun d => d !! k) with
    | Some v => Some v
    | None => mergeResults rs !! k
    end.
Proof.
  rewrite mergeResults_snoc. destruct (data r) as [d|]; cbn; [|reflexivity].
  rewrite lookup_union. destruct (d !! k) as [v|] eqn:E; cbn.
  - now destruct (mergeResults rs !! k).
  - now destruct (mergeResults rs !! k).
Qed.

(** X16: in the merged record the last writer wins: a key has value [v]
    exactly when some result assigns it [v] and no later result of the
    list assigns that key; in particular every merged field comes from a
    result's data. *)
Theorem mergeResults_last_wins (rs : list ApiResult) (k : string) (v : JsValue) :
  mergeResults rs !! k = Some v <->
  exists pre r post d,
    rs = (pre ++ r :: post)%list /\ data r = Some d /\ d !! k = Some v
    /\ Forall (fun r' => ~ assigns k r') post.
Proof.
  induction rs as [|r rs IH] using rev_ind.
  - split.
    + cbn. rewrite lookup_empty. discriminate.
    + intros (pre & r & post & d & E & _). destruct pre; discriminate.
  - rewrite mergeResults_snoc_lookup. split.
    + destruct (data r) as [d|] eqn:Ed; cbn.
      * destruct (d !! k) as [v'|] eqn:Ek.
        -- intros H. injection H as ->. exists rs, r, [], d. auto.
        -- intros H. apply IH in H as (pre & r0 & post & d0 & -> & Hd0 & Hk0 & Hpost).
           exists pre, r0, (post ++ [r])%list, d0.
           split; [now rewrite <- app_assoc|]. split; [exact Hd0|]. split; [exact Hk0|].
           apply Forall_app. split; [exact Hpost|]. constructor; [|constructor].
           intros (d' & Hd' & [x Hx]). congruence.
      * intros H. apply IH in H as (pre & r0 & post & d0 & -> & Hd0 & Hk0 & Hpost).
        exists pre, r0, (post ++ [r])%list, d0.
        split; [now rewrite <- app_assoc|]. split; [exact Hd0|]. split; [exact Hk0|].
        apply Forall_app. split; [exact Hpost|]. constructor; [|constructor].
        intros (d' & Hd' & _). congruence.
    + intros (pre & r0 & post & d0 & E & Hd0 & Hk0 & Hpost).
      destruct post as [|p post _] using rev_ind.
      * apply app_inj_tail in E as [-> ->]. rewrite Hd0. cbn. now rewrite Hk0.
      * rewrite app_comm_cons, app_assoc in E. apply app_inj_tail in E as [-> ->].
        apply Forall_app in Hpost as [Hpost Hp]. apply Forall_cons_1 in Hp as [Hp _].
        assert (Hnone : data p ≫= (fun d => d !! k) = None).
        { destruct (data p) as [d|] eqn:Ed; [|reflexivity]. cbn.
          destruct (d !! k) as [x|] eqn:Ex; [|reflexivity].
          exfalso. apply Hp. exists d. eauto. }
        rewrite Hnone. apply IH. exists pre, r0, post, d0. auto.
Qed.

Lemma processApiResults_cons (r : Settled) (results : list Settled) :
  processApiResults (r :: results)
  = match r with
    | Fulfilled v =>
        if hasError v
        then (fst (processApiResults results),
              mkApiResult (source v) None None (error_msg v) error
              :: snd (processApiResults results))
        else (v :: fst (processApiResults results), snd (processApiResults results))
    | Rejected reason =>
        (fst (processApiResults results),
         errorResult "unknown" reason :: snd (processApiResults results))
    end.
Proof.
  unfold processApiResults. cbn [flat_map fst snd].
  destruct r as [v|reason]; [destruct (hasError v)|]; reflexivity.
Qed.

(** X17: [processApiResults] files every settled promise in exactly one
    of its two lists: a fulfilled value is in [successful] exactly when its
    error message is absent or empty (whatever its status says), and every
    other promise, the rejected ones included, gives one entry of [errors],
    which has status error and carries no data. *)
Theorem processApiResults_partition (results : list Settled) :
  let out := processApiResults results in
  (List.length (fst out) + List.length (snd out) = List.length results)%nat
  /\ (forall v, In v (fst out) <-> In (Fulfilled v) results /\ hasError v = false)
  /\ Forall (fun e => status e = error /\ data e = None) (snd out)
  /\ (forall reason, In (Rejected reason) results ->
                     In (errorResult "unknown" reason) (snd out))
  /\ (forall v, In (Fulfilled v) results -> hasError v = true ->
                In (mkApiResult (source v) None None (error_msg v) error) (snd out)).
Proof.
  cbv zeta. induction results as [|r results IH].
  - cbn. split; [reflexivity|]. split; [intros v; tauto|]. split; [constructor|].
    split; intros; contradiction.
  - destruct IH as (IH1 & IH2 & IH3 & IH4 & IH5). rewrite processApiResults_cons.
    destruct r as [v|reason]; [destruct (hasError v) eqn:Ev|]; cbn [fst snd List.length].
    + split; [lia|]. split; [|split; [|split]].
      * intros v'. rewrite IH2. split.
        -- intros [H1 H2]. split; [right; exact H1|exact H2].
        -- intros [[E|H1] H2]; [injection E as <-; congruence|auto].
      * constructor; [split; reflexivity|exact IH3].
      * intros reason [E|H]; [discriminate|right; auto].
      * intros v' [E|H] Hv'; [injection E as <-; left; reflexivity|right; auto].
    + split; [lia|]. split; [|split; [|split]].
      * intros v'. cbn [In]. rewrite IH2. split.
        -- intros [<-|[H1 H2]]; [split; [left; reflexivity|exact Ev]|split; [right|]; auto].
        -- intros [[E|H1] H2]; [injection E as <-; left; reflexivity|right; auto].
      * exact IH3.
      * intros reason [E|H]; [discriminate|auto].
      * intros v' [E|H] Hv'; [injection E as <-; congruence|auto].
    + split; [lia|]. split; [|split; [|split]].
      * intros v'. rewrite IH2. split.
        -- intros [H1 H2]. split; [right; exact H1|exact H2].
        -- intros [[E|H1] H2]; [discriminate|auto].
      * constructor; [split; reflexivity|exact IH3].
      * intros reason' [E|H]; [injection E as <-; left; reflexivity|right; auto].
      * intros v' [E|H] Hv'; [discriminate|right; auto].
Qed.

End Merge.

(** * The streaming generator *)

Section StreamOrder.

Import BatchCheck Spec.

Lemma unresolved_mark (pending : list PendingItem) :
  forall k item, pending !! k = Some item -> resolved item = false ->
    Permutation
      (item :: List.filter (fun x => negb (resolved x)) (<[k := markResolved item]> pending))
      (List.filter (fun x => negb (resolved x)) pending).
Proof.
  induction pending as [|x rest IH]; intros k item Hk Hr; [discriminate|].
  destruct k as [|k]; cbn in Hk.
  - injection Hk as ->. cbn. rewrite Hr. cbn. reflexivity.
  - cbn [list_insert]. change (<[S k:=markResolved item]> (x :: rest))
      with (x :: <[k:=markResolved item]> rest).
    cbn [List.filter]. destruct (negb (resolved x)).
    + rewrite perm_swap. constructor. eapply IH; eauto.
    + eapply IH; eauto.
Qed.

Lemma raceLoop_permutation (race : nat -> nat) (fuel : nat) :
  forall round pending,
    (unresolvedCount pending <= fuel)%nat ->
    Permutation (raceLoop race fuel round pending)
                (List.map yieldOf (List.filter (fun x => negb (resolved x)) pending)).
Proof.
  induction fuel as [|f IH]; intros round pending Hfuel.
  - unfold unresolvedCount in Hfuel.
    destruct (List.filter _ pending); [reflexivity|simpl in Hfuel; lia].
  - cbn [raceLoop]. pose proof (unresolvedFrom_length pending 0) as Hlen.
    destruct (unresolvedFrom 0 pending) as [|u us] eqn:E.
    + unfold unresolvedCount in Hlen.
      destruct (List.filter _ pending); [reflexivity|simpl in Hlen; lia].
    + set (index := nth (race round mod List.length (u :: us)) (u :: us) u).
      assert (Hin : In index (unresolvedFrom 0 pending)).
      { rewrite E. apply nth_In. apply Nat.mod_upper_bound. simpl. lia. }
      destruct (unresolvedFrom_lookup _ _ _ Hin) as (item & Hl & Hr & _).
      rewrite Nat.sub_0_r in Hl. rewrite Hl.
      pose proof (unresolvedCount_mark _ _ _ Hl Hr) as Hmark.
      rewrite IH by lia.
      rewrite <- (unresolved_mark pending index item Hl Hr). reflexivity.
Qed.

(** X18: whatever the order in which the checks settle, the generator
    yields each unique address exactly once: its output is a permutation of
    the outcomes of the unique exits, where a check that threw is yielded
    as a fallback item carrying the error message instead of being
    dropped. *)
Theorem processExitsStream_permutation (race : nat -> nat)
        (check : string -> Completion IpApiCheckResult) (exits : list ExitItem) :
  Permutation (processExitsStream race check exits)
              (List.map (fun exit => yieldOf (mkPending exit (runItem check exit) false))
                        (uniqueExits exits)).
Proof.
  unfold processExitsStream.
  rewrite raceLoop_permutation by (rewrite uniqueExits_pending, length_map; lia).
  induction (uniqueExits exits) as [|e l IH]; [reflexivity|].
  cbn [List.map List.filter resolved negb]. constructor. exact IH.
Qed.

End StreamOrder.

(** * The vote on the address type *)

Section Plurality.

Import IpType Spec SpecExt.

Lemma typeCount_cons t d ds :
  typeCount t (d :: ds)
  = ((if String.eqb (normalizedType d) t then 1 else 0) + typeCount t ds)%nat.
Proof.
  unfold typeCount. cbn [List.filter]. now destruct (String.eqb (normalizedType d) t).
Qed.

Lemma votedTypes_voting ds : Forall votingKey (votedTypes ds).
Proof.
  induction ds as [|d ds IH]; cbn [votedTypes]; [constructor|].
  destruct (votes d) eqn:E; [|exact IH].
  constructor; [exact E|].
  apply List.Forall_forall. intros t Ht. apply filter_In in Ht as [Ht _].
  revert t Ht. now apply List.Forall_forall.
Qed.

Lemma votedTypes_count ds : Forall (fun t => (1 <= typeCount t ds)%nat) (votedTypes ds).
Proof.
  induction ds as [|d ds IH]; cbn [votedTypes]; [constructor|].
  destruct (votes d) eqn:E.
  - constructor.
    + rewrite typeCount_cons, String.eqb_refl. lia.
    + apply List.Forall_forall. intros t Ht. apply filter_In in Ht as [Ht _].
      rewrite typeCount_cons. rewrite List.Forall_forall in IH. specialize (IH t Ht). lia.
  - eapply Forall_impl; [exact IH|]. intros t Ht. cbn beta in *. rewrite typeCount_cons. lia.
Qed.

Lemma bump_present t (acc : list (string * nat)) :
  In t (List.map fst acc) -> List.NoDup (List.map fst acc) ->
  bump t acc
  = List.map (fun e => (fst e, ((if String.eqb (fst e) t then 1 else 0) + snd e)%nat)) acc.
Proof.
  induction acc as [|[k v] acc IH]; [intros []|].
  cbn [List.map fst snd bump]. intros Hin Hnd. inversion Hnd as [|? ? Hnot Hnd']; subst.
  destruct (String.eqb_spec k t) as [->|Hne].
  - f_equal. symmetry. rewrite <- (List.map_id acc) at 2. apply List.map_ext_in.
    intros [k' v'] Hin'. cbn [fst snd].
    destruct (String.eqb_spec k' t) as [->|_]; [|reflexivity].
    exfalso. apply Hnot. apply in_map_iff. exists (t, v'). auto.
  - f_equal. apply IH; [|exact Hnd']. destruct Hin as [E|Hin]; [contradiction|exact Hin].
Qed.

Lemma bump_absent t (acc : list (string * nat)) :
  ~ In t (List.map fst acc) -> bump t acc = (acc ++ [(t, 1%nat)])%list.
Proof.
  induction acc as [|[k v] acc IH]; [reflexivity|].
  cbn [List.map fst bump]. intros Hnot.
  destruct (String.eqb_spec k t) as [->|Hne].
  - exfalso. apply Hnot. now left.
  - cbn [app]. f_equal. apply IH. intros H. apply Hnot. now right.
Qed.

Lemma fresh_spec acc t : fresh acc t = true <-> ~ In t (List.map fst acc).
Proof.
  unfold fresh. rewrite negb_true_iff. split.
  - intros H Hin. assert (existsb (String.eqb t) (List.map fst acc) = true); [|congruence].
    apply existsb_exists. exists t. split; [exact Hin|apply String.eqb_refl].
  - intros H. destruct (existsb _ _) eqn:E; [|reflexivity].
    apply existsb_exists in E as (x & Hx & Hxt). apply String.eqb_eq in Hxt. subst x.
    contradiction.
Qed.

(** The vote table after counting [ds] on top of [acc]. *)
Lemma tally_from (ds : list TypeSourceDetail) :
  forall acc : list (string * nat),
    List.NoDup (List.map fst acc) -> Forall votingKey (List.map fst acc) ->
    fold_left countVote ds acc
    = (List.map (fun e => (fst e, (typeCount (fst e) ds + snd e)%nat)) acc
       ++ List.map (fun t => (t, typeCount t ds)) (List.filter (fresh acc) (votedTypes ds)))%list.
Proof.
  induction ds as [|d ds IH]; intros acc Hnd Hvk.
  - cbn. rewrite app_nil_r. rewrite <- (List.map_id acc) at 1. apply List.map_ext.
    now intros [k v].
  - cbn [fold_left votedTypes]. unfold countVote at 2. fold (votes d).
    destruct (votes d) eqn:Ev.
    + set (t0 := normalizedType d).
      destruct (in_dec String.string_dec t0 (List.map fst acc)) as [Hin|Hnin].
      * rewrite (bump_present t0 acc Hin Hnd).
        rewrite IH.
        2:{ rewrite List.map_map. cbn [fst]. exact Hnd. }
        2:{ rewrite List.map_map. cbn [fst]. exact Hvk. }
        rewrite List.map_map. cbn [fst snd]. f_equal.
        -- apply List.map_ext. intros [k v]. cbn [fst snd].
           rewrite typeCount_cons. fold t0. f_equal.
           rewrite (String.eqb_sym k t0). lia.
        -- cbn [List.filter].
           assert (Hf : fresh acc t0 = false).
           { destruct (fresh acc t0) eqn:E; [|reflexivity].
             apply fresh_spec in E. contradiction. }
           rewrite Hf.
           assert (Hfilter : forall l,
                      List.filter
                        (fresh (List.map (fun e => (fst e,
                                   ((if String.eqb (fst e) t0 then 1 else 0) + snd e)%nat)) acc)) l
                      = List.filter (fresh acc)
                          (List.filter (fun t => negb (String.eqb t t0)) l)).
           { intros l. induction l as [|x l IHl]; [reflexivity|].
             cbn [List.filter]. 
             assert (Hx : fresh (List.map (fun e => (fst e,
                                   ((if String.eqb (fst e) t0 then 1 else 0) + snd e)%nat)) acc) x
                          = fresh acc x).
             { unfold fresh. rewrite List.map_map. reflexivity. }
             rewrite Hx. destruct (String.eqb_spec x t0) as [->|Hne]; cbn [negb].
             - rewrite Hf. exact IHl.
             - cbn [List.filter]. destruct (fresh acc x); [f_equal|]; exact IHl. }
           rewrite Hfilter. apply List.map_ext_in. intros t Ht.
           apply filter_In in Ht as [Ht _]. apply filter_In in Ht as [_ Ht].
           rewrite typeCount_cons. fold t0.
           apply negb_true_iff in Ht. rewrite String.eqb_sym, Ht. reflexivity.
      * rewrite (bump_absent t0 acc Hnin).
        rewrite IH.
        2:{ rewrite List.map_app. cbn [List.map fst].
            apply (Permutation_NoDup (l := t0 :: List.map fst acc));
              [apply Permutation_cons_append|constructor; assumption]. }
        2:{ rewrite List.map_app. apply Forall_app. split; [exact Hvk|].
            constructor; [exact Ev|constructor]. }
        rewrite List.map_app. cbn [List.map fst snd]. rewrite <- app_assoc. f_equal.
        -- apply List.map_ext_in. intros [k v] Hkv. cbn [fst snd].
           rewrite typeCount_cons. fold t0.
           destruct (String.eqb_spec t0 k) as [->|_]; [|reflexivity].
           exfalso. apply Hnin. apply in_map_iff. exists (k, v). auto.
        -- cbn [app List.filter].
           assert (Hf : fresh acc t0 = true) by (apply fresh_spec; exact Hnin).
           rewrite Hf. cbn [List.map]. rewrite typeCount_cons. fold t0.
           rewrite String.eqb_refl. f_equal; [f_equal; lia|].
           assert (Hfilter : forall l,
                      List.filter (fresh (acc ++ [(t0, 1%nat)])) l
                      = List.filter (fresh acc)
                          (List.filter (fun t => negb (String.eqb t t0)) l)).
           { intros l. induction l as [|x l IHl]; [reflexivity|].
             cbn [List.filter].
             assert (Hx : fresh (acc ++ [(t0, 1%nat)]) x
                          = (negb (String.eqb x t0) && fresh acc x)%bool).
             { unfold fresh. rewrite List.map_app, existsb_app. cbn.
               rewrite orb_false_r, negb_orb. apply andb_comm. }
             rewrite Hx. destruct (String.eqb x t0); cbn [negb andb]; [exact IHl|].
             cbn [List.filter]. destruct (fresh acc x); [f_equal|]; exact IHl. }
           rewrite Hfilter. apply List.map_ext_in. intros t Ht.
           apply filter_In in Ht as [Ht _]. apply filter_In in Ht as [_ Ht].
           rewrite typeCount_cons. fold t0.
           apply negb_true_iff in Ht. rewrite String.eqb_sym, Ht. reflexivity.
    + rewrite IH by assumption. f_equal.
      * apply List.map_ext_in. intros [k v] Hkv. cbn [fst snd].
        rewrite typeCount_cons.
        destruct (String.eqb_spec (normalizedType d) k) as [E|_]; [|reflexivity].
        exfalso. rewrite List.Forall_forall in Hvk.
        specialize (Hvk k (in_map fst _ _ Hkv)). unfold votingKey in Hvk.
        unfold votes in Ev. rewrite E in Ev. cbn [fst] in Hvk. congruence.
      * apply List.map_ext_in. intros t Ht. apply filter_In in Ht as [Ht _].
        rewrite typeCount_cons.
        destruct (String.eqb_spec (normalizedType d) t) as [E|_]; [|reflexivity].
        exfalso. pose proof (votedTypes_voting ds) as Hv. rewrite List.Forall_forall in Hv.
        specialize (Hv t Ht). unfold votingKey in Hv. unfold votes in Ev. rewrite E in Ev.
        congruence.
Qed.

Lemma tally_table (ds : list TypeSourceDetail) :
  fold_left countVote ds [] = List.map (fun t => (t, typeCount t ds)) (votedTypes ds).
Proof.
  rewrite tally_from; [|constructor|constructor]. cbn [List.map app]. f_equal.
  induction (votedTypes ds) as [|t l IH]; [reflexivity|]. cbn. now rewrite IH.
Qed.

(** What the maximum scan returns. *)
Lemma pick_first_max (tv : list (string * nat)) :
  forall acc : string * nat,
    (Forall (fun e => (snd e <= snd acc)%nat) tv /\ fold_left pickStep tv acc = acc)
    \/ exists before e after,
         tv = (before ++ e :: after)%list
         /\ fold_left pickStep tv acc = e
         /\ (snd acc < snd e)%nat
         /\ Forall (fun x => (snd x < snd e)%nat) before
         /\ Forall (fun x => (snd x <= snd e)%nat) after.
Proof.
  induction tv as [|e0 tv IH]; intros acc.
  - left. split; [constructor|reflexivity].
  - cbn [fold_left].
    assert (Hstep : pickStep acc e0 = if Nat.ltb (snd acc) (snd e0) then e0 else acc).
    { unfold pickStep. now destruct e0. }
    rewrite Hstep. clear Hstep.
    destruct (Nat.ltb_spec (snd acc) (snd e0)) as [Hlt|Hge].
    + destruct (IH e0) as [[Hall Hres]|(before & e & after & -> & Hres & Hlt' & Hb & Ha)].
      * right. exists [], e0, tv. cbn [app]. rewrite Hres. auto.
      * right. exists (e0 :: before), e, after. cbn [app]. rewrite Hres.
        split; [reflexivity|]. split; [reflexivity|]. split; [lia|].
        split; [constructor; [exact Hlt'|exact Hb]|exact Ha].
    + destruct (IH acc) as [[Hall Hres]|(before & e & after & -> & Hres & Hlt' & Hb & Ha)].
      * left. split; [constructor; [exact Hge|exact Hall]|exact Hres].
      * right. exists (e0 :: before), e, after. cbn [app]. rewrite Hres.
        split; [reflexivity|]. split; [reflexivity|]. split; [exact Hlt'|].
        split; [constructor; [lia|exact Hb]|exact Ha].
Qed.

(** X19: the vote is a plurality vote with ties going to the earliest
    voter: when some candidate votes, the winner is a voted category,
    every category first voted before it has strictly fewer votes, and
    every category first voted after it has at most as many. *)
Theorem voteIpType_plurality (ds : list TypeSourceDetail) :
  votedTypes ds <> [] ->
  exists before after,
    votedTypes ds = (before ++ voteIpType ds :: after)%list
    /\ (forall t, In t before -> (typeCount t ds < typeCount (voteIpType ds) ds)%nat)
    /\ (forall t, In t after -> (typeCount t ds <= typeCount (voteIpType ds) ds)%nat)
    /\ (1 <= typeCount (voteIpType ds) ds)%nat.
Proof.
  intros Hne. unfold voteIpType. rewrite tally_table.
  assert (Hds : Nat.eqb (List.length ds) 0 = false).
  { destruct ds; [contradiction|reflexivity]. }
  rewrite Hds, andb_false_r.
  pose proof (votedTypes_count ds) as Hcount.
  destruct (pick_first_max (List.map (fun t => (t, typeCount t ds)) (votedTypes ds))
              ("unknown", 0%nat))
    as [[Hall _]|(before & e & after & Hsplit & -> & _ & Hb & Ha)].
  - exfalso. destruct (votedTypes ds) as [|t l]; [contradiction|].
    apply Forall_cons_1 in Hall as [Ht _]. apply Forall_cons_1 in Hcount as [Hc _].
    cbn in Ht. lia.
  - apply map_eq_app in Hsplit as (bs & rest & Hvt & Hbs & Hrest).
    apply map_eq_cons in Hrest as (w & as' & -> & He & Has).
    subst e before after. cbn [fst snd] in *.
    exists bs, as'. split; [exact Hvt|].
    split; [|split].
    + intros t Ht. rewrite List.Forall_forall in Hb.
      apply (Hb (t, typeCount t ds)). apply in_map_iff. exists t. auto.
    + intros t Ht. rewrite List.Forall_forall in Ha.
      apply (Ha (t, typeCount t ds)). apply in_map_iff. exists t. auto.
    + rewrite List.Forall_forall in Hcount. apply Hcount. rewrite Hvt.
      apply in_or_app. right. now left.
Qed.

End Plurality.

Lemma voteIpType_plurality_witness :
  exists before after,
    SpecExt.votedTypes ExamplesExt.tiedVotes
    = (before ++ IpType.voteIpType ExamplesExt.tiedVotes :: after)%list
    /\ (forall t, In t before ->
                  (SpecExt.typeCount t ExamplesExt.tiedVotes
                   < SpecExt.typeCount (IpType.voteIpType ExamplesExt.tiedVotes)
                       ExamplesExt.tiedVotes)%nat)
    /\ (forall t, In t after ->
                  (SpecExt.typeCount t ExamplesExt.tiedVotes
                   <= SpecExt.typeCount (IpType.voteIpType ExamplesExt.tiedVotes)
                        ExamplesExt.tiedVotes)%nat)
    /\ (1 <= SpecExt.typeCount (IpType.voteIpType ExamplesExt.tiedVotes)
               ExamplesExt.tiedVotes)%nat.
Proof.
  apply (voteIpType_plurality ExamplesExt.tiedVotes). vm_compute. discriminate.
Defined.

(** * Request validation and the manual stream *)

Section Validation.

Import BatchCheck Routes SpecExt.

Variable isValidIp : string -> bool.
Variable isLocalOrInternalIP : string -> bool.

Lemma validateExitItems_none (exits : list ExitItem) :
  forall i, validateExitItems isValidIp i exits = None
            <-> forallb (exitOk isValidIp) exits = true.
Proof.
  induction exits as [|e rest IH]; intros i; cbn [validateExitItems forallb]; [tauto|].
  unfold exitOk at 1.
  destruct (JsString.nonEmpty (exitType e)); cbn [negb orb andb];
    [|split; discriminate].
  destruct (JsString.nonEmpty (cf_ip (cfData e))); cbn [negb orb andb];
    [|split; discriminate].
  destruct (isValidIp (cf_ip (cfData e))); cbn [negb andb]; [apply IH|split; discriminate].
Qed.

Lemma validateExitItems_offender (pre : list ExitItem) e post :
  forall i,
    forallb (exitOk isValidIp) pre = true ->
    exitOk isValidIp e = false ->
    validateExitItems isValidIp i (pre ++ e :: post)
    = Some (String.append "Invalid exit item at index "
              (String.append (showNat (i + List.length pre))
                 (if (JsString.nonEmpty (exitType e)
                      && JsString.nonEmpty (cf_ip (cfData e)))%bool
                  then String.append ": invalid IP format ("
                         (String.append (cf_ip (cfData e)) ")")
                  else ": exitType and cfData.ip are required"))).
Proof.
  induction pre as [|p pre IH]; intros i Hpre He; cbn [app validateExitItems List.length].
  - rewrite Nat.add_0_r. unfold exitOk in He.
    destruct (JsString.nonEmpty (exitType e)); cbn [negb orb andb] in *; [|reflexivity].
    destruct (JsString.nonEmpty (cf_ip (cfData e))); cbn [negb orb andb] in *; [|reflexivity].
    rewrite He. reflexivity.
  - cbn [forallb] in Hpre. apply andb_prop in Hpre as [Hp Hpre].
    unfold exitOk in Hp. apply andb_prop in Hp as [Hp Hp3]. apply andb_prop in Hp as [Hp1 Hp2].
    rewrite Hp1, Hp2, Hp3. cbn [negb orb]. rewrite IH by assumption.
    now rewrite Nat.add_succ_r.
Qed.

(** X20: the exits validation accepts a request exactly when the list is
    not empty, is no longer than the limit, and every exit has a non-empty
    type and a non-empty address that passes the address check. *)
Theorem validateExitsArray_accepts_iff (exits : list ExitItem) (maxLength : nat) :
  validateExitsArray isValidIp exits maxLength = None
  <-> exits <> [] /\ (List.length exits <= maxLength)%nat
      /\ forallb (exitOk isValidIp) exits = true.
Proof.
  unfold validateExitsArray. destruct exits as [|e rest].
  - split; [discriminate|]. intros [H _]. contradiction.
  - destruct (Nat.ltb_spec maxLength (List.length (e :: rest))) as [Hlt|Hle].
    + split; [discriminate|]. intros (_ & H & _). lia.
    + rewrite validateExitItems_none. split.
      * intros H. split; [discriminate|]. split; [exact Hle|exact H].
      * intros (_ & _ & H). exact H.
Qed.

(** X21: a request within the size limit is refused at its first
    offending exit: the error names the position of the first exit that
    fails, and says that the type and address are required when one of them
    is empty, and that the address format is invalid otherwise. *)
Theorem validateExitsArray_first_offender (pre : list ExitItem) (e : ExitItem)
        (post : list ExitItem) (maxLength : nat) :
  (List.length (pre ++ e :: post) <= maxLength)%nat ->
  forallb (exitOk isValidIp) pre = true ->
  exitOk isValidIp e = false ->
  validateExitsArray isValidIp (pre ++ e :: post) maxLength
  = Some (String.append "Invalid exit item at index "
            (String.append (showNat (List.length pre))
               (if (JsString.nonEmpty (exitType e)
                    && JsString.nonEmpty (cf_ip (cfData e)))%bool
                then String.append ": invalid IP format ("
                       (String.append (cf_ip (cfData e)) ")")
                else ": exitType and cfData.ip are required"))).
Proof.
  intros Hlen Hpre He. unfold validateExitsArray.
  destruct (pre ++ e :: post)%list as [|x l] eqn:E; [destruct pre; discriminate|].
  rewrite <- E in *. clear E x l.
  destruct (Nat.ltb_spec maxLength (List.length (pre ++ e :: post))) as [Hlt|_]; [lia|].
  now rewrite validateExitItems_offender.
Qed.

Lemma validateIpItems_none (ips : list BatchIpItem) :
  forall i, validateIpItems isValidIp isLocalOrInternalIP i ips = None
            <-> forallb (ipItemOk isValidIp isLocalOrInternalIP) ips = true.
Proof.
  induction ips as [|item rest IH]; intros i; cbn [validateIpItems forallb]; [tauto|].
  unfold ipItemOk at 1. cbv zeta.
  destruct (JsString.nonEmpty (JsString.trim (b_ip item))); cbn [negb andb];
    [|split; discriminate].
  destruct (isValidIp (JsString.trim (b_ip item))); cbn [negb andb];
    [|split; discriminate].
  destruct (isLocalOrInternalIP (JsString.trim (b_ip item))); cbn [negb andb];
    [split; discriminate|apply IH].
Qed.

(** X22: the manual validation accepts a request exactly when the list
    is not empty, is no longer than the limit, and every address, once
    trimmed, is non-empty, passes the address check and is not a local or
    internal address. *)
Theorem validateIpsArray_accepts_iff (ips : list BatchIpItem) (maxLength : nat) :
  validateIpsArray isValidIp isLocalOrInternalIP ips maxLength = None
  <-> ips <> [] /\ (List.length ips <= maxLength)%nat
      /\ forallb (ipItemOk isValidIp isLocalOrInternalIP) ips = true.
Proof.
  unfold validateIpsArray. destruct ips as [|item rest].
  - split; [discriminate|]. intros [H _]. contradiction.
  - destruct (Nat.ltb_spec maxLength (List.length (item :: rest))) as [Hlt|Hle].
    + split; [discriminate|]. intros (_ & H & _). lia.
    + rewrite validateIpItems_none. split.
      * intros H. split; [discriminate|]. split; [exact Hle|exact H].
      * intros (_ & _ & H). exact H.
Qed.

Lemma emitIps_progress (check : nat -> string -> Completion IpApiCheckResult) (total : nat)
      (items : list BatchIpItem) :
  forall completed,
    List.length (emitIps check total completed items) = S (List.length items)
    /\ (forall (i : nat) item, items !! i = Some item ->
          exists ev, emitIps check total completed items !! i = Some ev
                     /\ reportsOn (b_ip item) (S (completed + i)) total ev)
    /\ emitIps check total completed items !! List.length items
       = Some (DoneEvent total total).
Proof.
  induction items as [|item rest IH]; intros completed.
  - cbn. split; [reflexivity|]. split; [intros i item H; discriminate|reflexivity].
  - destruct (IH (S completed)) as (IH1 & IH2 & IH3). cbn [emitIps].
    destruct (bindC _ _) as [result|err]; cbn [List.length].
    + split; [now rewrite IH1|]. split; [|exact IH3].
      intros [|i] it Hi; cbn in Hi.
      * injection Hi as <-. eexists. split; [reflexivity|]. cbn.
        rewrite Nat.add_0_r. auto.
      * destruct (IH2 i it Hi) as (ev & Hev & Hrep). exists ev. split; [exact Hev|].
        now rewrite Nat.add_succ_r.
    + split; [now rewrite IH1|]. split; [|exact IH3].
      intros [|i] it Hi; cbn in Hi.
      * injection Hi as <-. eexists. split; [reflexivity|]. cbn.
        rewrite Nat.add_0_r. auto.
      * destruct (IH2 i it Hi) as (ev & Hev & Hrep). exists ev. split; [exact Hev|].
        now rewrite Nat.add_succ_r.
Qed.

(** X23: an accepted manual request is answered row by row in input
    order: the [i]-th event reports on the trimmed address of the [i]-th
    row, as a result or as a failed item, with progress [i+1] of [n]; a
    failing row does not end the stream; the last event is [done]. *)
Theorem checkIpBatchStream_in_order (check : nat -> string -> Completion IpApiCheckResult)
        (ips : list BatchIpItem) :
  validateIpsArray isValidIp isLocalOrInternalIP ips 20 = None ->
  exists events,
    checkIpBatchStream isValidIp isLocalOrInternalIP check ips = EventStream events
    /\ List.length events = S (List.length ips)
    /\ (forall (i : nat) item, ips !! i = Some item ->
          exists ev, events !! i = Some ev
                     /\ reportsOn (JsString.trim (b_ip item)) (S i) (List.length ips) ev)
    /\ events !! List.length ips = Some (DoneEvent (List.length ips) (List.length ips)).
Proof.
  intros Hv. unfold checkIpBatchStream. rewrite Hv. eexists. split; [reflexivity|].
  set (norm := List.map (fun item => mkIpItem (JsString.trim (b_ip item)) (b_type item)) ips).
  assert (Hlen : List.length norm = List.length ips) by apply length_map.
  destruct (emitIps_progress check (List.length norm) norm 0) as (H1 & H2 & H3).
  rewrite Hlen in *. split; [exact H1|]. split; [|exact H3].
  intros i item Hi.
  destruct (H2 i (mkIpItem (JsString.trim (b_ip item)) (b_type item))) as (ev & Hev & Hrep).
  { unfold norm. change (List.map ?f ?l) with (f <$> l).
    rewrite list_lookup_fmap, Hi. reflexivity. }
  exists ev. split; [exact Hev|exact Hrep].
Qed.

End Validation.

Lemma validateExitsArray_first_offender_witness :
  Routes.validateExitsArray (fun _ => true)
    [ BatchCheck.mkExit "ipv4" (BatchCheck.mkCf "8.8.8.8" None "{}");
      BatchCheck.mkExit "" (BatchCheck.mkCf "1.1.1.1" None "{}") ] 10
  = Some "Invalid exit item at index 1: exitType and cfData.ip are required".
Proof.
  apply (validateExitsArray_first_offender (fun _ => true)
           [BatchCheck.mkExit "ipv4" (BatchCheck.mkCf "8.8.8.8" None "{}")]
           (BatchCheck.mkExit "" (BatchCheck.mkCf "1.1.1.1" None "{}")) [] 10).
  - simpl. lia.
  - reflexivity.
  - reflexivity.
Defined.

Lemma checkIpBatchStream_in_order_witness :
  exists events,
    Routes.checkIpBatchStream (fun _ => true) (fun _ => false)
      (fun _ ip => ExamplesExt.checkFailing ip JUndefined) Examples.dupIps = Routes.EventStream events
    /\ List.length events = 5%nat
    /\ (forall (i : nat) item, Examples.dupIps !! i = Some item ->
          exists ev, events !! i = Some ev
                     /\ SpecExt.reportsOn (JsString.trim (Routes.b_ip item)) (S i) 4 ev)
    /\ events !! 4%nat = Some (Routes.DoneEvent 4 4).
Proof.
  apply (checkIpBatchStream_in_order (fun _ => true) (fun _ => false)
           (fun _ ip => ExamplesExt.checkFailing ip JUndefined) Examples.dupIps).
  reflexivity.
Defined.

(** * The KV cache helper and the AI route *)

Section CacheHelper.

Import Cache Ai Spec.

(** X24: [getOrSetCache] only ever writes the key it was asked about.
    With a KV namespace the store it leaves agrees with the old one on
    every other key, is the old store whenever the fetcher threw or the
    value was served from the cache, and the value it returns is either
    the truthy value cached under the key or what the fetcher returned;
    without a namespace it is the fetcher alone. *)
Theorem getOrSetCache_frame {T : Type} (truthyT : T -> bool) (key key' : string)
        (fetcher : Completion T) (store : KV T) (ttlSeconds : Z)
        (shouldCache : option (T -> bool)) (faults : KvFaults) :
  key' <> key ->
  let out := getOrSetCache truthyT key fetcher (Some store) ttlSeconds shouldCache faults in
  (exists store' : KV T,
      snd out = Some store'
      /\ store' !! key' = store !! key'
      /\ (fst out <> fetcher -> store' = store)
      /\ (forall e, fetcher = Throw e -> store' = store))
  /\ (fst out = fetcher
      \/ exists c ttl, store !! key = Some (c, ttl) /\ truthyT c = true /\ fst out = Normal c)
  /\ getOrSetCache truthyT key fetcher None ttlSeconds shouldCache faults = (fetcher, None).
Proof.
  intros Hne. cbv zeta. unfold getOrSetCache. unfold KV in *.
  split; [|split; [|reflexivity]].
  - destruct (getThrows faults); cbn [fmap option_fmap option_map].
    + destruct fetcher as [v|e].
      * destruct (negb _); [exists store; cbn; auto; repeat split; congruence|].
        destruct (putThrows faults); [exists store; cbn; repeat split; congruence|].
        eexists. cbn [fst snd]. split; [reflexivity|].
        split; [now rewrite lookup_insert_ne by congruence|]. split; congruence.
      * exists store. cbn. repeat split; congruence.
    + destruct (store !! key) as [[c ttl]|] eqn:Es; cbn [fmap option_fmap option_map fst].
      * destruct (truthyT c).
        -- exists store. cbn. repeat split; congruence.
        -- destruct fetcher as [v|e].
           ++ destruct (negb _); [exists store; cbn; repeat split; congruence|].
              destruct (putThrows faults); [exists store; cbn; repeat split; congruence|].
              eexists. cbn [fst snd]. split; [reflexivity|].
              split; [now rewrite lookup_insert_ne by congruence|]. split; congruence.
           ++ exists store. cbn. repeat split; congruence.
      * destruct fetcher as [v|e].
        -- destruct (negb _); [exists store; cbn; repeat split; congruence|].
           destruct (putThrows faults); [exists store; cbn; repeat split; congruence|].
           eexists. cbn [fst snd]. split; [reflexivity|].
           split; [now rewrite lookup_insert_ne by congruence|]. split; congruence.
        -- exists store. cbn. repeat split; congruence.
  - destruct (getThrows faults); cbn [fmap option_fmap option_map].
    + left. destruct fetcher as [v|e]; [|reflexivity].
      destruct (negb _); [reflexivity|]. now destruct (putThrows faults).
    + destruct (store !! key) as [[c ttl]|] eqn:Es; cbn [fmap option_fmap option_map fst].
      * destruct (truthyT c) eqn:Et.
        -- right. exists c, ttl. auto.
        -- left. destruct fetcher as [v|e]; [|reflexivity].
           destruct (negb _); [reflexivity|]. now destruct (putThrows faults).
      * left. destruct fetcher as [v|e]; [|reflexivity].
        destruct (negb _); [reflexivity|]. now destruct (putThrows faults).
Qed.

Lemma aiCacheKey_v1 (ip : string) :
  aiCacheKey CACHE_VERSION ip = String.append "v1:ai:analysis:" ip.
Proof. reflexivity. Qed.

(** X25: an analysis that was cached is served again without the LLM.
    After a request that missed the cache and obtained a cacheable
    analysis, any later request for the same address on a working store
    is answered with that analysis and leaves the store alone, whatever
    the LLM would answer now, even if it would throw. *)
Theorem ai_second_request_served (ip apiKey baseUrl : string) (env env' : option string)
        (value : option LlmResult) (store : KV (option LlmResult))
        (faults : KvFaults) (llm' : Completion (option LlmResult)) :
  JsString.nonEmpty ip = true ->
  JsString.nonEmpty apiKey = true ->
  JsString.nonEmpty baseUrl = true ->
  store !! String.append "v1:ai:analysis:" ip = None ->
  getThrows faults = false ->
  putThrows faults = false ->
  cacheable value ->
  let first := aiAnalysis ip true (Some apiKey) (Some baseUrl) env (Normal value)
                          (Some store) faults in
  let second := aiAnalysis ip true (Some apiKey) (Some baseUrl) env' llm' (snd first) faults in
  fst first = Json value /\ fst second = Json value /\ snd second = snd first.
Proof.
  intros Hip Hkey Hbase Hmiss Hget Hput Hc. cbv zeta.
  apply shouldCache_iff in Hc.
  assert (Hv : bool_decide (is_Some value) = true).
  { destruct value; [reflexivity|discriminate]. }
  assert (H1 : aiAnalysis ip true (Some apiKey) (Some baseUrl) env (Normal value)
                 (Some store) faults
               = (Json value,
                  Some (<[String.append "v1:ai:analysis:" ip :=
                            (value, getCacheTTL env)]> store))).
  { unfold aiAnalysis. rewrite Hip. cbn [negb orb from_option id].
    rewrite Hkey, Hbase. cbn [negb orb]. rewrite aiCacheKey_v1.
    unfold getOrSetCache. unfold KV in *. rewrite Hmiss, Hput, Hget, Hc.
    reflexivity. }
  rewrite H1. cbn [fst snd]. split; [reflexivity|].
  unfold aiAnalysis. rewrite Hip. cbn [negb orb from_option id].
  rewrite Hkey, Hbase. cbn [negb orb]. rewrite aiCacheKey_v1.
  unfold getOrSetCache. unfold KV in *. rewrite Hget, lookup_insert_eq.
  cbn [fmap option_fmap option_map fst]. rewrite Hv. split; reflexivity.
Qed.

Lemma aiAnalysis_errors (ip : string) (hasData : bool)
      (apiKey baseUrl env : option string) (llm : Completion (option LlmResult))
      (kv : option (KV (option LlmResult))) (faults : KvFaults) (code : Z) (msg : string) :
  fst (aiAnalysis ip hasData apiKey baseUrl env llm kv faults) = ApiError code msg ->
  code = 400 \/ code = 503 \/ (code = 500 /\ exists e, llm = Throw e).
Proof.
  unfold aiAnalysis.
  destruct (negb (JsString.nonEmpty ip) || negb hasData)%bool.
  - cbn. intros H. injection H as <- _. now left.
  - destruct (negb _ || negb _)%bool.
    + cbn. intros H. injection H as <- _. right. now left.
    + destruct (getOrSetCache _ _ _ _ _ _ _) as [[r|e] kv'] eqn:E; [discriminate|].
      cbn. intros H. injection H as <- _. right. right. split; [reflexivity|].
      unfold getOrSetCache in E. destruct kv as [store|].
      * destruct (match (if getThrows faults then None else _) with
                  | Some c => _ | None => None end); [discriminate|].
        destruct llm as [v|e0]; [|eauto].
        destruct (negb _); [discriminate|]. destruct (putThrows faults); discriminate.
      * injection E as -> _. eauto.
Qed.

(** X26: the route answers before it looks at the cache whenever the
    request or the configuration is at fault: a body that does not parse
    or is [null] is answered 500, a body without address or data 400, and
    otherwise a deployment without LLM key or base URL 503, in each case
    whatever the cache holds and without touching it.  The only other
    error reply is the 500 given when the LLM call itself throws. *)
Theorem ai_rejected_before_cache (body : Completion RequestBody)
        (apiKey baseUrl env : option string) (llm : Completion (option LlmResult))
        (kv : option (KV (option LlmResult))) (faults : KvFaults) :
  let out := postAiAnalysis body apiKey baseUrl env llm kv faults in
  let unreadable := (exists e, body = Throw e) \/ body = Normal BodyNull in
  (unreadable -> out = (ApiError 500 "AI analysis failed", kv))
  /\ (forall ip hasData,
        body = Normal (BodyValue ip hasData) ->
        JsString.nonEmpty (default "" ip) = false \/ hasData = false ->
        out = (ApiError 400 "Missing required fields: ip and data", kv))
  /\ (forall ip hasData,
        body = Normal (BodyValue ip hasData) ->
        JsString.nonEmpty (default "" ip) = true -> hasData = true ->
        JsString.nonEmpty (default "" apiKey) = false
        \/ JsString.nonEmpty (default "" baseUrl) = false ->
        out = (ApiError 503 "AI analysis not configured", kv))
  /\ (forall code msg,
        fst out = ApiError code msg ->
        code = 400 \/ code = 503
        \/ (code = 500 /\ (unreadable \/ exists e, llm = Throw e))).
Proof.
  cbv zeta. unfold postAiAnalysis. split; [|split; [|split]].
  - intros [[e ->]| ->]; reflexivity.
  - intros ip hasData -> [H|H]; unfold aiAnalysis; rewrite H; [reflexivity|].
    now rewrite orb_true_r.
  - intros ip hasData -> Hip Hd Hcfg. unfold aiAnalysis. rewrite Hip, Hd. cbn [negb orb].
    destruct Hcfg as [H|H]; rewrite H; [reflexivity|]. now rewrite orb_true_r.
  - intros code msg. destruct body as [[|ip hasData]|e].
    + cbn. intros H. injection H as <- _. right. right. split; [reflexivity|]. left. now right.
    + intros H. apply aiAnalysis_errors in H as [H|[H|[H He]]]; auto.
    + cbn. intros H. injection H as <- _. right. right. split; [reflexivity|]. left. eauto.
Qed.

End CacheHelper.

Lemma getOrSetCache_frame_witness :
  exists store' : Cache.KV nat,
    snd (Cache.getOrSetCache (fun n => Nat.ltb 0 n) "a" (Normal 7%nat) (Some ∅) 60 None
           Cache.noFaults) = Some store'
    /\ store' !! "b" = None.
Proof.
  pose proof (getOrSetCache_frame (fun n => Nat.ltb 0 n) "a" "b" (Normal 7%nat) ∅ 60 None
                Cache.noFaults ltac:(discriminate)) as H.
  cbv zeta in H. destruct H as ((store' & H1 & H2 & _) & _).
  exists store'. split; [exact H1|exact H2].
Defined.

Lemma ai_second_request_served_witness :
  let first := Ai.aiAnalysis "8.8.8.8" true (Some "sk-test") (Some "https://llm.example") None
                 (Normal (Some (Ai.mkLlmResult (JStr "## IP score: 85/100")))) (Some ∅)
                 Cache.noFaults in
  fst (Ai.aiAnalysis "8.8.8.8" true (Some "sk-test") (Some "https://llm.example") None
         (Throw (mkError "network" None)) (snd first) Cache.noFaults)
  = Ai.Json (Some (Ai.mkLlmResult (JStr "## IP score: 85/100"))).
Proof.
  cbv zeta.
  pose proof (ai_second_request_served "8.8.8.8" "sk-test" "https://llm.example" None None
                (Some (Ai.mkLlmResult (JStr "## IP score: 85/100"))) ∅ Cache.noFaults
                (Throw (mkError "network" None)) eq_refl eq_refl eq_refl eq_refl eq_refl
                eq_refl) as H.
  cbv zeta in H. destruct H as (_ & H & _); [|exact H].
  eexists. eexists. split; [reflexivity|]. split; [reflexivity|].
  split; [discriminate|reflexivity].
Defined.

(** * The hosting flag *)

Section Hosting.

Import IpType Spec SpecExt.

Lemma stringSource_in (src : string) (v : JsValue) (extra : string -> bool) d :
  In d (stringSource src v extra)
  <-> exists s, v = JStr s /\ JsString.nonEmpty s = true /\ extra s = true
                /\ d = mkDetail src s (normalizeIpType (JStr s)).
Proof.
  unfold stringSource. destruct v as [| | | |s|];
    try (split; [intros [] | intros (s' & H & _); discriminate]).
  destruct (JsString.nonEmpty s) eqn:En; cbn [andb].
  - destruct (extra s) eqn:Ee.
    + split.
      * intros [<-|[]]. exists s. auto.
      * intros (s' & H & _ & _ & ->). injection H as <-. now left.
    + split; [intros []|]. intros (s' & H & _ & He & _). injection H as <-. congruence.
  - split; [intros []|]. intros (s' & H & Hn & _). injection H as <-. congruence.
Qed.

Lemma normalize_datacenter_string (v : JsValue) :
  normalizeIpType v = "datacenter" ->
  exists s, v = JStr s /\ JsString.nonEmpty s = true.
Proof.
  unfold normalizeIpType. destruct v as [| | | |s|]; try discriminate.
  destruct (JsString.nonEmpty s) eqn:E; [|discriminate].
  intros _. exists s. split; [reflexivity|exact E].
Qed.

(** X27: the hosting flag of a record is set exactly when one of the
    listed type candidates is a datacenter candidate, or the IPQS
    connection type that was left out of the list for containing
    "Premium" names a datacenter.  One datacenter candidate is enough,
    however the vote on the type ends. *)
Theorem isHostingIp_iff (merged : gmap string JsValue) :
  let ds := extractTypeSourceDetails merged in
  isHostingIp merged (voteIpType ds) = true
  <-> Exists (fun d => normalizedType d = "datacenter") ds
      \/ exists s, prop merged "connection_type" = JStr s
                   /\ JsString.includes s "Premium" = true
                   /\ normalizeIpType (JStr s) = "datacenter".
Proof.
  cbv zeta. unfold isHostingIp. rewrite !orb_true_iff, !String.eqb_eq. split.
  - intros [[[[Hv|Hh]|Hc]|Hu]|Hi].
    + left.
      destruct (voteIpType_spec
                  (fun t => Exists (fun d => normalizedType d = t)
                                   (extractTypeSourceDetails merged))
                  (extractTypeSourceDetails merged)) as [_ H].
      { apply List.Forall_forall. intros d Hd. apply List.Exists_exists. eauto. }
      rewrite <- Hv. apply H. rewrite Hv. discriminate.
    + left. apply List.Exists_exists.
      exists (mkDetail "IPInfo Hosting" "Hosting/Data Center" "datacenter").
      split; [|reflexivity]. unfold extractTypeSourceDetails.
      do 3 (apply in_or_app; right). unfold hostingSource.
      destruct (prop merged "ipinfo_hosting") as [| |[|]| | |]; try discriminate. now left.
    + destruct (normalize_datacenter_string _ Hc) as (s & Es & Hn). rewrite Es in Hc.
      destruct (JsString.includes s "Premium") eqn:Ep.
      * right. exists s. auto.
      * left. apply List.Exists_exists. exists (mkDetail "IPQS" s (normalizeIpType (JStr s))).
        split; [|exact Hc]. unfold extractTypeSourceDetails. apply in_or_app. left.
        apply stringSource_in. exists s. rewrite Ep. auto.
    + destruct (normalize_datacenter_string _ Hu) as (s & Es & Hn). rewrite Es in Hu.
      left. apply List.Exists_exists.
      exists (mkDetail "AbuseIPDB" s (normalizeIpType (JStr s))).
      split; [|exact Hu]. unfold extractTypeSourceDetails.
      apply in_or_app. right. apply in_or_app. left.
      apply stringSource_in. exists s. auto.
    + destruct (normalize_datacenter_string _ Hi) as (s & Es & Hn). rewrite Es in Hi.
      left. apply List.Exists_exists.
      exists (mkDetail "IP2Location" s (normalizeIpType (JStr s))).
      split; [|exact Hi]. unfold extractTypeSourceDetails.
      apply in_or_app. right. apply in_or_app. right. apply in_or_app. left.
      apply stringSource_in. exists s. auto.
  - intros [Hex|(s & Es & _ & Hn)].
    + apply List.Exists_exists in Hex as (d & Hd & Hdc).
      unfold extractTypeSourceDetails in Hd.
      apply in_app_or in Hd as [Hd|Hd]; [|apply in_app_or in Hd as [Hd|Hd];
                                          [|apply in_app_or in Hd as [Hd|Hd]]].
      * apply stringSource_in in Hd as (s & Es & _ & _ & ->). cbn in Hdc.
        left. left. right. now rewrite Es.
      * apply stringSource_in in Hd as (s & Es & _ & _ & ->). cbn in Hdc.
        left. right. now rewrite Es.
      * apply stringSource_in in Hd as (s & Es & _ & _ & ->). cbn in Hdc.
        right. now rewrite Es.
      * left. left. left. right. unfold hostingSource in Hd.
        destruct (prop merged "ipinfo_hosting") as [| |[|]| | |]; try contradiction.
        reflexivity.
    + left. left. right. now rewrite Es.
Qed.

End Hosting.

(** * Address syntax *)

Section AddressSyntax.

Import IpValidation SpecExt.

Lemma append_nil_l (s : string) : String.append "" s = s.
Proof. reflexivity. Qed.

Lemma splitDot_not_nil (s : string) : splitDot s <> [].
Proof.
  induction s as [|c s IH]; cbn [splitDot]; [discriminate|].
  destruct (Ascii.eqb c "."); [discriminate|]. destruct (splitDot s); discriminate.
Qed.

Lemma splitDot_dotFree (s : string) : dotFree s = true -> splitDot s = [s].
Proof.
  induction s as [|c s IH]; cbn [dotFree splitDot]; [reflexivity|].
  intros H. apply andb_prop in H as [Hc Hs]. apply negb_true_iff in Hc. rewrite Hc.
  now rewrite (IH Hs).
Qed.

Lemma splitDot_app (a rest : string) :
  dotFree a = true ->
  splitDot (String.append a (String "." rest)) = a :: splitDot rest.
Proof.
  induction a as [|c a IH]; intros H.
  - rewrite append_nil_l. reflexivity.
  - cbn [dotFree] in H. apply andb_prop in H as [Hc Ha]. apply negb_true_iff in Hc.
    rewrite append_cons. cbn [splitDot]. rewrite Hc, (IH Ha). reflexivity.
Qed.

Lemma joinDot_cons (p : string) (q : string) (rest : list string) :
  joinDot (p :: q :: rest) = String.append p (String "." (joinDot (q :: rest))).
Proof. reflexivity. Qed.

Lemma joinDot_splitDot (s : string) : joinDot (splitDot s) = s.
Proof.
  induction s as [|c s IH]; [reflexivity|]. cbn [splitDot].
  destruct (Ascii.eqb_spec c ".") as [->|Hne].
  - destruct (splitDot s) as [|w ws] eqn:E; [now apply splitDot_not_nil in E|].
    rewrite joinDot_cons, IH. reflexivity.
  - destruct (splitDot s) as [|w ws] eqn:E; [now apply splitDot_not_nil in E|].
    destruct ws as [|w' ws].
    + cbn [joinDot] in *. now rewrite IH.
    + rewrite joinDot_cons in *. rewrite append_cons, IH. reflexivity.
Qed.

Lemma octets_ok : forallb (fun s => (octetOk s && dotFree s)%bool) octets = true.
Proof. vm_compute. reflexivity. Qed.

Lemma octets_parse :
  forallb (fun n => match Cache.parseInt10 (showZ (Z.of_nat n)) with
                    | Some v => Z.eqb v (Z.of_nat n)
                    | None => false
                    end) (seq 0 256) = true.
Proof. vm_compute. reflexivity. Qed.

Lemma showZ_octet (n : Z) : 0 <= n <= 255 -> In (showZ n) octets.
Proof.
  intros Hn. unfold octets. apply in_map_iff. exists (Z.to_nat n).
  split; [now rewrite Z2Nat.id by lia|]. apply in_seq. lia.
Qed.

Lemma octet_show (s : string) : In s octets -> exists n, 0 <= n <= 255 /\ s = showZ n.
Proof.
  unfold octets. intros H. apply in_map_iff in H as (k & <- & Hk). apply in_seq in Hk.
  exists (Z.of_nat k). split; [lia|reflexivity].
Qed.

Lemma showZ_octet_ok (n : Z) :
  0 <= n <= 255 -> octetOk (showZ n) = true /\ dotFree (showZ n) = true.
Proof.
  intros Hn. pose proof octets_ok as H. rewrite forallb_forall in H.
  specialize (H _ (showZ_octet n Hn)). now apply andb_prop in H.
Qed.

Lemma showZ_octet_parse (n : Z) : 0 <= n <= 255 -> Cache.parseInt10 (showZ n) = Some n.
Proof.
  intros Hn. pose proof octets_parse as H. rewrite forallb_forall in H.
  specialize (H (Z.to_nat n)). rewrite Z2Nat.id in H by lia.
  destruct (Cache.parseInt10 (showZ n)) as [v|].
  - f_equal. apply Z.eqb_eq. apply H. apply in_seq. lia.
  - discriminate H. apply in_seq. lia.
Qed.

Lemma showZ_octet_inj (a b : Z) :
  0 <= a <= 255 -> 0 <= b <= 255 -> showZ a = showZ b -> a = b.
Proof.
  intros Ha Hb E. pose proof (showZ_octet_parse a Ha) as Pa.
  rewrite E, (showZ_octet_parse b Hb) in Pa. congruence.
Qed.

Lemma isDigit_in (c : ascii) : Cache.isDigit c = true -> In c digitChars.
Proof.
  destruct c as [b0 b1 b2 b3 b4 b5 b6 b7].
  destruct b0, b1, b2, b3, b4, b5, b6, b7; intros H;
    try (vm_compute in H; discriminate H); vm_compute; tauto.
Qed.

Lemma isDigit_parse (c : ascii) (r : string) :
  Cache.isDigit c = true ->
  Cache.parseInt10 (String c r) = Cache.digitsPrefix (String c r) None.
Proof.
  destruct c as [b0 b1 b2 b3 b4 b5 b6 b7].
  destruct b0, b1, b2, b3, b4, b5, b6, b7; intros H;
    try (vm_compute in H; discriminate H); reflexivity.
Qed.

Lemma isDigit_value (c : ascii) :
  Cache.isDigit c = true -> Ascii.eqb c "0" = false ->
  1 <= Z.of_nat (nat_of_ascii c - 48).
Proof.
  destruct c as [b0 b1 b2 b3 b4 b5 b6 b7].
  destruct b0, b1, b2, b3, b4, b5, b6, b7; intros H H0;
    try (vm_compute in H; discriminate H); try (vm_compute in H0; discriminate H0);
    vm_compute; discriminate.
Qed.

Lemma allDigits_in (s : string) :
  allDigits s = true -> In s (digitStrings (String.length s)).
Proof.
  induction s as [|c s IH]; cbn [allDigits String.length digitStrings]; [now left|].
  intros H. apply andb_prop in H as [Hc Hs].
  apply in_flat_map. exists c. split; [now apply isDigit_in|].
  apply in_map. now apply IH.
Qed.

Lemma digits_lower (s : string) :
  forall a, allDigits s = true -> 0 <= a ->
            exists v, Cache.digitsPrefix s (Some a) = Some v
                      /\ a * 10 ^ Z.of_nat (String.length s) <= v.
Proof.
  induction s as [|c s IH]; intros a Hs Ha; cbn [Cache.digitsPrefix String.length].
  - exists a. split; [reflexivity|]. cbn. lia.
  - cbn [allDigits] in Hs. apply andb_prop in Hs as [Hc Hs]. rewrite Hc.
    cbv [default from_option id].
    destruct (IH (10 * a + Z.of_nat (nat_of_ascii c - 48)) Hs ltac:(lia)) as (v & Hv & Hle).
    exists v. split; [exact Hv|].
    rewrite Nat2Z.inj_succ, Z.pow_succ_r by lia.
    assert (0 <= 10 ^ Z.of_nat (String.length s)) by (apply Z.pow_nonneg; lia).
    nia.
Qed.

Lemma octet_table :
  forallb (fun s => implb (octetOk s) (existsb (String.eqb s) octets))
          (digitStrings 1 ++ digitStrings 2 ++ digitStrings 3) = true.
Proof. vm_compute. reflexivity. Qed.

Lemma octetOk_short (part : string) :
  octetOk part = true -> (1 <= String.length part <= 3)%nat /\ allDigits part = true.
Proof.
  unfold octetOk.
  destruct (Nat.ltb 1 (String.length part) && JsString.startsWith part "0")%bool eqn:Ez;
    [discriminate|].
  unfold digitsOnly. destruct (JsString.nonEmpty part) eqn:En; [|discriminate].
  destruct (allDigits part) eqn:Ed; [|discriminate]. cbn [andb negb].
  destruct part as [|c r]; [discriminate|]. cbn [allDigits] in Ed.
  apply andb_prop in Ed as [Hc Hr].
  rewrite (isDigit_parse c r Hc). cbn [Cache.digitsPrefix]. rewrite Hc.
  cbv [default from_option id]. rewrite Z.mul_0_r, Z.add_0_l.
  destruct (digits_lower r (Z.of_nat (nat_of_ascii c - 48)) Hr ltac:(lia)) as (v & -> & Hle).
  intros Hv. apply andb_prop in Hv as [_ Hv]. apply Z.leb_le in Hv.
  split; [|reflexivity]. cbn [String.length]. split; [lia|].
  destruct (Nat.le_gt_cases (String.length r) 2) as [Hl|Hl]; [lia|exfalso].
  assert (Hc0 : Ascii.eqb c "0" = false).
  { cbn [String.length JsString.startsWith] in Ez.
    destruct (Nat.ltb_spec 1 (S (String.length r))) as [_|Hx]; [|lia].
    cbn [andb] in Ez. destruct (Ascii.eqb c "0"); [discriminate|reflexivity]. }
  pose proof (isDigit_value c Hc Hc0) as Hd.
  assert (10 ^ 3 <= 10 ^ Z.of_nat (String.length r)) by (apply Z.pow_le_mono_r; lia).
  change (10 ^ 3) with 1000 in *. nia.
Qed.

Lemma octetOk_in (part : string) : octetOk part = true -> In part octets.
Proof.
  intros H. destruct (octetOk_short part H) as [Hlen Hd].
  pose proof octet_table as T. rewrite forallb_forall in T.
  assert (Hin : In part (digitStrings 1 ++ digitStrings 2 ++ digitStrings 3)).
  { pose proof (allDigits_in part Hd) as Hp.
    destruct (String.length part) as [|[|[|[|n]]]]; try lia.
    - apply in_or_app. now left.
    - apply in_or_app. right. apply in_or_app. now left.
    - apply in_or_app. right. apply in_or_app. now right. }
  specialize (T part Hin). rewrite H in T. cbn [implb] in T.
  apply existsb_exists in T as (x & Hx & E). apply String.eqb_eq in E. now subst x.
Qed.

(** X28: [isValidIPv4] accepts exactly the canonical dotted-decimal
    notation: a string passes if and only if it is the decimal notation of
    four numbers between 0 and 255 joined by dots, so leading zeros, signs,
    spaces, empty fields and a fifth field are all refused. *)
Theorem isValidIPv4_iff (ip : string) :
  isValidIPv4 ip = true
  <-> exists a b c d, (0 <= a <= 255) /\ (0 <= b <= 255) /\ (0 <= c <= 255)
                      /\ (0 <= d <= 255) /\ ip = dotted a b c d.
Proof.
  unfold isValidIPv4. split.
  - destruct (JsString.nonEmpty ip); [|discriminate]. cbn [negb]. cbv zeta.
    pose proof (joinDot_splitDot ip) as Hj.
    destruct (splitDot ip) as [|A [|B [|C [|D [|E l]]]]]; try discriminate.
    cbn [List.length Nat.eqb negb forallb]. rewrite andb_true_r. intros H.
    apply andb_prop in H as [HA H]. apply andb_prop in H as [HB H].
    apply andb_prop in H as [HC HD].
    destruct (octet_show A (octetOk_in A HA)) as (a & Ha & ->).
    destruct (octet_show B (octetOk_in B HB)) as (b & Hb & ->).
    destruct (octet_show C (octetOk_in C HC)) as (c & Hc & ->).
    destruct (octet_show D (octetOk_in D HD)) as (d & Hd & ->).
    exists a, b, c, d. repeat (split; [assumption|]). rewrite <- Hj.
    unfold dotted. rewrite !append_cons, !append_nil_l. reflexivity.
  - intros (a & b & c & d & Ha & Hb & Hc & Hd & ->).
    destruct (showZ_octet_ok a Ha) as [Oa Fa]. destruct (showZ_octet_ok b Hb) as [Ob Fb].
    destruct (showZ_octet_ok c Hc) as [Oc Fc]. destruct (showZ_octet_ok d Hd) as [Od Fd].
    assert (Hne : JsString.nonEmpty (dotted a b c d) = true).
    { unfold dotted. destruct (showZ a) as [|x r]; [discriminate Oa|reflexivity]. }
    rewrite Hne. cbn [negb]. cbv zeta. unfold dotted.
    rewrite !append_cons, !append_nil_l.
    rewrite (splitDot_app _ _ Fa), (splitDot_app _ _ Fb), (splitDot_app _ _ Fc),
      (splitDot_dotFree _ Fd).
    cbn [List.length Nat.eqb negb forallb]. now rewrite Oa, Ob, Oc, Od.
Qed.

Lemma verdict_app (classes : list (ascii -> bool)) :
  forall x b, prefixVerdict classes x = Some b ->
              forall y, matchPrefix classes (String.append x y) = b.
Proof.
  induction classes as [|class rest IH]; intros x b H y.
  - cbn in H. injection H as <-. reflexivity.
  - destruct x as [|c x]; cbn [prefixVerdict] in H; [discriminate|].
    rewrite append_cons. cbn [matchPrefix].
    destruct (class c); cbn [andb]; [now apply IH|]. now injection H as <-.
Qed.

Lemma decided_range (x : string) (range : list (list (ascii -> bool))) :
  forallb (fun branch => bool_decide (is_Some (prefixVerdict branch x))) range = true ->
  forall y, regexTest range (String.append x y)
            = existsb (fun branch => bool_decide (prefixVerdict branch x = Some true)) range.
Proof.
  unfold regexTest. induction range as [|branch range IH]; intros H y; [reflexivity|].
  cbn [forallb existsb] in *. apply andb_prop in H as [Hb Hr].
  rewrite (IH Hr). f_equal.
  apply bool_decide_eq_true in Hb. destruct Hb as [v Hv].
  rewrite (verdict_app _ _ _ Hv), Hv. now destruct v.
Qed.

Lemma decided_ranges (x : string) (ranges : list (list (list (ascii -> bool)))) :
  forallb (forallb (fun branch => bool_decide (is_Some (prefixVerdict branch x)))) ranges
  = true ->
  forall y, existsb (fun range => regexTest range (String.append x y)) ranges
            = existsb (existsb (fun branch => bool_decide (prefixVerdict branch x = Some true)))
                      ranges.
Proof.
  induction ranges as [|range ranges IH]; intros H y; [reflexivity|].
  cbn [forallb existsb] in *. apply andb_prop in H as [Hb Hr].
  now rewrite (IH Hr), (decided_range _ _ Hb).
Qed.

Lemma prefix_table :
  forallb (fun a => forallb (fun b => checkPrefix (Z.of_nat a) (Z.of_nat b)) (seq 0 256))
          (seq 0 256) = true.
Proof. vm_compute. reflexivity. Qed.

Lemma checkPrefix_octets (a b : Z) :
  0 <= a <= 255 -> 0 <= b <= 255 -> checkPrefix a b = true.
Proof.
  intros Ha Hb. pose proof prefix_table as T. rewrite forallb_forall in T.
  specialize (T (Z.to_nat a) ltac:(apply in_seq; lia)). rewrite forallb_forall in T.
  specialize (T (Z.to_nat b) ltac:(apply in_seq; lia)).
  now rewrite !Z2Nat.id in T by lia.
Qed.

Lemma dotted_split (a b c d : Z) :
  dotted a b c d
  = String.append (twoOctets a b) (String.append (showZ c) (String "." (showZ d))).
Proof.
  unfold dotted, twoOctets. rewrite !append_cons, !append_nil_l.
  rewrite append_assoc, append_cons. do 2 f_equal.
  rewrite append_assoc, append_cons, append_nil_l. reflexivity.
Qed.

Lemma splitDot_dotted (a b c d : Z) :
  0 <= a <= 255 -> 0 <= b <= 255 -> 0 <= c <= 255 -> 0 <= d <= 255 ->
  splitDot (dotted a b c d) = [showZ a; showZ b; showZ c; showZ d].
Proof.
  intros Ha Hb Hc Hd.
  destruct (showZ_octet_ok a Ha) as [_ Fa]. destruct (showZ_octet_ok b Hb) as [_ Fb].
  destruct (showZ_octet_ok c Hc) as [_ Fc]. destruct (showZ_octet_ok d Hd) as [_ Fd].
  unfold dotted. rewrite !append_cons, !append_nil_l.
  now rewrite (splitDot_app _ _ Fa), (splitDot_app _ _ Fb), (splitDot_app _ _ Fc),
    (splitDot_dotFree _ Fd).
Qed.

(** X29: on dotted-decimal addresses [isLocalOrInternalIP] is true for
    exactly 127.0.0.1 and the ranges 10.0.0.0/8, 172.16.0.0/12,
    192.168.0.0/16 and 169.254.0.0/16.  The rest of 127.0.0.0/8, 0.0.0.0
    and every other address are not treated as local. *)
Theorem isLocalOrInternalIP_dotted (a b c d : Z) :
  0 <= a <= 255 -> 0 <= b <= 255 -> 0 <= c <= 255 -> 0 <= d <= 255 ->
  isLocalOrInternalIP (dotted a b c d)
  = (((a =? 127) && (b =? 0) && (c =? 0) && (d =? 1)) || privateOctets a b)%bool.
Proof.
  intros Ha Hb Hc Hd. unfold isLocalOrInternalIP.
  pose proof (splitDot_dotted a b c d Ha Hb Hc Hd) as Hs.
  assert (H1 : String.eqb (dotted a b c d) "::1" = false).
  { apply String.eqb_neq. intros E. rewrite E in Hs. discriminate Hs. }
  assert (H2 : String.eqb (dotted a b c d) "localhost" = false).
  { apply String.eqb_neq. intros E. rewrite E in Hs. discriminate Hs. }
  rewrite H1, H2, !orb_false_r.
  pose proof (checkPrefix_octets a b Ha Hb) as Hp. unfold checkPrefix in Hp.
  apply andb_prop in Hp as [Hdec Heq]. apply Bool.eqb_prop in Heq.
  destruct (String.eqb_spec (dotted a b c d) "127.0.0.1") as [E|E].
  - rewrite E in Hs. change (splitDot "127.0.0.1") with ["127"; "0"; "0"; "1"] in Hs.
    injection Hs as Ea Eb Ec Ed.
    assert (a = 127) by (apply showZ_octet_inj; [lia|lia|now rewrite <- Ea]).
    assert (b = 0) by (apply showZ_octet_inj; [lia|lia|now rewrite <- Eb]).
    assert (c = 0) by (apply showZ_octet_inj; [lia|lia|now rewrite <- Ec]).
    assert (d = 1) by (apply showZ_octet_inj; [lia|lia|now rewrite <- Ed]).
    subst. reflexivity.
  - rewrite dotted_split, (decided_ranges _ _ Hdec), Heq.
    destruct ((a =? 127) && (b =? 0) && (c =? 0) && (d =? 1))%bool eqn:Eq; [|reflexivity].
    exfalso. apply E. apply andb_prop in Eq as [Eq Ed']. apply andb_prop in Eq as [Eq Ec'].
    apply andb_prop in Eq as [Ea' Eb']. apply Z.eqb_eq in Ea', Eb', Ec', Ed'. subst.
    reflexivity.
Qed.

(** X30: apart from the literals [::1] and [localhost], nothing that
    does not begin with the digit 1 is treated as local or internal: no
    IPv6 address other than [::1] is, whatever range it belongs to. *)
Theorem isLocalOrInternalIP_first_char (ip : string) :
  isLocalOrInternalIP ip = true ->
  ip = "::1" \/ ip = "localhost" \/ JsString.startsWith ip "1" = true.
Proof.
  unfold isLocalOrInternalIP.
  destruct (String.eqb_spec ip "127.0.0.1") as [->|_]; [intros _; right; right; reflexivity|].
  destruct (String.eqb_spec ip "::1") as [->|_]; [intros _; now left|].
  destruct (String.eqb_spec ip "localhost") as [->|_]; [intros _; right; now left|].
  cbn [orb]. intros H. right. right.
  destruct ip as [|c r]; [vm_compute in H; discriminate H|].
  cbn [JsString.startsWith]. destruct (Ascii.eqb_spec c "1") as [->|Hne]; [reflexivity|].
  exfalso. assert (Hl : lit "1" c = false).
  { unfold lit. now apply Ascii.eqb_neq. }
  unfold privateRanges, regexTest in H. cbn [existsb matchPrefix] in H.
  rewrite Hl in H. cbn in H. discriminate H.
Qed.

End AddressSyntax.

Lemma isLocalOrInternalIP_dotted_witness :
  IpValidation.isLocalOrInternalIP (SpecExt.dotted 127 0 0 2) = false
  /\ IpValidation.isLocalOrInternalIP (SpecExt.dotted 172 31 255 255) = true.
Proof.
  split.
  - rewrite (isLocalOrInternalIP_dotted 127 0 0 2); [reflexivity|lia|lia|lia|lia].
  - rewrite (isLocalOrInternalIP_dotted 172 31 255 255); [reflexivity|lia|lia|lia|lia].
Defined.

Lemma isLocalOrInternalIP_first_char_witness :
  "10.1.2.3" = "::1" \/ "10.1.2.3" = "localhost"
  \/ JsString.startsWith "10.1.2.3" "1" = true.
Proof.
  apply (isLocalOrInternalIP_first_char "10.1.2.3"). reflexivity.
Defined.
